(** * Raw key-value client and delete-range task of store/tikv

    A shallow embedding of [store/tikv/rawkv.go] and
    [store/tikv/delete_range.go].  The region cache, the RPC sender, the
    backoffer and the context are collaborators of these two files: they are
    consulted through an interface ([Cluster]) whose answers may depend on
    everything that happened before, and every call made to them is recorded
    in a chronological log.  Loops that Go writes as [for { ... }] carry a
    fuel argument; a run that is cut short by the fuel has no result but
    keeps its log. *)

From Stdlib Require Import List ZArith Lia Bool String Sorted.
From Stdlib.Strings Require Import Byte.
Import ListNotations.
Local Open Scope Z_scope.

(* ================================================================== *)
(** ** Byte slices *)

Definition bytes := list byte.

(** Lexicographic order on unsigned bytes, shorter prefix first. *)
Fixpoint lex (a b : bytes) : comparison :=
  match a, b with
  | [], [] => Eq
  | [], _ :: _ => Lt
  | _ :: _, [] => Gt
  | x :: a', y :: b' =>
      match N.compare (Byte.to_N x) (Byte.to_N y) with
      | Eq => lex a' b'
      | c => c
      end
  end.

(** [bytes.Compare]: -1, 0 or +1. *)
Definition Compare (a b : bytes) : Z :=
  match lex a b with
  | Lt => -1
  | Eq => 0
  | Gt => 1
  end.

(** [bytes.Equal]; a nil slice and an empty slice are both [[]]. *)
Fixpoint Equal (a b : bytes) : bool :=
  match a, b with
  | [], [] => true
  | x :: a', y :: b' => Byte.eqb x y && Equal a' b'
  | _, _ => false
  end.

(** Go's [len], an [int]. *)
Definition len {A : Type} (s : list A) : Z := Z.of_nat (List.length s).

(** Conversion of an [int] to [uint32]. *)
Definition uint32 (z : Z) : Z := z mod 2 ^ 32.

(** [x++] on an [int] (64 bits, two's complement). *)
Definition int_incr (z : Z) : Z := (z + 1 + 2 ^ 63) mod 2 ^ 64 - 2 ^ 63.

(** Key literals for examples. *)
Definition key (s : string) : bytes := list_byte_of_string s.

(* ================================================================== *)
(** ** Errors *)

(** An error value is either made in these files with [errors.New] /
    [errors.Errorf], or is the package's [ErrBodyMissing], or comes back
    from a collaborator (locator, transport, backoffer). *)
Inductive error : Type :=
| errors_New (text : string)
| ErrBodyMissing
| Upstream (text : string).

(** [err.Error()], where the text is known to these files. *)
Definition Error (e : error) : option string :=
  match e with
  | errors_New text => Some text
  | Upstream text => Some text
  | ErrBodyMissing => None
  end.

(** [errors.Trace] records the call site and keeps the error. *)
Definition Trace (e : error) : error := e.

(** [errors.Errorf("unexpected delete range err: %v", err)]. *)
Definition Errorf_unexpected_delete_range (err : string) : error :=
  errors_New ("unexpected delete range err: " ++ err)%string.

Definition MaxRawKVScanLimit : Z := 10240.

Definition ErrMaxScanLimitExceeded : error :=
  errors_New "limit should be less than MaxRawKVScanLimit".

(* ================================================================== *)
(** ** Locations, requests and responses *)

Definition RegionVerID := Z.

Record KeyLocation : Type := mkLoc {
  Region : RegionVerID;
  StartKey : bytes;
  EndKey : bytes
}.

(** Modelled from the spec: [KeyLocation.Contains] is declared with the
    region cache, outside these two files.  A location is the half-open
    range [[StartKey, EndKey)] and an empty [EndKey] means that the range
    has no upper end. *)
Definition Contains (l : KeyLocation) (k : bytes) : bool :=
  (Compare (StartKey l) k <=? 0)
  && ((Compare k (EndKey l) <? 0) || (len (EndKey l) =? 0)).

Inductive Timeout : Type := readTimeoutShort | ReadTimeoutMedium.

Inductive backoffType : Type := BoRegionMiss.

(** [tikvrpc.Request]: the command type with its body. *)
Inductive Request : Type :=
| RawGetRequest (Key : bytes)
| RawPutRequest (Key Value : bytes)
| RawDeleteRequest (Key : bytes)
| RawScanRequest (StartKey : bytes) (Limit : Z)
| RawDeleteRangeRequest (StartKey EndKey : bytes)
| DeleteRangeRequest (StartKey EndKey : bytes).

Record KvPair : Type := mkKv { Key : bytes; Value : bytes }.

Record RawGetResponse : Type :=
  mkRawGet { RawGet_Error : string; RawGet_Value : bytes }.
Record RawPutResponse : Type := mkRawPut { RawPut_Error : string }.
Record RawDeleteResponse : Type := mkRawDelete { RawDelete_Error : string }.
Record RawScanResponse : Type := mkRawScan { Kvs : list KvPair }.
Record RawDeleteRangeResponse : Type :=
  mkRawDeleteRange { RawDeleteRange_Error : string }.
Record DeleteRangeResponse : Type :=
  mkDeleteRange { DeleteRange_Error : string }.

(** Modelled from the spec: [tikvrpc.Response] and its [GetRegionError]
    are declared outside these two files.  A response is opaque but for
    the shard-ownership error it may carry (a lookup that can itself
    fail), held here in [regionError] by its text, and for the body of
    each command, which may be absent. *)
Record Response : Type := mkResp {
  regionError : error + option string;
  RawGet : option RawGetResponse;
  RawPut : option RawPutResponse;
  RawDelete : option RawDeleteResponse;
  RawScan : option RawScanResponse;
  RawDeleteRange : option RawDeleteRangeResponse;
  DeleteRange_ : option DeleteRangeResponse
}.

Definition GetRegionError (resp : Response) : error + option string :=
  regionError resp.

(* ================================================================== *)
(** ** Collaborators and the call log *)

Inductive Event : Type :=
| EvNewBackoffer
| EvLocateKey (k : bytes) (r : error + KeyLocation)
| EvSendReq (req : Request) (region : RegionVerID) (timeout : Timeout)
            (r : error + Response)
| EvBackoff (typ : backoffType) (msg : string) (r : option error).

Definition Log := list Event.

(** What the region cache, the sender, the backoffer in use and the
    context answer, given the calls made so far. *)
Record Cluster : Type := mkCluster {
  on_LocateKey : Log -> bytes -> error + KeyLocation;
  on_SendReq : Log -> Request -> RegionVerID -> Timeout -> error + Response;
  on_Backoff : Log -> backoffType -> string -> option error;
  on_Done : Log -> bool
}.

(** Computations over the log: the result, [None] when the fuel ran out
    first, and the log of the calls made until then. *)
Definition M (A : Type) : Type := Log -> option A * Log.

Definition ret {A : Type} (a : A) : M A := fun h => (Some a, h).

Definition bind {A B : Type} (m : M A) (k : A -> M B) : M B :=
  fun h => match m h with
           | (Some a, h') => k a h'
           | (None, h') => (None, h')
           end.

Definition out_of_fuel {A : Type} : M A := fun h => (None, h).

Notation "x <- m ;; k" := (bind m (fun x => k))
  (at level 61, m at next level, right associativity).
Notation "m ;;; k" := (bind m (fun _ => k))
  (at level 61, right associativity).

(* ================================================================== *)
(** ** The dispatcher and the client operations ([rawkv.go]) *)

Section Client.

Variable c : Cluster.

(** [NewBackoffer(context.Background(), rawkvMaxBackoff)]: from here on
    the backoffer in use is a fresh one. *)
Definition NewBackoffer : M unit :=
  fun h => (Some tt, h ++ [EvNewBackoffer]).

(** [regionCache.LocateKey(bo, key)]. *)
Definition LocateKey (k : bytes) : M (error + KeyLocation) :=
  fun h => let r := on_LocateKey c h k in
           (Some r, h ++ [EvLocateKey k r]).

(** [sender.SendReq(bo, req, region, timeout)]. *)
Definition SendReq (req : Request) (region : RegionVerID)
           (timeout : Timeout) : M (error + Response) :=
  fun h => let r := on_SendReq c h req region timeout in
           (Some r, h ++ [EvSendReq req region timeout r]).

(** [bo.Backoff(typ, errors.New(msg))]. *)
Definition Backoff (typ : backoffType) (msg : string) : M (option error) :=
  fun h => let r := on_Backoff c h typ msg in
           (Some r, h ++ [EvBackoff typ msg r]).

(** The non-blocking [select] on [ctx.Done()]. *)
Definition ctxDone : M bool := fun h => (Some (on_Done c h), h).

(** The [for] loop of [sendReq]. *)
Fixpoint sendReq_loop (fuel : nat) (k : bytes) (req : Request)
  : M (error + Response * KeyLocation) :=
  match fuel with
  | O => out_of_fuel
  | S fuel' =>
      r <- LocateKey k ;;
      match r with
      | inl err => ret (inl (Trace err))
      | inr loc =>
          r <- SendReq req (Region loc) readTimeoutShort ;;
          match r with
          | inl err => ret (inl (Trace err))
          | inr resp =>
              match GetRegionError resp with
              | inl err => ret (inl (Trace err))
              | inr (Some regionErr) =>
                  e <- Backoff BoRegionMiss regionErr ;;
                  match e with
                  | Some err => ret (inl (Trace err))
                  | None => sendReq_loop fuel' k req
                  end
              | inr None => ret (inr (resp, loc))
              end
          end
      end
  end.

Definition sendReq (fuel : nat) (k : bytes) (req : Request)
  : M (error + Response * KeyLocation) :=
  NewBackoffer ;;; sendReq_loop fuel k req.

(** The clamp of [sendDeleteRangeReq]. *)
Definition actualEndKey (loc : KeyLocation) (endKey : bytes) : bytes :=
  if (0 <? len (EndKey loc)) && (Compare (EndKey loc) endKey <? 0)
  then EndKey loc
  else endKey.

(** The [for] loop of [sendDeleteRangeReq]. *)
Fixpoint sendDeleteRangeReq_loop (fuel : nat) (startKey endKey : bytes)
  : M (error + Response * bytes) :=
  match fuel with
  | O => out_of_fuel
  | S fuel' =>
      r <- LocateKey startKey ;;
      match r with
      | inl err => ret (inl (Trace err))
      | inr loc =>
          let actualEnd := actualEndKey loc endKey in
          let req := RawDeleteRangeRequest startKey actualEnd in
          r <- SendReq req (Region loc) readTimeoutShort ;;
          match r with
          | inl err => ret (inl (Trace err))
          | inr resp =>
              match GetRegionError resp with
              | inl err => ret (inl (Trace err))
              | inr (Some regionErr) =>
                  e <- Backoff BoRegionMiss regionErr ;;
                  match e with
                  | Some err => ret (inl (Trace err))
                  | None => sendDeleteRangeReq_loop fuel' startKey endKey
                  end
              | inr None => ret (inr (resp, actualEnd))
              end
          end
      end
  end.

Definition sendDeleteRangeReq (fuel : nat) (startKey endKey : bytes)
  : M (error + Response * bytes) :=
  NewBackoffer ;;; sendDeleteRangeReq_loop fuel startKey endKey.

(** [Get]: the value and the error, [None] for Go's [nil]. *)
Definition Get (fuel : nat) (k : bytes) : M (option bytes * option error) :=
  r <- sendReq fuel k (RawGetRequest k) ;;
  match r with
  | inl err => ret (None, Some (Trace err))
  | inr (resp, _) =>
      match RawGet resp with
      | None => ret (None, Some (Trace ErrBodyMissing))
      | Some cmdResp =>
          if negb (RawGet_Error cmdResp =? "")%string
          then ret (None, Some (errors_New (RawGet_Error cmdResp)))
          else if len (RawGet_Value cmdResp) =? 0
          then ret (None, None)
          else ret (Some (RawGet_Value cmdResp), None)
      end
  end.

Definition Put (fuel : nat) (k value : bytes) : M (option error) :=
  if len value =? 0
  then ret (Some (errors_New "empty value is not supported"))
  else
    r <- sendReq fuel k (RawPutRequest k value) ;;
    match r with
    | inl err => ret (Some (Trace err))
    | inr (resp, _) =>
        match RawPut resp with
        | None => ret (Some (Trace ErrBodyMissing))
        | Some cmdResp =>
            if negb (RawPut_Error cmdResp =? "")%string
            then ret (Some (errors_New (RawPut_Error cmdResp)))
            else ret None
        end
    end.

Definition Delete (fuel : nat) (k : bytes) : M (option error) :=
  r <- sendReq fuel k (RawDeleteRequest k) ;;
  match r with
  | inl err => ret (Some (Trace err))
  | inr (resp, _) =>
      match RawDelete resp with
      | None => ret (Some (Trace ErrBodyMissing))
      | Some cmdResp =>
          if negb (RawDelete_Error cmdResp =? "")%string
          then ret (Some (errors_New (RawDelete_Error cmdResp)))
          else ret None
      end
  end.

(** The inner [for _, pair := range cmdResp.Kvs] of [Scan]. *)
Definition appendPairs (acc : list bytes * list bytes) (kvs : list KvPair)
  : list bytes * list bytes :=
  fold_left (fun a pair => (fst a ++ [Key pair], snd a ++ [Value pair]))
            kvs acc.

(** The outer [for len(keys) < limit] of [Scan]. *)
Fixpoint Scan_loop (fuel : nat) (limit : Z) (startKey : bytes)
         (keys values : list bytes)
  : M (list bytes * list bytes * option error) :=
  if negb (len keys <? limit) then ret (keys, values, None)
  else
    match fuel with
    | O => out_of_fuel
    | S fuel' =>
        let req := RawScanRequest startKey (uint32 (limit - len keys)) in
        r <- sendReq (S fuel') startKey req ;;
        match r with
        | inl err => ret ([], [], Some (Trace err))
        | inr (resp, loc) =>
            match RawScan resp with
            | None => ret ([], [], Some (Trace ErrBodyMissing))
            | Some cmdResp =>
                let acc := appendPairs (keys, values) (Kvs cmdResp) in
                let startKey' := EndKey loc in
                if len startKey' =? 0
                then ret (fst acc, snd acc, None)
                else Scan_loop fuel' limit startKey' (fst acc) (snd acc)
            end
        end
    end.

(** [Scan]: keys, values and the error; a nil slice is [[]]. *)
Definition Scan (fuel : nat) (startKey : bytes) (limit : Z)
  : M (list bytes * list bytes * option error) :=
  if limit >? MaxRawKVScanLimit
  then ret ([], [], Some (Trace ErrMaxScanLimitExceeded))
  else Scan_loop fuel limit startKey [] [].

Fixpoint DeleteRange (fuel : nat) (startKey endKey : bytes)
  : M (option error) :=
  if Equal startKey endKey then ret None
  else
    match fuel with
    | O => out_of_fuel
    | S fuel' =>
        r <- sendDeleteRangeReq (S fuel') startKey endKey ;;
        match r with
        | inl err => ret (Some (Trace err))
        | inr (resp, actualEnd) =>
            match RawDeleteRange resp with
            | None => ret (Some (Trace ErrBodyMissing))
            | Some cmdResp =>
                if negb (RawDeleteRange_Error cmdResp =? "")%string
                then ret (Some (errors_New (RawDeleteRange_Error cmdResp)))
                else DeleteRange fuel' actualEnd endKey
            end
        end
    end.

End Client.

(* ================================================================== *)
(** ** The delete-range task ([delete_range.go]) *)

(** The fields [store], [ctx] and [bo] are the collaborators. *)
Record DeleteRangeTask : Type := mkTask {
  regions : Z;
  canceled : bool;
  startKey : bytes;
  endKey : bytes
}.

Definition NewDeleteRangeTask (startKey endKey : bytes) : DeleteRangeTask :=
  {| regions := 0; canceled := false; startKey := startKey; endKey := endKey |}.

Definition set_canceled (t : DeleteRangeTask) (b : bool) : DeleteRangeTask :=
  {| regions := regions t; canceled := b;
     startKey := startKey t; endKey := endKey t |}.

Definition incr_regions (t : DeleteRangeTask) : DeleteRangeTask :=
  {| regions := int_incr (regions t); canceled := canceled t;
     startKey := startKey t; endKey := endKey t |}.

(** The clamp of [Execute]. *)
Definition taskEndKey (loc : KeyLocation) (rangeEndKey : bytes) : bytes :=
  if Contains loc rangeEndKey then rangeEndKey else EndKey loc.

Section Task.

Variable c : Cluster.

(** The [for] loop of [Execute], run on the receiver [t]; it hands back
    the receiver as the method leaves it, with the error. *)
Fixpoint Execute_loop (fuel : nat) (t : DeleteRangeTask)
         (startKey rangeEndKey : bytes)
  : M (DeleteRangeTask * option error) :=
  match fuel with
  | O => out_of_fuel
  | S fuel' =>
      done <- ctxDone c ;;
      if done then ret (set_canceled t true, None)
      else
        r <- LocateKey c startKey ;;
        match r with
        | inl err => ret (t, Some (Trace err))
        | inr loc =>
            let endKey := taskEndKey loc rangeEndKey in
            let req := DeleteRangeRequest startKey endKey in
            r <- SendReq c req (Region loc) ReadTimeoutMedium ;;
            match r with
            | inl err => ret (t, Some (Trace err))
            | inr resp =>
                match GetRegionError resp with
                | inl err => ret (t, Some (Trace err))
                | inr (Some regionErr) =>
                    e <- Backoff c BoRegionMiss regionErr ;;
                    match e with
                    | Some err => ret (t, Some (Trace err))
                    | None => Execute_loop fuel' t startKey rangeEndKey
                    end
                | inr None =>
                    match DeleteRange_ resp with
                    | None => ret (t, Some (Trace ErrBodyMissing))
                    | Some deleteRangeResp =>
                        let err := DeleteRange_Error deleteRangeResp in
                        if negb (err =? "")%string
                        then ret (t, Some (Errorf_unexpected_delete_range err))
                        else
                          let t' := incr_regions t in
                          if Equal endKey rangeEndKey then ret (t', None)
                          else Execute_loop fuel' t' endKey rangeEndKey
                    end
                end
            end
        end
  end.

(** [func (t DeleteRangeTask) Execute() error]: the receiver is passed by
    value, so the loop works on the method's own copy, and only the
    error goes back to the caller. *)
Definition Execute (fuel : nat) (t : DeleteRangeTask) : M (option error) :=
  r <- Execute_loop fuel t (startKey t) (endKey t) ;;
  ret (snd r).

Definition Regions (t : DeleteRangeTask) : Z := regions t.

Definition IsCanceled (t : DeleteRangeTask) : bool := canceled t.

(** A caller of the task:
    [task := NewDeleteRangeTask(ctx, store, bo, startKey, endKey)],
    [err := task.Execute()], then [task.IsCanceled()] and
    [task.Regions()]. *)
Definition runTask (fuel : nat) (startKey endKey : bytes)
  : M (bool * Z * option error) :=
  let task := NewDeleteRangeTask startKey endKey in
  err <- Execute fuel task ;;
  ret (IsCanceled task, Regions task, err).

End Task.

(* ================================================================== *)
(** ** The clamp rule in the words of the design (section 4.4) *)

(** Byte-lexicographic minimum. *)
Definition minKey (a b : bytes) : bytes :=
  if Compare a b <=? 0 then a else b.

(** [min(endKey, shardEnd)], where an empty shard end is unbounded, so
    that [endKey] wins. *)
Definition clampRule (endKey shardEnd : bytes) : bytes :=
  match shardEnd with
  | [] => endKey
  | _ :: _ => minKey endKey shardEnd
  end.

(* ================================================================== *)
(** ** A simulated cluster, for running the operations on examples *)

(** The first location of the layout that contains the key. *)
Definition locateIn (layout : list KeyLocation) (k : bytes)
  : error + KeyLocation :=
  match find (fun l => Contains l k) layout with
  | Some l => inr l
  | None => inl (Upstream "region not found")
  end.

Definition lookupKv (data : list KvPair) (k : bytes) : bytes :=
  match find (fun p => Equal (Key p) k) data with
  | Some p => Value p
  | None => []
  end.

(** Pairs of [data] from [start] on held by the region, at most [lim]. *)
Definition scanRegion (layout : list KeyLocation) (data : list KvPair)
           (region : RegionVerID) (start : bytes) (lim : Z) : list KvPair :=
  firstn (Z.to_nat lim)
    (filter (fun p => (Compare start (Key p) <=? 0)
                      && existsb (fun l => (Region l =? region)
                                           && Contains l (Key p)) layout)
            data).

(** A well-formed answer to [req]; [msg] is the error text the store puts
    in the body (empty for none). *)
Definition serve (layout : list KeyLocation) (data : list KvPair)
           (msg : string) (req : Request) (region : RegionVerID) : Response :=
  match req with
  | RawGetRequest k =>
      mkResp (inr None) (Some (mkRawGet msg (lookupKv data k)))
             None None None None None
  | RawPutRequest _ _ =>
      mkResp (inr None) None (Some (mkRawPut msg)) None None None None
  | RawDeleteRequest _ =>
      mkResp (inr None) None None (Some (mkRawDelete msg)) None None None
  | RawScanRequest start lim =>
      mkResp (inr None) None None None
             (Some (mkRawScan (scanRegion layout data region start lim)))
             None None
  | RawDeleteRangeRequest _ _ =>
      mkResp (inr None) None None None None (Some (mkRawDeleteRange msg)) None
  | DeleteRangeRequest _ _ =>
      mkResp (inr None) None None None None None (Some (mkDeleteRange msg))
  end.

(** A response that only says that the region is not served here. *)
Definition regionMiss : Response :=
  mkResp (inr (Some "epoch not match"%string)) None None None None None None.

Definition isSend (ev : Event) : bool :=
  match ev with
  | EvSendReq _ _ _ _ => true
  | _ => false
  end.

(** Number of [Backoff] calls made on the backoffer in use. *)
Fixpoint signals (h : Log) (n : nat) : nat :=
  match h with
  | [] => n
  | EvNewBackoffer :: h' => signals h' 0
  | EvBackoff _ _ _ :: h' => signals h' (S n)
  | _ :: h' => signals h' n
  end.

(** A cluster with a fixed layout and fixed data.  The first [misses]
    requests are answered by a region miss; a backoffer allows [budget]
    signals; the context is done once [cancelAfter] requests were sent. *)
Definition sim (layout : list KeyLocation) (data : list KvPair)
           (msg : string) (misses budget : nat) (cancelAfter : option nat)
  : Cluster :=
  {| on_LocateKey := fun _ k => locateIn layout k;
     on_SendReq := fun h req region _ =>
       if (List.length (filter isSend h) <? misses)%nat
       then inr regionMiss
       else inr (serve layout data msg req region);
     on_Backoff := fun h _ _ =>
       if (signals h 0 <? budget)%nat then None
       else Some (Upstream "backoffer.maxSleep is exceeded");
     on_Done := fun h =>
       match cancelAfter with
       | Some n => (n <=? List.length (filter isSend h))%nat
       | None => false
       end |}.

(** Three regions: up to "b", from "b" to "c", from "c" on. *)
Definition threeRegions : list KeyLocation :=
  [ mkLoc 1 (key "") (key "b");
    mkLoc 2 (key "b") (key "c");
    mkLoc 3 (key "c") (key "") ].

Definition someData : list KvPair :=
  [ mkKv (key "a") (key "1"); mkKv (key "ab") (key "2");
    mkKv (key "b") (key "3"); mkKv (key "d") (key "4") ].

(** The log that the dispatcher leaves when run on a request. *)
Definition dispatched (c : Cluster) (fuel : nat) (k : bytes) (req : Request)
           (h : Log) : Log :=
  snd (sendReq c fuel k req h).

(* ================================================================== *)
(** ** The retry rule of the dispatcher, as a shape of logs *)

(** [attempts k req t r]: the log [t] is a sequence of attempts of one
    dispatcher call for key [k] and request [req], ending with result [r].
    Each attempt locates [k] and sends [req] to the region found.  A failed
    locate, a failed send and a failed region-error lookup end the call
    with that error.  A region error is signalled to the backoffer, which
    either ends the call with its own error or lets a new attempt follow;
    an answer without region error ends the call with the response and
    the location that served it. *)
Inductive attempts (k : bytes) (req : Request)
  : Log -> error + Response * KeyLocation -> Prop :=
| locate_failed (err : error) :
    attempts k req [EvLocateKey k (inl err)] (inl err)
| send_failed (loc : KeyLocation) (err : error) :
    attempts k req
      [EvLocateKey k (inr loc);
       EvSendReq req (Region loc) readTimeoutShort (inl err)]
      (inl err)
| lookup_failed (loc : KeyLocation) (resp : Response) (err : error) :
    GetRegionError resp = inl err ->
    attempts k req
      [EvLocateKey k (inr loc);
       EvSendReq req (Region loc) readTimeoutShort (inr resp)]
      (inl err)
| served (loc : KeyLocation) (resp : Response) :
    GetRegionError resp = inr None ->
    attempts k req
      [EvLocateKey k (inr loc);
       EvSendReq req (Region loc) readTimeoutShort (inr resp)]
      (inr (resp, loc))
| exhausted (loc : KeyLocation) (resp : Response) (regionErr : string)
            (err : error) :
    GetRegionError resp = inr (Some regionErr) ->
    attempts k req
      [EvLocateKey k (inr loc);
       EvSendReq req (Region loc) readTimeoutShort (inr resp);
       EvBackoff BoRegionMiss regionErr (Some err)]
      (inl err)
| retried (loc : KeyLocation) (resp : Response) (regionErr : string)
          (t : Log) (r : error + Response * KeyLocation) :
    GetRegionError resp = inr (Some regionErr) ->
    attempts k req t r ->
    attempts k req
      (EvLocateKey k (inr loc)
       :: EvSendReq req (Region loc) readTimeoutShort (inr resp)
       :: EvBackoff BoRegionMiss regionErr None :: t)
      r.

(** A backoffer of the cluster gives up at its [n]-th signal at the
    latest. *)
Definition exhaustsBy (c : Cluster) (n : nat) : Prop :=
  forall (h : Log) (typ : backoffType) (msg : string),
    (n <= signals h 0)%nat -> on_Backoff c h typ msg <> None.

(* ================================================================== *)
(** ** Application-level errors in the log *)

(** The error text in the body that answers [req], if the body is there. *)
Definition appError (req : Request) (resp : Response) : option string :=
  match req with
  | RawGetRequest _ => option_map RawGet_Error (RawGet resp)
  | RawPutRequest _ _ => option_map RawPut_Error (RawPut resp)
  | RawDeleteRequest _ => option_map RawDelete_Error (RawDelete resp)
  | RawScanRequest _ _ => None
  | RawDeleteRangeRequest _ _ =>
      option_map RawDeleteRange_Error (RawDeleteRange resp)
  | DeleteRangeRequest _ _ =>
      option_map DeleteRange_Error (DeleteRange_ resp)
  end.

(** The event is a request answered by a well-formed response (no region
    error, body present) that carries the non-empty error text [s]. *)
Definition rejecting (ev : Event) (s : string) : Prop :=
  match ev with
  | EvSendReq req _ _ (inr resp) =>
      GetRegionError resp = inr None
      /\ appError req resp = Some s /\ s <> ""%string
  | _ => False
  end.

(** No event of the log is such an answer. *)
Definition unrejected (t : Log) : Prop :=
  forall (ev : Event) (s : string), In ev t -> ~ rejecting ev s.

(** If such an answer is in the log, it is the last event, and [ok] holds
    of its error text. *)
Definition verdict (t : Log) (ok : string -> Prop) : Prop :=
  forall (t1 : Log) (ev : Event) (t2 : Log) (s : string),
    t = t1 ++ ev :: t2 -> rejecting ev s -> t2 = [] /\ ok s.

(* ================================================================== *)
(** ** Layouts and range coverage *)

(** Strict and large order of keys. *)
Definition klt (a b : bytes) : Prop := lex a b = Lt.
Definition kle (a b : bytes) : Prop := lex a b <> Gt.

(** The layout tiles the keys from [from] on: each location starts where
    the one before ends, none is empty, only the last has no upper end. *)
Fixpoint tilesb (from : bytes) (layout : list KeyLocation) : bool :=
  match layout with
  | [] => false
  | l :: rest =>
      Equal (StartKey l) from
      && match rest with
         | [] => len (EndKey l) =? 0
         | _ :: _ => (Compare from (EndKey l) <? 0) && tilesb (EndKey l) rest
         end
  end.

(** The locator answers from the layout, whatever happened before. *)
Definition locates (c : Cluster) (layout : list KeyLocation) : Prop :=
  forall (h : Log) (k : bytes), on_LocateKey c h k = locateIn layout k.

(** Every raw delete-range request is answered by a well-formed response
    without region error and without error text. *)
Definition deletes (c : Cluster) : Prop :=
  forall (h : Log) (s e : bytes) (region : RegionVerID) (timeout : Timeout),
    exists (resp : Response) (cmdResp : RawDeleteRangeResponse),
      on_SendReq c h (RawDeleteRangeRequest s e) region timeout = inr resp
      /\ GetRegionError resp = inr None
      /\ RawDeleteRange resp = Some cmdResp
      /\ RawDeleteRange_Error cmdResp = ""%string.

(** Byte-lexicographic maximum. *)
Definition maxKey (a b : bytes) : bytes :=
  if Compare a b <? 0 then b else a.

(** The location meets the range [[s, e)]: the larger of the two starts
    is below the smaller of the two ends. *)
Definition intersects (s e : bytes) (l : KeyLocation) : bool :=
  Compare (maxKey s (StartKey l)) (clampRule e (EndKey l)) <? 0.

(** The raw delete-range request that covers exactly what the location
    shares with [[s, e)], for the location's region. *)
Definition subRequest (s e : bytes) (l : KeyLocation)
  : Request * RegionVerID :=
  (RawDeleteRangeRequest (maxKey s (StartKey l)) (clampRule e (EndKey l)),
   Region l).

(** The requests of a log, in order, each with the region it went to. *)
Fixpoint requests (t : Log) : list (Request * RegionVerID) :=
  match t with
  | [] => []
  | EvSendReq req region _ _ :: t' => (req, region) :: requests t'
  | _ :: t' => requests t'
  end.

(** The delete-range requests go from [from] to [to] without gap or
    overlap: each is a non-empty range that starts where the one before
    ends. *)
Fixpoint chained (from to : bytes) (reqs : list Request) : Prop :=
  match reqs with
  | [] => from = to
  | RawDeleteRangeRequest a b :: rest =>
      a = from /\ klt a b /\ chained b to rest
  | _ :: _ => False
  end.

(** The locations all end at or before [k]. *)
Definition ends_before (pre : list KeyLocation) (k : bytes) : Prop :=
  forall p, In p pre -> EndKey p <> [] /\ kle (EndKey p) k.

(* ================================================================== *)
(** ** What the store answers to a scan *)

(** The store's scan: "up to N pairs from startKey onward".  A
    well-formed answer of a region to a scan request holds pairs of that
    region only, from the start key of the request on, in strictly
    increasing order of keys, and no more of them than the request's
    limit (a [uint32]). *)
Definition scans (c : Cluster) (layout : list KeyLocation) : Prop :=
  forall (h : Log) (start : bytes) (lim : Z) (region : RegionVerID)
         (timeout : Timeout) (resp : Response) (cmdResp : RawScanResponse)
         (l : KeyLocation),
    0 <= lim ->
    on_SendReq c h (RawScanRequest start lim) region timeout = inr resp ->
    GetRegionError resp = inr None ->
    RawScan resp = Some cmdResp ->
    In l layout -> Region l = region ->
    StronglySorted klt (map Key (Kvs cmdResp))
    /\ (forall p, In p (Kvs cmdResp) ->
                  kle start (Key p)
                  /\ (klt (Key p) (EndKey l) \/ EndKey l = []))
    /\ len (Kvs cmdResp) <= lim.

(** Every scan request is answered by a well-formed response without
    region error. *)
Definition answersScans (c : Cluster) : Prop :=
  forall (h : Log) (start : bytes) (lim : Z) (region : RegionVerID)
         (timeout : Timeout),
    exists (resp : Response) (cmdResp : RawScanResponse),
      on_SendReq c h (RawScanRequest start lim) region timeout = inr resp
      /\ GetRegionError resp = inr None
      /\ RawScan resp = Some cmdResp.

(** The location that the last successful locate of the log returned. *)
Fixpoint lastLocated (t : Log) (acc : option KeyLocation)
  : option KeyLocation :=
  match t with
  | [] => acc
  | EvLocateKey _ (inr l) :: t' => lastLocated t' (Some l)
  | _ :: t' => lastLocated t' acc
  end.

(** What a scan with [limit] gives back, [t] being the calls it made: on
    an error nothing else; otherwise keys in strictly increasing order,
    no more than [limit] of them (none for a negative limit), as many
    values, and the scan ended because the limit was reached or because
    the last location served has no upper end. *)
Definition scanResult (limit : Z) (t : Log)
           (r : list bytes * list bytes * option error) : Prop :=
  match r with
  | (ks, vs, Some _) => ks = [] /\ vs = []
  | (ks, vs, None) =>
      StronglySorted klt ks
      /\ len ks <= Z.max 0 limit
      /\ List.length vs = List.length ks
      /\ (limit <= len ks
          \/ exists l, lastLocated t None = Some l /\ EndKey l = [])
  end.

(* ================================================================== *)
(** ** Kinds of events, for properties of whole logs *)

(** A request answered by a response without region error. *)
Definition servedEv (ev : Event) : Prop :=
  match ev with
  | EvSendReq _ _ _ (inr resp) => GetRegionError resp = inr None
  | _ => False
  end.

(** Go's [p != nil] for an optional body. *)
Definition present {A : Type} (p : option A) : bool :=
  match p with
  | Some _ => true
  | None => false
  end.

(** Whether the response holds the body that answers the request. *)
Definition hasBody (req : Request) (resp : Response) : bool :=
  match req with
  | RawGetRequest _ => present (RawGet resp)
  | RawPutRequest _ _ => present (RawPut resp)
  | RawDeleteRequest _ => present (RawDelete resp)
  | RawScanRequest _ _ => present (RawScan resp)
  | RawDeleteRangeRequest _ _ => present (RawDeleteRange resp)
  | DeleteRangeRequest _ _ => present (DeleteRange_ resp)
  end.

(** A request answered, without region error, by a response that lacks
    the body for the request. *)
Definition bodyless (ev : Event) : Prop :=
  match ev with
  | EvSendReq req _ _ (inr resp) =>
      GetRegionError resp = inr None /\ hasBody req resp = false
  | _ => False
  end.

(** No event of the log is of the kind [P]. *)
Definition neverIn (P : Event -> Prop) (t : Log) : Prop :=
  forall ev : Event, In ev t -> ~ P ev.

(** An event of the kind [P] can only be the last one of the log, and
    then [ok] holds. *)
Definition onlyLast (P : Event -> Prop) (t : Log) (ok : Prop) : Prop :=
  forall (t1 : Log) (ev : Event) (t2 : Log),
    t = t1 ++ ev :: t2 -> P ev -> t2 = [] /\ ok.

(** The key a request is about: its key, or the start of its range. *)
Definition keyOf (req : Request) : bytes :=
  match req with
  | RawGetRequest k => k
  | RawPutRequest k _ => k
  | RawDeleteRequest k => k
  | RawScanRequest s _ => s
  | RawDeleteRangeRequest s _ => s
  | DeleteRangeRequest s _ => s
  end.

(** Every request of the log comes right after a successful locate of
    the key it is about, and goes to the region of the location found.
    [prev] is the event before the log. *)
Fixpoint routed (prev : option Event) (t : Log) : Prop :=
  match t with
  | [] => True
  | ev :: t' =>
      match ev with
      | EvSendReq req region _ _ =>
          exists loc, prev = Some (EvLocateKey (keyOf req) (inr loc))
                      /\ region = Region loc
      | _ => True
      end
      /\ routed (Some ev) t'
  end.

(** The locator only returns locations that contain the key asked for. *)
Definition soundLocator (c : Cluster) : Prop :=
  forall (h : Log) (k : bytes) (loc : KeyLocation),
    on_LocateKey c h k = inr loc -> Contains loc k = true.

(** A response without region error and without any body. *)
Definition emptyResponse : Response :=
  mkResp (inr None) None None None None None None.

(** A cluster with a fixed layout that answers every request with an
    empty response. *)
Definition bareCluster (layout : list KeyLocation) : Cluster :=
  {| on_LocateKey := fun _ k => locateIn layout k;
     on_SendReq := fun _ _ _ _ => inr emptyResponse;
     on_Backoff := fun _ _ _ =>
       Some (Upstream "backoffer.maxSleep is exceeded");
     on_Done := fun _ => false |}.

(** The pairs that the scan responses of the log brought, in order: those
    of each response without region error that has its body. *)
Fixpoint gathered (t : Log) : list KvPair :=
  match t with
  | [] => []
  | EvSendReq (RawScanRequest _ _) _ _ (inr resp) :: t' =>
      match GetRegionError resp, RawScan resp with
      | inr None, Some cmdResp => Kvs cmdResp ++ gathered t'
      | _, _ => gathered t'
      end
  | _ :: t' => gathered t'
  end.

(** Every request of the log is a scan request with the short timeout
    that asks for what is left of [limit], a positive number, after the
    [got] pairs gathered before the log and those the log brought since. *)
Fixpoint asksRemaining (limit got : Z) (t : Log) : Prop :=
  match t with
  | [] => True
  | ev :: t' =>
      match ev with
      | EvSendReq req _ timeout _ =>
          timeout = readTimeoutShort
          /\ 0 < limit - got
          /\ exists s, req = RawScanRequest s (limit - got)
      | _ => True
      end
      /\ asksRemaining limit (got + len (gathered [ev])) t'
  end.

(** An event of one dispatcher call for key [k] and request [req], after
    its new backoffer: a locate of [k], [req] sent with the short
    timeout, or a region-miss signal. *)
Definition ownCall (k : bytes) (req : Request) (ev : Event) : Prop :=
  match ev with
  | EvNewBackoffer => False
  | EvLocateKey k' _ => k' = k
  | EvSendReq req' _ timeout _ => req' = req /\ timeout = readTimeoutShort
  | EvBackoff _ _ _ => True
  end.

(** A request of [DeleteRange], if the event is a request: a raw
    delete-range request with the short timeout whose range ends at or
    before [hi]. *)
Definition endsWithin (hi : bytes) (ev : Event) : Prop :=
  match ev with
  | EvSendReq req _ timeout _ =>
      timeout = readTimeoutShort
      /\ exists a b, req = RawDeleteRangeRequest a b /\ kle b hi
  | _ => True
  end.

(** Moreover the range is not empty and starts at or after [lo]. *)
Definition rawWithin (lo hi : bytes) (ev : Event) : Prop :=
  match ev with
  | EvSendReq req _ _ _ =>
      exists a b, req = RawDeleteRangeRequest a b
                  /\ kle lo a /\ klt a b /\ kle b hi
  | _ => True
  end.

(** A request of the task, if the event is a request: a delete-range
    request with the medium timeout for a range inside [[lo, hi]]. *)
Definition taskWithin (lo hi : bytes) (ev : Event) : Prop :=
  match ev with
  | EvSendReq req _ timeout _ =>
      timeout = ReadTimeoutMedium
      /\ exists a b, req = DeleteRangeRequest a b
                     /\ kle lo a /\ kle a b /\ kle b hi
  | _ => True
  end.

(** An event of the task: never a new backoffer, and a request is a
    delete-range request with the medium timeout. *)
Definition taskCall (ev : Event) : Prop :=
  match ev with
  | EvNewBackoffer => False
  | EvSendReq req _ timeout _ =>
      timeout = ReadTimeoutMedium /\ exists a b, req = DeleteRangeRequest a b
  | _ => True
  end.

(** Every locate of the log [tr], which follows [h], is made at a moment
    when the context is not done. *)
Fixpoint undone (c : Cluster) (h tr : Log) : Prop :=
  match tr with
  | [] => True
  | ev :: tr' =>
      match ev with
      | EvLocateKey _ _ => on_Done c h = false
      | _ => True
      end
      /\ undone c (h ++ [ev]) tr'
  end.

(** The range of the event, if it is a delete-range request, raw or of
    the task, answered without region error by a body without error
    text. *)
Definition deletedRange (ev : Event) : option (bytes * bytes) :=
  match ev with
  | EvSendReq (RawDeleteRangeRequest a b) _ _ (inr resp) =>
      match GetRegionError resp, RawDeleteRange resp with
      | inr None, Some body =>
          if (RawDeleteRange_Error body =? "")%string then Some (a, b)
          else None
      | _, _ => None
      end
  | EvSendReq (DeleteRangeRequest a b) _ _ (inr resp) =>
      match GetRegionError resp, DeleteRange_ resp with
      | inr None, Some body =>
          if (DeleteRange_Error body =? "")%string then Some (a, b)
          else None
      | _, _ => None
      end
  | _ => None
  end.

(** The ranges that the store has confirmed as deleted, in order. *)
Fixpoint deletedRanges (t : Log) : list (bytes * bytes) :=
  match t with
  | [] => []
  | ev :: t' =>
      match deletedRange ev with
      | Some r => r :: deletedRanges t'
      | None => deletedRanges t'
      end
  end.

(** The ranges go from [from] to [to], each starting where the one
    before ends. *)
Fixpoint linked (from to : bytes) (rs : list (bytes * bytes)) : Prop :=
  match rs with
  | [] => from = to
  | (a, b) :: rest => a = from /\ linked b to rest
  end.

(** The key [x] lies in the range [[a, b)]. *)
Definition inRange (x : bytes) (r : bytes * bytes) : Prop :=
  kle (fst r) x /\ klt x (snd r).

(** The range holds a key. *)
Definition nonEmpty (r : bytes * bytes) : Prop := klt (fst r) (snd r).

(** The range lies inside [[lo, hi]]. *)
Definition within (lo hi : bytes) (r : bytes * bytes) : Prop :=
  kle lo (fst r) /\ kle (snd r) hi.

(** The first range ends at or before the start of the second: no key
    lies in both. *)
Definition apart (r1 r2 : bytes * bytes) : Prop := kle (snd r1) (fst r2).

(** A cluster whose locator is out of date: asked for "c", it still
    returns a region that ends at "b". *)
Definition staleCluster : Cluster :=
  {| on_LocateKey := fun _ k =>
       if Equal k (key "a") then inr (mkLoc 1 (key "") (key "c"))
       else if Equal k (key "c") then inr (mkLoc 2 (key "a") (key "b"))
       else inr (mkLoc 3 (key "b") (key ""));
     on_SendReq := fun _ req region _ =>
       inr (serve threeRegions [] "" req region);
     on_Backoff := fun _ _ _ => None;
     on_Done := fun _ => false |}.

(** The event is the request [req] answered by [resp], a response
    without region error whose body for [req] is present and carries no
    error text. *)
Definition confirmed (req : Request) (ev : Event) (resp : Response) : Prop :=
  exists (region : RegionVerID) (timeout : Timeout),
    ev = EvSendReq req region timeout (inr resp)
    /\ GetRegionError resp = inr None
    /\ appError req resp = Some ""%string.

(** The value that [Get] reads off a response: nil for an empty one. *)
Definition valueOf (resp : Response) : option bytes :=
  match RawGet resp with
  | Some cmdResp =>
      if len (RawGet_Value cmdResp) =? 0 then None
      else Some (RawGet_Value cmdResp)
  | None => None
  end.

(** Every delete-range request of the task is answered by a well-formed
    response without region error and without error text. *)
Definition answersDeletes (c : Cluster) : Prop :=
  forall (h : Log) (s e : bytes) (region : RegionVerID) (timeout : Timeout),
    exists (resp : Response) (body : DeleteRangeResponse),
      on_SendReq c h (DeleteRangeRequest s e) region timeout = inr resp
      /\ GetRegionError resp = inr None
      /\ DeleteRange_ resp = Some body
      /\ DeleteRange_Error body = ""%string.

(** The context is never done. *)
Definition neverDone (c : Cluster) : Prop :=
  forall h : Log, on_Done c h = false.

(** The request of the task that covers exactly what the location shares
    with [[s, e)], for the location's region. *)
Definition taskSubRequest (s e : bytes) (l : KeyLocation)
  : Request * RegionVerID :=
  (DeleteRangeRequest (maxKey s (StartKey l)) (clampRule e (EndKey l)),
   Region l).

(** The task's command for the range of a raw delete-range request. *)
Definition asTaskRequest (r : Request * RegionVerID) : Request * RegionVerID :=
  match r with
  | (RawDeleteRangeRequest a b, region) => (DeleteRangeRequest a b, region)
  | _ => r
  end.

(** The log of one call of [sendDeleteRangeReq] from [startKey] towards
    [endKey], after its new backoffer, with its result: as for
    [attempts], but each attempt sends the request for the range clamped
    to the location that this attempt found, and the end key returned is
    the end of the range of the request that was served. *)
Inductive rangeAttempts (startKey endKey : bytes)
  : Log -> error + Response * bytes -> Prop :=
| range_locate_failed (err : error) :
    rangeAttempts startKey endKey [EvLocateKey startKey (inl err)] (inl err)
| range_send_failed (loc : KeyLocation) (err : error) :
    rangeAttempts startKey endKey
      [EvLocateKey startKey (inr loc);
       EvSendReq (RawDeleteRangeRequest startKey (actualEndKey loc endKey))
                 (Region loc) readTimeoutShort (inl err)]
      (inl err)
| range_lookup_failed (loc : KeyLocation) (resp : Response) (err : error) :
    GetRegionError resp = inl err ->
    rangeAttempts startKey endKey
      [EvLocateKey startKey (inr loc);
       EvSendReq (RawDeleteRangeRequest startKey (actualEndKey loc endKey))
                 (Region loc) readTimeoutShort (inr resp)]
      (inl err)
| range_served (loc : KeyLocation) (resp : Response) :
    GetRegionError resp = inr None ->
    rangeAttempts startKey endKey
      [EvLocateKey startKey (inr loc);
       EvSendReq (RawDeleteRangeRequest startKey (actualEndKey loc endKey))
                 (Region loc) readTimeoutShort (inr resp)]
      (inr (resp, actualEndKey loc endKey))
| range_exhausted (loc : KeyLocation) (resp : Response) (regionErr : string)
                  (err : error) :
    GetRegionError resp = inr (Some regionErr) ->
    rangeAttempts startKey endKey
      [EvLocateKey startKey (inr loc);
       EvSendReq (RawDeleteRangeRequest startKey (actualEndKey loc endKey))
                 (Region loc) readTimeoutShort (inr resp);
       EvBackoff BoRegionMiss regionErr (Some err)]
      (inl err)
| range_retried (loc : KeyLocation) (resp : Response) (regionErr : string)
                (t : Log) (r : error + Response * bytes) :
    GetRegionError resp = inr (Some regionErr) ->
    rangeAttempts startKey endKey t r ->
    rangeAttempts startKey endKey
      (EvLocateKey startKey (inr loc)
       :: EvSendReq (RawDeleteRangeRequest startKey (actualEndKey loc endKey))
                    (Region loc) readTimeoutShort (inr resp)
       :: EvBackoff BoRegionMiss regionErr None :: t)
      r.

(** A layout whose second region grows between two lookups: the first
    locate of a log finds ["", "b"), every later one ["", "c"). *)
Definition growingCluster : Cluster :=
  {| on_LocateKey := fun h _ =>
       if existsb isSend h
       then inr (mkLoc 1 (key "") (key "c"))
       else inr (mkLoc 1 (key "") (key "b"));
     on_SendReq := fun h req region _ =>
       if existsb isSend h
       then inr (serve threeRegions [] "" req region)
       else inr regionMiss;
     on_Backoff := fun _ _ _ => None;
     on_Done := fun _ => false |}.

(* ================================================================== *)
(** * Properties *)

(** ** Byte order *)

Lemma lex_refl (a : bytes) : lex a a = Eq.
Proof.
  induction a as [|x a IH]; simpl; [reflexivity|].
  now rewrite N.compare_refl.
Qed.

Lemma to_N_inj (x y : byte) : Byte.to_N x = Byte.to_N y -> x = y.
Proof.
  intros E. pose proof (Byte.of_to_N x) as Hx.
  rewrite E, Byte.of_to_N in Hx. now inversion Hx.
Qed.

Lemma lex_eq (a b : bytes) : lex a b = Eq -> a = b.
Proof.
  revert b; induction a as [|x a IH]; intros [|y b]; simpl; try easy.
  destruct (N.compare_spec (Byte.to_N x) (Byte.to_N y)) as [E| |]; try easy.
  intros H. apply to_N_inj in E. subst y. f_equal. now apply IH.
Qed.

Lemma lex_antisym (a b : bytes) : lex b a = CompOpp (lex a b).
Proof.
  revert b; induction a as [|x a IH]; intros [|y b]; simpl; try easy.
  rewrite (N.compare_antisym (Byte.to_N x) (Byte.to_N y)).
  destruct (Byte.to_N x ?= Byte.to_N y)%N; simpl; auto.
Qed.

Lemma lex_lt_trans (a b d : bytes) : lex a b = Lt -> lex b d = Lt -> lex a d = Lt.
Proof.
  revert b d; induction a as [|x a IH]; intros [|y b] [|z d]; simpl; try easy.
  destruct (N.compare_spec (Byte.to_N x) (Byte.to_N y)) as [E|L|G]; try easy;
  destruct (N.compare_spec (Byte.to_N y) (Byte.to_N z)) as [E'|L'|G']; try easy;
  intros H1 H2.
  - rewrite E, E', N.compare_refl. eauto.
  - rewrite E. now apply N.compare_lt_iff in L'; rewrite L'.
  - rewrite <- E'. now apply N.compare_lt_iff in L; rewrite L.
  - assert (Byte.to_N x < Byte.to_N z)%N as L2 by lia.
    now apply N.compare_lt_iff in L2; rewrite L2.
Qed.

Lemma lex_nil_r (a : bytes) : lex a [] <> Lt.
Proof. destruct a; simpl; congruence. Qed.

Lemma Equal_eq (a b : bytes) : Equal a b = true <-> a = b.
Proof.
  revert b; induction a as [|x a IH]; intros [|y b]; simpl; try easy.
  rewrite andb_true_iff, IH. split.
  - intros [H ->]. now apply Byte.byte_dec_bl in H; subst.
  - intros H; inversion H; subst. split; [now apply Byte.byte_dec_lb|easy].
Qed.

Lemma Compare_lt (a b : bytes) : (Compare a b <? 0) = true <-> lex a b = Lt.
Proof. unfold Compare. destruct (lex a b); cbn; split; congruence. Qed.

Lemma Compare_le (a b : bytes) : (Compare a b <=? 0) = true <-> lex a b <> Gt.
Proof. unfold Compare. destruct (lex a b); cbn; split; congruence. Qed.

Lemma len_zero {A : Type} (s : list A) : (len s =? 0) = true <-> s = [].
Proof. unfold len. destruct s; cbn; split; congruence. Qed.

Lemma Compare_flip (a b : bytes) :
  (Compare a b <=? 0) = negb (Compare b a <? 0).
Proof.
  unfold Compare. rewrite (lex_antisym a b).
  destruct (lex a b); reflexivity.
Qed.

Lemma Compare_le_lt_trans (a b d : bytes) :
  (Compare a b <=? 0) = true -> (Compare b d <? 0) = true ->
  (Compare a d <? 0) = true.
Proof.
  rewrite Compare_le, !Compare_lt. intros H1 H2.
  destruct (lex a b) eqn:E; try congruence.
  - apply lex_eq in E. now subst.
  - eapply lex_lt_trans; eauto.
Qed.

Lemma Compare_le_trans (a b d : bytes) :
  (Compare a b <=? 0) = true -> (Compare b d <=? 0) = true ->
  (Compare a d <=? 0) = true.
Proof.
  intros H1 H2. rewrite Compare_le in H2.
  destruct (lex b d) eqn:E; try congruence.
  - apply lex_eq in E. now subst.
  - apply Compare_le. rewrite <- Compare_lt in E.
    pose proof (Compare_le_lt_trans _ _ _ H1 E) as H.
    rewrite Compare_lt in H. congruence.
Qed.

(* ================================================================== *)
(** ** Validation before any access to the cluster *)

(** C7. [Scan] with a limit above [MaxRawKVScanLimit] returns
    [ErrMaxScanLimitExceeded] with nil slices at once: whatever the
    cluster and the fuel, the call log is left as it was, so neither a
    locate nor a send took place. *)
Theorem Scan_limit_exceeded (c : Cluster) (fuel : nat) (startKey : bytes)
        (limit : Z) (h : Log) :
  limit > MaxRawKVScanLimit ->
  Scan c fuel startKey limit h
  = (Some ([], [], Some ErrMaxScanLimitExceeded), h).
Proof.
  intros H. unfold Scan.
  destruct (Z.gtb_spec limit MaxRawKVScanLimit) as [E|E]; [reflexivity|lia].
Qed.

Lemma Scan_limit_exceeded_witness :
  10241 > MaxRawKVScanLimit
  /\ Scan (sim threeRegions someData "" 0 0 None) 0 (key "a") 10241 []
     = (Some ([], [], Some ErrMaxScanLimitExceeded), []).
Proof.
  split; [reflexivity|].
  apply (Scan_limit_exceeded (sim threeRegions someData "" 0 0 None) 0
                             (key "a") 10241 []).
  reflexivity.
Defined.

(** C10. [Scan] with a limit that is zero or negative returns empty keys
    and values and a nil error, and leaves the call log as it was: no
    locate, no send. *)
Theorem Scan_nonpositive_limit (c : Cluster) (fuel : nat) (startKey : bytes)
        (limit : Z) (h : Log) :
  limit <= 0 ->
  Scan c fuel startKey limit h = (Some ([], [], None), h).
Proof.
  intros H. unfold Scan.
  destruct (Z.gtb_spec limit MaxRawKVScanLimit) as [E|E].
  - unfold MaxRawKVScanLimit in E. lia.
  - destruct fuel; simpl; unfold len; simpl;
      destruct (Z.ltb_spec 0 limit); try reflexivity; lia.
Qed.

Lemma Scan_nonpositive_limit_witness :
  -3 <= 0
  /\ Scan (sim threeRegions someData "" 0 0 None) 0 (key "a") (-3) []
     = (Some ([], [], None), []).
Proof.
  split; [lia|].
  apply (Scan_nonpositive_limit (sim threeRegions someData "" 0 0 None) 0
                                (key "a") (-3) []).
  lia.
Defined.

Ltac step_loop :=
  unfold bind, LocateKey, SendReq, Backoff, NewBackoffer, ctxDone, ret,
    out_of_fuel, Trace; cbn beta iota.

Lemma app_snoc2 {A : Type} (h : list A) (a b : A) :
  (h ++ [a]) ++ [b] = h ++ [a; b].
Proof. now rewrite <- app_assoc. Qed.

Lemma app_snoc3 {A : Type} (h : list A) (a b d : A) :
  ((h ++ [a]) ++ [b]) ++ [d] = h ++ [a; b; d].
Proof. now rewrite <- !app_assoc. Qed.

(** The loop of [sendReq] only adds to the log. *)
Lemma sendReq_loop_extends (c : Cluster) (k : bytes) (req : Request)
      (fuel : nat) :
  forall h : Log, exists t, snd (sendReq_loop c fuel k req h) = h ++ t.
Proof.
  induction fuel as [|fuel IH]; intros h.
  { exists []. simpl. now rewrite app_nil_r. }
  cbn [sendReq_loop]. step_loop.
  destruct (on_LocateKey c h k) as [err|loc]; [simpl; eauto|].
  destruct (on_SendReq c _ req (Region loc) readTimeoutShort) as [err|resp];
    [rewrite app_snoc2; simpl; eauto|].
  destruct (GetRegionError resp) as [err|[regionErr|]];
    [rewrite app_snoc2; simpl; eauto| |rewrite app_snoc2; simpl; eauto].
  destruct (on_Backoff c _ BoRegionMiss regionErr) as [err|];
    [rewrite app_snoc3; simpl; eauto|].
  rewrite app_snoc3. destruct (IH (h ++ [EvLocateKey k (inr loc);
    EvSendReq req (Region loc) readTimeoutShort (inr resp);
    EvBackoff BoRegionMiss regionErr None])) as (t & ->).
  rewrite <- app_assoc. eauto.
Qed.

(** With some fuel, the dispatcher takes a new backoffer and asks the
    locator for the key. *)
Lemma sendReq_starts (c : Cluster) (fuel : nat) (k : bytes) (req : Request)
      (h : Log) :
  (0 < fuel)%nat ->
  exists t,
    snd (sendReq c fuel k req h)
    = h ++ EvNewBackoffer
        :: EvLocateKey k (on_LocateKey c (h ++ [EvNewBackoffer]) k) :: t.
Proof.
  intros Hf. destruct fuel as [|fuel]; [lia|].
  unfold sendReq. step_loop. cbn [sendReq_loop]. step_loop.
  set (h0 := h ++ [EvNewBackoffer]).
  assert (forall t, h0 ++ EvLocateKey k (on_LocateKey c h0 k) :: t
                    = h ++ EvNewBackoffer
                        :: EvLocateKey k (on_LocateKey c h0 k) :: t) as E
      by (intros t; unfold h0; now rewrite <- app_assoc).
  destruct (on_LocateKey c h0 k) as [err|loc] eqn:L.
  { exists []. simpl. apply (E []). }
  destruct (on_SendReq c _ req (Region loc) readTimeoutShort) as [err|resp].
  { rewrite app_snoc2. eexists. simpl. apply E. }
  destruct (GetRegionError resp) as [err|[regionErr|]].
  - rewrite app_snoc2. eexists. simpl. apply E.
  - destruct (on_Backoff c _ BoRegionMiss regionErr) as [err|].
    + rewrite app_snoc3. eexists. simpl. apply E.
    + rewrite app_snoc3.
      destruct (sendReq_loop_extends c k req fuel
                  (h0 ++ [EvLocateKey k (inr loc);
                          EvSendReq req (Region loc) readTimeoutShort
                                    (inr resp);
                          EvBackoff BoRegionMiss regionErr None]))
        as (t & ->).
      rewrite <- app_assoc. eexists. apply E.
  - rewrite app_snoc2. eexists. simpl. apply E.
Qed.

(** C8. [Put] of a zero-length value returns a validation error made on
    the spot and leaves the call log as it was (no locate, no send).  With
    any other value [Put] runs the dispatcher on the put request for that
    key: its log is the one the dispatcher leaves, which, given any fuel,
    starts with a new backoffer and a locate of the key. *)
Theorem Put_empty_value (c : Cluster) (fuel : nat) (k value : bytes)
        (h : Log) :
  (value = [] ->
   Put c fuel k value h
   = (Some (Some (errors_New "empty value is not supported")), h))
  /\ (value <> [] ->
      snd (Put c fuel k value h)
      = dispatched c fuel k (RawPutRequest k value) h)
  /\ (value <> [] -> (0 < fuel)%nat ->
      exists t,
        snd (Put c fuel k value h)
        = h ++ EvNewBackoffer
            :: EvLocateKey k (on_LocateKey c (h ++ [EvNewBackoffer]) k) :: t).
Proof.
  assert (value <> [] ->
          snd (Put c fuel k value h)
          = dispatched c fuel k (RawPutRequest k value) h) as Hd.
  { intros H. unfold Put, dispatched.
    destruct (len value =? 0) eqn:E.
    - apply len_zero in E. contradiction.
    - unfold bind at 1.
      destruct (sendReq c fuel k (RawPutRequest k value) h)
        as [[[err|[resp loc]]|] h']; simpl; try reflexivity.
      destruct (RawPut resp) as [cmdResp|]; [|reflexivity].
      destruct (negb (RawPut_Error cmdResp =? "")%string); reflexivity. }
  split; [|split].
  - intros ->. reflexivity.
  - exact Hd.
  - intros H Hf. rewrite (Hd H). unfold dispatched.
    now apply sendReq_starts.
Qed.

Lemma Put_empty_value_witness :
  (Put (sim threeRegions someData "" 0 0 None) 1 (key "a") [] []
   = (Some (Some (errors_New "empty value is not supported")), []))
  /\ (snd (Put (sim threeRegions someData "" 0 0 None) 1 (key "a") (key "v") [])
      = dispatched (sim threeRegions someData "" 0 0 None) 1 (key "a")
                   (RawPutRequest (key "a") (key "v")) [])
  /\ (exists t,
         snd (Put (sim threeRegions someData "" 0 0 None) 1
                  (key "a") (key "v") [])
         = [] ++ EvNewBackoffer
             :: EvLocateKey (key "a")
                  (on_LocateKey (sim threeRegions someData "" 0 0 None)
                                ([] ++ [EvNewBackoffer]) (key "a")) :: t).
Proof.
  split; [|split].
  - apply (Put_empty_value (sim threeRegions someData "" 0 0 None) 1
                           (key "a") [] []).
    reflexivity.
  - apply (Put_empty_value (sim threeRegions someData "" 0 0 None) 1
                           (key "a") (key "v") []).
    discriminate.
  - apply (Put_empty_value (sim threeRegions someData "" 0 0 None) 1
                           (key "a") (key "v") []).
    + discriminate.
    + lia.
Defined.

(* ================================================================== *)
(** ** Interpreting the answer to [Get] *)

(** C9. When the dispatcher hands [Get] a response whose body is present,
    [Get] returns a nil value with a nil error exactly when that body
    carries no error text and a value of length zero: so it does for
    every such response, whatever the key; and when the body carries an
    error text, [Get] returns an error made of that text, which is not
    this result.  The caller tells a key that is not there from an
    application error by the error that [Get] returns. *)
Theorem Get_miss (c : Cluster) (fuel : nat) (k : bytes) (h h' : Log)
        (resp : Response) (loc : KeyLocation) (cmdResp : RawGetResponse) :
  sendReq c fuel k (RawGetRequest k) h = (Some (inr (resp, loc)), h') ->
  RawGet resp = Some cmdResp ->
  (Get c fuel k h = (Some (None, None), h')
   <-> RawGet_Error cmdResp = ""%string /\ len (RawGet_Value cmdResp) = 0)
  /\ (RawGet_Error cmdResp <> ""%string ->
      Get c fuel k h
      = (Some (None, Some (errors_New (RawGet_Error cmdResp))), h')).
Proof.
  intros Hd Hb. unfold Get, bind, ret. rewrite Hd, Hb.
  destruct (String.eqb_spec (RawGet_Error cmdResp) "") as [He|He];
    cbn [negb].
  - split; [|contradiction].
    destruct (Z.eqb_spec (len (RawGet_Value cmdResp)) 0) as [Hv|Hv].
    + split; [now split|reflexivity].
    + split; [discriminate|]. intros [_ Hv']. contradiction.
  - split; [|reflexivity]. split; [discriminate|].
    intros [He' _]. contradiction.
Qed.

Lemma Get_miss_witness :
  exists h',
    Get (sim threeRegions someData "" 0 0 None) 1 (key "zz") []
    = (Some (None, None), h').
Proof.
  eexists.
  refine (proj2 (proj1 (Get_miss (sim threeRegions someData "" 0 0 None) 1
                                 (key "zz") [] _ _ _ _ _ _)) _);
    [reflexivity|reflexivity|split; reflexivity].
Defined.

(** A key that is there, a key that is not, and a store that answers
    with an error text: three results that differ. *)
Example Get_three_results :
  fst (Get (sim threeRegions someData "" 0 0 None) 1 (key "ab") [])
  = Some (Some (key "2"), None)
  /\ fst (Get (sim threeRegions someData "" 0 0 None) 1 (key "zz") [])
     = Some (None, None)
  /\ fst (Get (sim threeRegions someData "no" 0 0 None) 1 (key "zz") [])
     = Some (None, Some (errors_New "no")).
Proof. repeat split. Qed.

(* ================================================================== *)
(** ** The two clamps *)

Lemma Contains_unbounded (l : KeyLocation) (k : bytes) :
  EndKey l = [] -> Contains l k = (Compare (StartKey l) k <=? 0).
Proof.
  intros E. unfold Contains. rewrite E. simpl.
  now rewrite orb_true_r, andb_true_r.
Qed.

Lemma Contains_bounded (l : KeyLocation) (k : bytes) :
  EndKey l <> [] ->
  Contains l k
  = (Compare (StartKey l) k <=? 0) && (Compare k (EndKey l) <? 0).
Proof.
  intros E. unfold Contains.
  destruct (len (EndKey l) =? 0) eqn:E0.
  - apply len_zero in E0. contradiction.
  - now rewrite orb_false_r.
Qed.

Lemma Contains_start (l : KeyLocation) (k : bytes) :
  Contains l k = true -> (Compare (StartKey l) k <=? 0) = true.
Proof. unfold Contains. now intros [H _]%andb_true_iff. Qed.

(** The clamp of [sendDeleteRangeReq] is the rule of section 4.4. *)
Lemma actualEndKey_clampRule (loc : KeyLocation) (endKey : bytes) :
  actualEndKey loc endKey = clampRule endKey (EndKey loc).
Proof.
  unfold actualEndKey, clampRule.
  destruct (EndKey loc) as [|x e] eqn:E; [reflexivity|].
  replace (0 <? len (x :: e)) with true by reflexivity. simpl andb.
  unfold minKey. rewrite (Compare_flip endKey (x :: e)).
  now destruct (Compare (x :: e) endKey <? 0).
Qed.

(** C4. For a location that contains the cursor and a range end at or
    after the cursor, the clamp of the task (the range end when the
    location contains it, else the location's end) is the rule of section
    4.4 (the lexicographic minimum of the range end and the location's
    end, an empty location end being unbounded), and it is what the clamp
    of [sendDeleteRangeReq] computes. *)
Theorem taskEndKey_clampRule (loc : KeyLocation) (cursor rangeEndKey : bytes) :
  Contains loc cursor = true ->
  Compare cursor rangeEndKey <= 0 ->
  taskEndKey loc rangeEndKey = clampRule rangeEndKey (EndKey loc)
  /\ taskEndKey loc rangeEndKey = actualEndKey loc rangeEndKey.
Proof.
  intros Hc Hle. apply Z.leb_le in Hle.
  assert (taskEndKey loc rangeEndKey = clampRule rangeEndKey (EndKey loc))
    as H.
  { pose proof (Compare_le_trans _ _ _ (Contains_start _ _ Hc) Hle) as Hs.
    unfold taskEndKey, clampRule.
    destruct (EndKey loc) as [|x e] eqn:E.
    - now rewrite (Contains_unbounded _ _ E), Hs.
    - rewrite Contains_bounded, Hs, E by (rewrite E; discriminate).
      simpl andb. unfold minKey, Compare.
      destruct (lex rangeEndKey (x :: e)) eqn:El; try reflexivity.
      apply lex_eq in El. now rewrite El. }
  split; [exact H|]. now rewrite actualEndKey_clampRule.
Qed.

Lemma taskEndKey_clampRule_witness :
  taskEndKey (mkLoc 2 (key "b") (key "c")) (key "c")
  = clampRule (key "c") (key "c")
  /\ taskEndKey (mkLoc 2 (key "b") (key "c")) (key "c")
     = actualEndKey (mkLoc 2 (key "b") (key "c")) (key "c").
Proof.
  apply (taskEndKey_clampRule (mkLoc 2 (key "b") (key "c"))
                              (key "bb") (key "c")).
  - reflexivity.
  - vm_compute. discriminate.
Defined.

(* ================================================================== *)
(** ** What the caller of the task sees *)

(** Whatever happens, the caller's task is as it was made. *)
Lemma runTask_report (c : Cluster) (fuel : nat) (startKey endKey : bytes)
      (h h' : Log) (r : bool * Z * option error) :
  runTask c fuel startKey endKey h = (Some r, h') ->
  fst (fst r) = false /\ snd (fst r) = 0.
Proof.
  unfold runTask, bind at 1.
  destruct (Execute c fuel _ h) as [[err|] h1]; [|discriminate].
  unfold ret. intros H; inversion H; subst. now split.
Qed.

(** C1. A task over ["a", "d") on three regions, with the context done
    once the first request was sent: the run ends with a nil error after
    one request, and the receiver inside [Execute] ends canceled with one
    region counted; the caller, though, reads [IsCanceled() = false] and
    [Regions() = 0] from its task. *)
Theorem runTask_cancel_after_first_region :
  let c := sim threeRegions someData "" 0 0 (Some 1%nat) in
  let task := NewDeleteRangeTask (key "a") (key "d") in
  exists (h' : Log) (t' : DeleteRangeTask),
    runTask c 3 (key "a") (key "d") [] = (Some (false, 0, None), h')
    /\ Execute_loop c 3 task (key "a") (key "d") [] = (Some (t', None), h')
    /\ IsCanceled t' = true /\ Regions t' = 1
    /\ List.length (filter isSend h') = 1%nat.
Proof.
  vm_compute. do 2 eexists. repeat split.
Qed.

(* ================================================================== *)
(** ** The dispatcher loop *)

Lemma signals_app (h t : Log) (n : nat) :
  signals (h ++ t) n = signals t (signals h n).
Proof.
  revert n; induction h as [|ev h IH]; intros n; simpl; [reflexivity|].
  destruct ev; apply IH.
Qed.

(** Whenever the loop of [sendReq] returns, its log is a sequence of
    attempts that ends with the result. *)
Lemma sendReq_loop_attempts (c : Cluster) (k : bytes) (req : Request)
      (fuel : nat) :
  forall (h h' : Log) (r : error + Response * KeyLocation),
    sendReq_loop c fuel k req h = (Some r, h') ->
    exists t, h' = h ++ t /\ attempts k req t r.
Proof.
  induction fuel as [|fuel IH]; intros h h' r; [discriminate|].
  cbn [sendReq_loop]. step_loop.
  destruct (on_LocateKey c h k) as [err|loc].
  { intros H; inversion H; subst. eexists; split; [reflexivity|constructor]. }
  destruct (on_SendReq c _ req (Region loc) readTimeoutShort)
    as [err|resp].
  { intros H; inversion H; subst. rewrite app_snoc2.
    eexists; split; [reflexivity|constructor]. }
  destruct (GetRegionError resp) as [err|[regionErr|]] eqn:G.
  { intros H; inversion H; subst. rewrite app_snoc2.
    eexists; split; [reflexivity|now constructor]. }
  - destruct (on_Backoff c _ BoRegionMiss regionErr) as [err|].
    + intros H; inversion H; subst. rewrite app_snoc3.
      eexists; split; [reflexivity|now constructor].
    + intros H. apply IH in H. destruct H as (t & -> & Ht).
      rewrite app_snoc3, <- app_assoc.
      eexists; split; [reflexivity|]. simpl. now apply retried.
  - intros H; inversion H; subst. rewrite app_snoc2.
    eexists; split; [reflexivity|now constructor].
Qed.

(** With a backoffer that gives up by its [n]-th signal, the loop
    returns as soon as the fuel covers the signals that are left. *)
Lemma sendReq_loop_returns (c : Cluster) (n : nat) (k : bytes)
      (req : Request) (fuel : nat) :
  exhaustsBy c n ->
  forall h : Log,
    (signals h 0 <= n < signals h 0 + fuel)%nat ->
    exists r h', sendReq_loop c fuel k req h = (Some r, h').
Proof.
  intros Hc. induction fuel as [|fuel IH]; intros h Hn; [lia|].
  cbn [sendReq_loop]. step_loop.
  destruct (on_LocateKey c h k) as [err|loc]; [eauto|].
  destruct (on_SendReq c _ req (Region loc) readTimeoutShort)
    as [err|resp]; [eauto|].
  destruct (GetRegionError resp) as [err|[regionErr|]]; [eauto| |eauto].
  destruct (on_Backoff c _ BoRegionMiss regionErr) as [err|] eqn:B; [eauto|].
  apply IH. rewrite app_snoc3, signals_app. simpl.
  assert (signals h 0 < n)%nat; [|lia].
  destruct (Nat.lt_ge_cases (signals h 0) n) as [L|G]; [exact L|].
  exfalso. revert B. apply Hc. rewrite app_snoc2, signals_app. simpl. lia.
Qed.

(** C3. In [sendReq], for a backoffer that gives up by its [n]-th signal
    and fuel above [n], the call returns, and its log, after the new
    backoffer, is a sequence of attempts: every attempt locates the same
    key afresh and sends the request; a region error is signalled to the
    backoffer and is followed by a new attempt exactly when the backoffer
    allows it, and by nothing but the backoffer's error as the result
    when it does not; a failed locate and a failed send end the log and
    are the result. *)
Theorem sendReq_retry_on_region_miss (c : Cluster) (n fuel : nat)
        (k : bytes) (req : Request) (h : Log) :
  exhaustsBy c n ->
  (n < fuel)%nat ->
  exists (t : Log) (r : error + Response * KeyLocation),
    sendReq c fuel k req h = (Some r, h ++ EvNewBackoffer :: t)
    /\ attempts k req t r.
Proof.
  intros Hc Hf. unfold sendReq. step_loop.
  destruct (sendReq_loop_returns c n k req fuel Hc (h ++ [EvNewBackoffer]))
    as (r & h' & E).
  { rewrite signals_app. simpl. lia. }
  rewrite E. apply sendReq_loop_attempts in E. destruct E as (t & -> & Ht).
  exists t, r. now rewrite <- app_assoc.
Qed.

Lemma sim_exhaustsBy (layout : list KeyLocation) (data : list KvPair)
      (msg : string) (misses budget : nat) (cancelAfter : option nat) :
  exhaustsBy (sim layout data msg misses budget cancelAfter) budget.
Proof.
  intros h typ msg' H. simpl.
  destruct (Nat.ltb_spec (signals h 0) budget); [lia|discriminate].
Qed.

Lemma sendReq_retry_on_region_miss_witness :
  exists (t : Log) (r : error + Response * KeyLocation),
    sendReq (sim threeRegions someData "" 2 1 None) 2 (key "ab")
            (RawGetRequest (key "ab")) []
    = (Some r, [] ++ EvNewBackoffer :: t)
    /\ attempts (key "ab") (RawGetRequest (key "ab")) t r.
Proof.
  apply (sendReq_retry_on_region_miss
           (sim threeRegions someData "" 2 1 None) 1 2 (key "ab")
           (RawGetRequest (key "ab")) []).
  - apply sim_exhaustsBy.
  - lia.
Defined.

(** One region miss within the budget: a second locate of the same key,
    then the value. *)
Example sendReq_one_miss :
  let b := mkLoc 1 (key "") (key "b") in
  let req := RawGetRequest (key "ab") in
  let ok := serve threeRegions someData "" req 1 in
  sendReq (sim threeRegions someData "" 1 3 None) 5 (key "ab") req []
  = (Some (inr (ok, b)), [EvNewBackoffer;
           EvLocateKey (key "ab") (inr b);
           EvSendReq req 1 readTimeoutShort (inr regionMiss);
           EvBackoff BoRegionMiss "epoch not match" None;
           EvLocateKey (key "ab") (inr b);
           EvSendReq req 1 readTimeoutShort (inr ok)]).
Proof. reflexivity. Qed.

(** Two region misses with a budget of one signal: the second signal
    ends the call with the backoffer's error, and no locate follows. *)
Example sendReq_budget_exhausted :
  let b := mkLoc 1 (key "") (key "b") in
  let req := RawGetRequest (key "ab") in
  sendReq (sim threeRegions someData "" 2 1 None) 5 (key "ab") req []
  = (Some (inl (Upstream "backoffer.maxSleep is exceeded")), [EvNewBackoffer;
           EvLocateKey (key "ab") (inr b);
           EvSendReq req 1 readTimeoutShort (inr regionMiss);
           EvBackoff BoRegionMiss "epoch not match" None;
           EvLocateKey (key "ab") (inr b);
           EvSendReq req 1 readTimeoutShort (inr regionMiss);
           EvBackoff BoRegionMiss "epoch not match"
                     (Some (Upstream "backoffer.maxSleep is exceeded"))]).
Proof. reflexivity. Qed.

(* ================================================================== *)
(** ** Application-level errors are final *)

Lemma unrejected_nil : unrejected [].
Proof. intros ev s []. Qed.

Lemma unrejected_cons (ev : Event) (t : Log) :
  (forall s, ~ rejecting ev s) -> unrejected t -> unrejected (ev :: t).
Proof. intros H Ht ev' s [<-|Hin]; [apply H|now apply Ht]. Qed.

Lemma unrejected_app (t1 t2 : Log) :
  unrejected t1 -> unrejected t2 -> unrejected (t1 ++ t2).
Proof.
  intros H1 H2 ev s Hin. apply in_app_or in Hin as [Hin|Hin]; eauto.
Qed.

Lemma verdict_unrejected (t : Log) (ok : string -> Prop) :
  unrejected t -> verdict t ok.
Proof.
  intros H t1 ev t2 s -> Hr. exfalso. apply (H ev s); [|exact Hr].
  apply in_or_app. right. now left.
Qed.

Lemma verdict_last (t0 : Log) (ev0 : Event) (ok : string -> Prop) :
  unrejected t0 -> (forall s, rejecting ev0 s -> ok s) ->
  verdict (t0 ++ [ev0]) ok.
Proof.
  intros H0 Hok t1 ev t2 s E Hr. destruct t2 as [|y t2].
  - apply app_inj_tail in E as [_ <-]. split; [reflexivity|now apply Hok].
  - exfalso.
    destruct (exists_last (l := y :: t2)) as (t2' & z & E2); [discriminate|].
    rewrite E2 in E.
    change (t1 ++ ev :: t2' ++ [z]) with (t1 ++ (ev :: t2') ++ [z]) in E.
    rewrite app_assoc in E. apply app_inj_tail in E as [-> _].
    apply (H0 ev s); [|exact Hr]. apply in_or_app. right. now left.
Qed.

Lemma verdict_app (l1 l2 : Log) (ok : string -> Prop) :
  unrejected l1 -> verdict l2 ok -> verdict (l1 ++ l2) ok.
Proof.
  intros H1 H2 t1. revert l1 H1.
  induction t1 as [|x t1 IH]; intros l1 H1 ev t2 s E Hr.
  - destruct l1 as [|y l1].
    + simpl in E. now apply (H2 [] ev t2 s).
    + simpl in E. inversion E; subst. exfalso.
      apply (H1 ev s); [now left|exact Hr].
  - destruct l1 as [|y l1].
    + simpl in E. now apply (H2 (x :: t1) ev t2 s).
    + simpl in E. inversion E; subst.
      apply (IH l1) with (ev := ev) (s := s); [|assumption..].
      intros ev' s' Hin. apply H1. now right.
Qed.

Lemma not_rejecting_locate (k : bytes) (r : error + KeyLocation) (s : string) :
  ~ rejecting (EvLocateKey k r) s.
Proof. now simpl. Qed.

Lemma not_rejecting_backoff (typ : backoffType) (msg : string)
      (r : option error) (s : string) :
  ~ rejecting (EvBackoff typ msg r) s.
Proof. now simpl. Qed.

Lemma not_rejecting_new (s : string) : ~ rejecting EvNewBackoffer s.
Proof. now simpl. Qed.

Lemma not_rejecting_failed (req : Request) (region : RegionVerID)
      (timeout : Timeout) (err : error) (s : string) :
  ~ rejecting (EvSendReq req region timeout (inl err)) s.
Proof. now simpl. Qed.

Lemma not_rejecting_region_error (req : Request) (region : RegionVerID)
      (timeout : Timeout) (resp : Response) (s : string) :
  GetRegionError resp <> inr None ->
  ~ rejecting (EvSendReq req region timeout (inr resp)) s.
Proof. simpl. intros H (G & _). contradiction. Qed.

Create HintDb rej.

#[local] Hint Resolve unrejected_nil unrejected_cons unrejected_app
  not_rejecting_locate not_rejecting_backoff not_rejecting_new
  not_rejecting_failed : rej.

Lemma unrejected_attempt (k : bytes) (l : error + KeyLocation) (req : Request)
      (region : RegionVerID) (timeout : Timeout) (resp : Response)
      (tail : Log) :
  GetRegionError resp <> inr None -> unrejected tail ->
  unrejected (EvLocateKey k l :: EvSendReq req region timeout (inr resp)
                          :: tail).
Proof.
  intros G Ht. apply unrejected_cons; [auto with rej|].
  apply unrejected_cons; [|exact Ht].
  intros s. now apply not_rejecting_region_error.
Qed.

(** The loop of [sendReq], cut short by the fuel or not: only the served
    response can be a well-formed answer, and it is the last event. *)
Lemma sendReq_loop_unrejected (c : Cluster) (k : bytes) (req : Request)
      (fuel : nat) :
  forall (h h' : Log) (o : option (error + Response * KeyLocation)),
    sendReq_loop c fuel k req h = (o, h') ->
    exists t,
      h' = h ++ t
      /\ match o with
         | Some (inr (resp, loc)) =>
             exists t0,
               t = t0 ++ [EvSendReq req (Region loc) readTimeoutShort
                                    (inr resp)]
               /\ unrejected t0
         | _ => unrejected t
         end.
Proof.
  induction fuel as [|fuel IH]; intros h h' o.
  { intros H; inversion H; subst. exists [].
    split; [now rewrite app_nil_r|apply unrejected_nil]. }
  cbn [sendReq_loop]. step_loop.
  destruct (on_LocateKey c h k) as [err|loc].
  { intros H; inversion H; subst. eexists; split; [reflexivity|].
    auto with rej. }
  destruct (on_SendReq c _ req (Region loc) readTimeoutShort) as [err|resp].
  { intros H; inversion H; subst. rewrite app_snoc2.
    eexists; split; [reflexivity|]. auto with rej. }
  destruct (GetRegionError resp) as [err|[regionErr|]] eqn:G.
  - intros H; inversion H; subst. rewrite app_snoc2.
    eexists; split; [reflexivity|].
    apply unrejected_attempt; [congruence|apply unrejected_nil].
  - destruct (on_Backoff c _ BoRegionMiss regionErr) as [err|].
    + intros H; inversion H; subst. rewrite app_snoc3.
      eexists; split; [reflexivity|].
      apply unrejected_attempt; [congruence|auto with rej].
    + intros H. apply IH in H as (t & -> & Ht).
      rewrite app_snoc3, <- app_assoc.
      eexists; split; [reflexivity|].
      assert (unrejected
                [EvLocateKey k (inr loc);
                 EvSendReq req (Region loc) readTimeoutShort (inr resp);
                 EvBackoff BoRegionMiss regionErr None]) as H3
          by (apply unrejected_attempt; [congruence|auto with rej]).
      destruct o as [[err|[resp' loc']]|].
      * now apply (unrejected_app [_; _; _] t).
      * destruct Ht as (t0 & -> & H0).
        exists ([EvLocateKey k (inr loc);
                 EvSendReq req (Region loc) readTimeoutShort (inr resp);
                 EvBackoff BoRegionMiss regionErr None] ++ t0).
        split; [reflexivity|]. now apply unrejected_app.
      * now apply (unrejected_app [_; _; _] t).
  - intros H; inversion H; subst. rewrite app_snoc2.
    eexists; split; [reflexivity|].
    exists [EvLocateKey k (inr loc)]. split; [reflexivity|auto with rej].
Qed.

(** The same for a whole dispatcher call. *)
Lemma sendReq_unrejected (c : Cluster) (fuel : nat) (k : bytes)
      (req : Request) (h h' : Log)
      (o : option (error + Response * KeyLocation)) :
  sendReq c fuel k req h = (o, h') ->
  exists t,
    h' = h ++ t
    /\ match o with
       | Some (inr (resp, loc)) =>
           exists t0,
             t = t0 ++ [EvSendReq req (Region loc) readTimeoutShort (inr resp)]
             /\ unrejected t0
       | _ => unrejected t
       end.
Proof.
  unfold sendReq. step_loop. intros H.
  apply sendReq_loop_unrejected in H as (t & -> & Ht).
  exists (EvNewBackoffer :: t). split; [now rewrite <- app_assoc|].
  destruct o as [[err|[resp loc]]|].
  - auto with rej.
  - destruct Ht as (t0 & -> & H0). exists (EvNewBackoffer :: t0).
    split; [reflexivity|auto with rej].
  - auto with rej.
Qed.

(** The loop of [sendDeleteRangeReq]. *)
Lemma sendDeleteRangeReq_loop_unrejected (c : Cluster) (startKey endKey : bytes)
      (fuel : nat) :
  forall (h h' : Log) (o : option (error + Response * bytes)),
    sendDeleteRangeReq_loop c fuel startKey endKey h = (o, h') ->
    exists t,
      h' = h ++ t
      /\ match o with
         | Some (inr (resp, actualEnd)) =>
             exists t0 loc,
               t = t0 ++ [EvSendReq (RawDeleteRangeRequest startKey actualEnd)
                                    (Region loc) readTimeoutShort (inr resp)]
               /\ unrejected t0
         | _ => unrejected t
         end.
Proof.
  induction fuel as [|fuel IH]; intros h h' o.
  { intros H; inversion H; subst. exists [].
    split; [now rewrite app_nil_r|apply unrejected_nil]. }
  cbn [sendDeleteRangeReq_loop]. step_loop.
  destruct (on_LocateKey c h startKey) as [err|loc].
  { intros H; inversion H; subst. eexists; split; [reflexivity|].
    auto with rej. }
  destruct (on_SendReq c _ _ (Region loc) readTimeoutShort) as [err|resp].
  { intros H; inversion H; subst. rewrite app_snoc2.
    eexists; split; [reflexivity|]. auto with rej. }
  destruct (GetRegionError resp) as [err|[regionErr|]] eqn:G.
  - intros H; inversion H; subst. rewrite app_snoc2.
    eexists; split; [reflexivity|].
    apply unrejected_attempt; [congruence|apply unrejected_nil].
  - destruct (on_Backoff c _ BoRegionMiss regionErr) as [err|].
    + intros H; inversion H; subst. rewrite app_snoc3.
      eexists; split; [reflexivity|].
      apply unrejected_attempt; [congruence|auto with rej].
    + intros H. apply IH in H as (t & -> & Ht).
      rewrite app_snoc3, <- app_assoc.
      eexists; split; [reflexivity|].
      assert (unrejected
                [EvLocateKey startKey (inr loc);
                 EvSendReq (RawDeleteRangeRequest startKey
                                                  (actualEndKey loc endKey))
                           (Region loc) readTimeoutShort (inr resp);
                 EvBackoff BoRegionMiss regionErr None]) as H3
          by (apply unrejected_attempt; [congruence|auto with rej]).
      destruct o as [[err|[resp' actualEnd]]|].
      * now apply (unrejected_app [_; _; _] t).
      * destruct Ht as (t0 & loc' & -> & H0).
        exists ([EvLocateKey startKey (inr loc);
                 EvSendReq (RawDeleteRangeRequest startKey
                                                  (actualEndKey loc endKey))
                           (Region loc) readTimeoutShort (inr resp);
                 EvBackoff BoRegionMiss regionErr None] ++ t0), loc'.
        split; [reflexivity|]. now apply unrejected_app.
      * now apply (unrejected_app [_; _; _] t).
  - intros H; inversion H; subst. rewrite app_snoc2.
    eexists; split; [reflexivity|].
    exists [EvLocateKey startKey (inr loc)], loc.
    split; [reflexivity|auto with rej].
Qed.

Lemma sendDeleteRangeReq_unrejected (c : Cluster) (fuel : nat)
      (startKey endKey : bytes) (h h' : Log)
      (o : option (error + Response * bytes)) :
  sendDeleteRangeReq c fuel startKey endKey h = (o, h') ->
  exists t,
    h' = h ++ t
    /\ match o with
       | Some (inr (resp, actualEnd)) =>
           exists t0 loc,
             t = t0 ++ [EvSendReq (RawDeleteRangeRequest startKey actualEnd)
                                  (Region loc) readTimeoutShort (inr resp)]
             /\ unrejected t0
       | _ => unrejected t
       end.
Proof.
  unfold sendDeleteRangeReq. step_loop. intros H.
  apply sendDeleteRangeReq_loop_unrejected in H as (t & -> & Ht).
  exists (EvNewBackoffer :: t). split; [now rewrite <- app_assoc|].
  destruct o as [[err|[resp actualEnd]]|].
  - auto with rej.
  - destruct Ht as (t0 & loc & -> & H0). exists (EvNewBackoffer :: t0), loc.
    split; [reflexivity|auto with rej].
  - auto with rej.
Qed.

Lemma eqb_empty_false (s : string) : s <> ""%string -> (s =? "")%string = false.
Proof. intros H. now apply String.eqb_neq. Qed.

Ltac inv_ret H := unfold ret in H; inversion H; subst; clear H.

Lemma Get_verdict (c : Cluster) (fuel : nat) (k : bytes) (h h' : Log)
      (o : option (option bytes * option error)) :
  Get c fuel k h = (o, h') ->
  exists t, h' = h ++ t
            /\ verdict t (fun s => o = Some (None, Some (errors_New s))).
Proof.
  unfold Get, bind at 1.
  destruct (sendReq c fuel k (RawGetRequest k) h) as [d h1] eqn:D.
  apply sendReq_unrejected in D as (t & -> & Ht).
  destruct d as [[err|[resp loc]]|].
  - intros H; inv_ret H. exists t. split; [reflexivity|].
    now apply verdict_unrejected.
  - destruct Ht as (t0 & -> & H0). intros H.
    assert (h' = h ++ t0 ++ [EvSendReq (RawGetRequest k) (Region loc)
                                       readTimeoutShort (inr resp)]) as ->.
    { destruct (RawGet resp) as [cmdResp|]; [|now inv_ret H].
      destruct (negb _); [now inv_ret H|].
      destruct (len _ =? 0); now inv_ret H. }
    eexists; split; [reflexivity|]. apply verdict_last; [exact H0|].
    intros s (_ & E & Hs). simpl in E.
    destruct (RawGet resp) as [cmdResp|]; [|discriminate].
    simpl in E. inversion E as [E']. rewrite E' in H.
    rewrite (eqb_empty_false s Hs) in H. simpl in H. now inv_ret H.
  - intros H; inversion H; subst. exists t. split; [reflexivity|].
    now apply verdict_unrejected.
Qed.

Lemma Put_verdict (c : Cluster) (fuel : nat) (k value : bytes) (h h' : Log)
      (o : option (option error)) :
  Put c fuel k value h = (o, h') ->
  exists t, h' = h ++ t
            /\ verdict t (fun s => o = Some (Some (errors_New s))).
Proof.
  unfold Put. destruct (len value =? 0).
  { intros H; inv_ret H. exists []. split; [now rewrite app_nil_r|].
    apply verdict_unrejected, unrejected_nil. }
  unfold bind at 1.
  destruct (sendReq c fuel k (RawPutRequest k value) h) as [d h1] eqn:D.
  apply sendReq_unrejected in D as (t & -> & Ht).
  destruct d as [[err|[resp loc]]|].
  - intros H; inv_ret H. exists t. split; [reflexivity|].
    now apply verdict_unrejected.
  - destruct Ht as (t0 & -> & H0). intros H.
    assert (h' = h ++ t0 ++ [EvSendReq (RawPutRequest k value) (Region loc)
                                       readTimeoutShort (inr resp)]) as ->.
    { destruct (RawPut resp) as [cmdResp|]; [|now inv_ret H].
      destruct (negb _); now inv_ret H. }
    eexists; split; [reflexivity|]. apply verdict_last; [exact H0|].
    intros s (_ & E & Hs). simpl in E.
    destruct (RawPut resp) as [cmdResp|]; [|discriminate].
    simpl in E. inversion E as [E']. rewrite E' in H.
    rewrite (eqb_empty_false s Hs) in H. simpl in H. now inv_ret H.
  - intros H; inversion H; subst. exists t. split; [reflexivity|].
    now apply verdict_unrejected.
Qed.

Lemma Delete_verdict (c : Cluster) (fuel : nat) (k : bytes) (h h' : Log)
      (o : option (option error)) :
  Delete c fuel k h = (o, h') ->
  exists t, h' = h ++ t
            /\ verdict t (fun s => o = Some (Some (errors_New s))).
Proof.
  unfold Delete, bind at 1.
  destruct (sendReq c fuel k (RawDeleteRequest k) h) as [d h1] eqn:D.
  apply sendReq_unrejected in D as (t & -> & Ht).
  destruct d as [[err|[resp loc]]|].
  - intros H; inv_ret H. exists t. split; [reflexivity|].
    now apply verdict_unrejected.
  - destruct Ht as (t0 & -> & H0). intros H.
    assert (h' = h ++ t0 ++ [EvSendReq (RawDeleteRequest k) (Region loc)
                                       readTimeoutShort (inr resp)]) as ->.
    { destruct (RawDelete resp) as [cmdResp|]; [|now inv_ret H].
      destruct (negb _); now inv_ret H. }
    eexists; split; [reflexivity|]. apply verdict_last; [exact H0|].
    intros s (_ & E & Hs). simpl in E.
    destruct (RawDelete resp) as [cmdResp|]; [|discriminate].
    simpl in E. inversion E as [E']. rewrite E' in H.
    rewrite (eqb_empty_false s Hs) in H. simpl in H. now inv_ret H.
  - intros H; inversion H; subst. exists t. split; [reflexivity|].
    now apply verdict_unrejected.
Qed.

Lemma DeleteRange_verdict (c : Cluster) (endKey : bytes) (fuel : nat) :
  forall (startKey : bytes) (h h' : Log) (o : option (option error)),
    DeleteRange c fuel startKey endKey h = (o, h') ->
    exists t, h' = h ++ t
              /\ verdict t (fun s => o = Some (Some (errors_New s))).
Proof.
  assert (forall (h : Log) (o : option (option error)),
             exists t : Log,
               h = h ++ t
               /\ verdict t (fun s => o = Some (Some (errors_New s))))
    as Hstop.
  { intros h o. exists []. split; [now rewrite app_nil_r|].
    apply verdict_unrejected, unrejected_nil. }
  induction fuel as [|fuel IH]; intros startKey h h' o;
    cbn [DeleteRange]; destruct (Equal startKey endKey);
    try (intros H; inv_ret H; now apply Hstop).
  unfold bind at 1.
  destruct (sendDeleteRangeReq c (S fuel) startKey endKey h)
    as [d h1] eqn:D.
  apply sendDeleteRangeReq_unrejected in D as (t & -> & Ht).
  destruct d as [[err|[resp actualEnd]]|].
  { intros H; inv_ret H. exists t. split; [reflexivity|].
    now apply verdict_unrejected. }
  2:{ intros H; inversion H; subst. exists t. split; [reflexivity|].
      now apply verdict_unrejected. }
  destruct Ht as (t0 & loc & -> & H0).
  destruct (RawDeleteRange resp) as [cmdResp|] eqn:B.
  2:{ intros H; inv_ret H. eexists; split; [reflexivity|].
      apply verdict_last; [exact H0|].
      intros s (_ & E & _). simpl in E. now rewrite B in E. }
  destruct (RawDeleteRange_Error cmdResp =? "")%string eqn:E0; simpl negb.
  - intros H. apply IH in H as (t' & -> & Ht').
    rewrite <- app_assoc. eexists; split; [reflexivity|].
    apply verdict_app; [|exact Ht'].
    apply unrejected_app; [exact H0|].
    apply unrejected_cons; [|apply unrejected_nil].
    intros s (_ & E & Hs). simpl in E. rewrite B in E. simpl in E.
    apply String.eqb_eq in E0. congruence.
  - intros H; inv_ret H. eexists; split; [reflexivity|].
    apply verdict_last; [exact H0|].
    intros s (_ & E & _). simpl in E. rewrite B in E. simpl in E. congruence.
Qed.

Lemma Execute_loop_verdict (c : Cluster) (rangeEndKey : bytes) (fuel : nat) :
  forall (t : DeleteRangeTask) (startKey : bytes) (h h' : Log)
         (o : option (DeleteRangeTask * option error)),
    Execute_loop c fuel t startKey rangeEndKey h = (o, h') ->
    exists tr,
      h' = h ++ tr
      /\ verdict tr
           (fun s => option_map snd o
                     = Some (Some (Errorf_unexpected_delete_range s))).
Proof.
  induction fuel as [|fuel IH]; intros t startKey h h' o.
  { intros H; inversion H; subst. exists []. split; [now rewrite app_nil_r|].
    apply verdict_unrejected, unrejected_nil. }
  cbn [Execute_loop]. step_loop.
  destruct (on_Done c h).
  { intros H; inv_ret H. exists []. split; [now rewrite app_nil_r|].
    apply verdict_unrejected, unrejected_nil. }
  destruct (on_LocateKey c h startKey) as [err|loc].
  { intros H; inv_ret H. eexists; split; [reflexivity|].
    apply verdict_unrejected. auto with rej. }
  set (req := DeleteRangeRequest startKey (taskEndKey loc rangeEndKey)).
  destruct (on_SendReq c _ req (Region loc) ReadTimeoutMedium)
    as [err|resp].
  { intros H; inv_ret H. rewrite app_snoc2. eexists; split; [reflexivity|].
    apply verdict_unrejected. auto with rej. }
  destruct (GetRegionError resp) as [err|[regionErr|]] eqn:G.
  - intros H; inv_ret H. rewrite app_snoc2. eexists; split; [reflexivity|].
    apply verdict_unrejected, unrejected_attempt;
      [congruence|apply unrejected_nil].
  - assert (forall e, unrejected
              [EvLocateKey startKey (inr loc);
               EvSendReq req (Region loc) ReadTimeoutMedium (inr resp);
               EvBackoff BoRegionMiss regionErr e]) as H3
        by (intros e; apply unrejected_attempt; [congruence|auto with rej]).
    destruct (on_Backoff c _ BoRegionMiss regionErr) as [err|].
    + intros H; inv_ret H. rewrite app_snoc3. eexists; split; [reflexivity|].
      apply verdict_unrejected, H3.
    + intros H. apply IH in H as (tr & -> & Htr).
      rewrite app_snoc3, <- app_assoc. eexists; split; [reflexivity|].
      apply (verdict_app [_; _; _] tr); [apply H3|exact Htr].
  - destruct (DeleteRange_ resp) as [deleteRangeResp|] eqn:B.
    2:{ intros H; inv_ret H. rewrite app_snoc2.
        eexists; split; [reflexivity|].
        apply (verdict_last [_]); [auto with rej|].
        intros s (_ & E & _). unfold req in E. simpl in E.
        now rewrite B in E. }
    destruct (DeleteRange_Error deleteRangeResp =? "")%string eqn:E0;
      simpl negb; cbn iota.
    + assert (unrejected
                [EvLocateKey startKey (inr loc);
                 EvSendReq req (Region loc) ReadTimeoutMedium (inr resp)])
        as Hq.
      { apply unrejected_cons; [auto with rej|].
        apply unrejected_cons; [|auto with rej].
        intros s (_ & E & Hs). unfold req in E. simpl in E.
        rewrite B in E. simpl in E. apply String.eqb_eq in E0. congruence. }
      destruct (Equal (taskEndKey loc rangeEndKey) rangeEndKey).
      * intros H; inv_ret H. rewrite app_snoc2.
        eexists; split; [reflexivity|]. now apply verdict_unrejected.
      * intros H. apply IH in H as (tr & -> & Htr).
        rewrite app_snoc2, <- app_assoc. eexists; split; [reflexivity|].
        now apply (verdict_app [_; _] tr).
    + intros H; inv_ret H. rewrite app_snoc2.
      eexists; split; [reflexivity|].
      apply (verdict_last [_]); [auto with rej|].
      intros s (_ & E & _). unfold req in E. simpl in E.
      rewrite B in E. simpl in E. simpl. congruence.
Qed.

Lemma Execute_verdict (c : Cluster) (fuel : nat) (t : DeleteRangeTask)
      (h h' : Log) (o : option (option error)) :
  Execute c fuel t h = (o, h') ->
  exists tr,
    h' = h ++ tr
    /\ verdict tr
         (fun s => o = Some (Some (Errorf_unexpected_delete_range s))).
Proof.
  unfold Execute, bind.
  destruct (Execute_loop c fuel t (startKey t) (endKey t) h)
    as [[r0|] h0] eqn:E; intros H; inv_ret H;
    now apply Execute_loop_verdict in E.
Qed.

Lemma verdict_at (h t : Log) (ok : string -> Prop) (t1 : Log) (ev : Event)
      (t2 : Log) (s : string) :
  verdict t ok -> h ++ t = h ++ t1 ++ ev :: t2 -> rejecting ev s ->
  t2 = [] /\ ok s.
Proof. intros Hv E Hr. apply app_inv_head in E. now apply (Hv t1 ev t2 s). Qed.

(** C5, as the code has it.  Take any run of [Get], [Put], [Delete],
    [DeleteRange] or of the task's [Execute], cut short by the fuel or
    not.  If its log holds a request answered by a well-formed response
    with a non-empty error text, that answer is the last event of the log
    (nothing is located, sent or signalled after it) and the run has
    returned an error.  For the four client operations the error is
    [errors.New] of that text; for the task it is that text after the
    prefix "unexpected delete range err: ". *)
Theorem application_error_is_final (c : Cluster) (fuel : nat) (h h' t1 : Log)
        (ev : Event) (t2 : Log) (s : string) :
  h' = h ++ t1 ++ ev :: t2 ->
  rejecting ev s ->
  (forall k o, Get c fuel k h = (o, h') ->
               t2 = [] /\ o = Some (None, Some (errors_New s)))
  /\ (forall k value o, Put c fuel k value h = (o, h') ->
                        t2 = [] /\ o = Some (Some (errors_New s)))
  /\ (forall k o, Delete c fuel k h = (o, h') ->
                  t2 = [] /\ o = Some (Some (errors_New s)))
  /\ (forall startKey endKey o,
         DeleteRange c fuel startKey endKey h = (o, h') ->
         t2 = [] /\ o = Some (Some (errors_New s)))
  /\ (forall t o,
         Execute c fuel t h = (o, h') ->
         t2 = []
         /\ o = Some (Some (errors_New
                              ("unexpected delete range err: " ++ s)%string))).
Proof.
  intros E Hr. repeat split.
  1,2: apply Get_verdict in H as (t & E' & Hv); rewrite E in E';
       symmetry in E'; now destruct (verdict_at _ _ _ _ _ _ _ Hv E' Hr).
  1,2: apply Put_verdict in H as (t & E' & Hv); rewrite E in E';
       symmetry in E'; now destruct (verdict_at _ _ _ _ _ _ _ Hv E' Hr).
  1,2: apply Delete_verdict in H as (t & E' & Hv); rewrite E in E';
       symmetry in E'; now destruct (verdict_at _ _ _ _ _ _ _ Hv E' Hr).
  1,2: apply DeleteRange_verdict in H as (t & E' & Hv); rewrite E in E';
       symmetry in E'; now destruct (verdict_at _ _ _ _ _ _ _ Hv E' Hr).
  1,2: apply Execute_verdict in H as (t' & E' & Hv); rewrite E in E';
       symmetry in E'; now destruct (verdict_at _ _ _ _ _ _ _ Hv E' Hr).
Qed.

Lemma application_error_is_final_witness :
  let c := sim threeRegions someData "boom" 0 0 None in
  let a := mkLoc 1 (key "") (key "b") in
  let get := RawGetRequest (key "a") in
  let del := DeleteRangeRequest (key "a") (key "b") in
  let ev := EvSendReq get 1 readTimeoutShort
                      (inr (serve threeRegions someData "boom" get 1)) in
  let ev' := EvSendReq del 1 ReadTimeoutMedium
                       (inr (serve threeRegions someData "boom" del 1)) in
  let t1 := [EvNewBackoffer; EvLocateKey (key "a") (inr a)] in
  let t1' := [EvLocateKey (key "a") (inr a)] in
  let task := NewDeleteRangeTask (key "a") (key "d") in
  (rejecting ev "boom"
   /\ snd (Get c 1 (key "a") []) = [] ++ t1 ++ [ev]
   /\ (@nil Event = []
       /\ fst (Get c 1 (key "a") [])
          = Some (None, Some (errors_New "boom"))))
  /\ (rejecting ev' "boom"
      /\ snd (Execute c 1 task []) = [] ++ t1' ++ [ev']
      /\ (@nil Event = []
          /\ fst (Execute c 1 task [])
             = Some (Some (errors_New
                             ("unexpected delete range err: " ++ "boom"))))).
Proof.
  intros c a get del ev ev' t1 t1' task.
  assert (rejecting ev "boom") as Hr.
  { repeat split. discriminate. }
  assert (rejecting ev' "boom") as Hr'.
  { repeat split. discriminate. }
  split; (split; [assumption|]); (split; [reflexivity|]).
  - apply (proj1 (application_error_is_final
                    c 1 [] ([] ++ t1 ++ [ev]) t1 ev [] "boom" eq_refl Hr)
                 (key "a")).
    reflexivity.
  - apply (proj2 (proj2 (proj2 (proj2
             (application_error_is_final
                c 1 [] ([] ++ t1' ++ [ev']) t1' ev' [] "boom" eq_refl Hr'))))
             task).
    reflexivity.
Defined.

(** For the task the error text is not the text of the response. *)
Lemma Execute_error_not_verbatim :
  let c := sim threeRegions someData "boom" 0 0 None in
  let task := NewDeleteRangeTask (key "a") (key "d") in
  exists (h0 : Log) (ev : Event) (e : error),
    Execute c 1 task [] = (Some (Some e), h0 ++ [ev])
    /\ rejecting ev "boom"
    /\ Error e = Some "unexpected delete range err: boom"%string
    /\ Error e <> Some "boom"%string.
Proof.
  exists [EvLocateKey (key "a") (inr (mkLoc 1 (key "") (key "b")))].
  eexists. eexists. split; [reflexivity|].
  repeat split; discriminate.
Qed.

(* ================================================================== *)
(** ** Order of keys *)

Lemma Compare_lt_true (a b : bytes) : (Compare a b <? 0) = true <-> klt a b.
Proof. apply Compare_lt. Qed.

Lemma Compare_le_true (a b : bytes) : (Compare a b <=? 0) = true <-> kle a b.
Proof. apply Compare_le. Qed.

Lemma Compare_lt_false (a b : bytes) : (Compare a b <? 0) = false <-> kle b a.
Proof.
  unfold kle, Compare. rewrite (lex_antisym a b).
  destruct (lex a b); cbn; split; congruence.
Qed.

Lemma Compare_le_false (a b : bytes) : (Compare a b <=? 0) = false <-> klt b a.
Proof.
  unfold klt, Compare. rewrite (lex_antisym a b).
  destruct (lex a b); cbn; split; congruence.
Qed.

Lemma kle_refl (a : bytes) : kle a a.
Proof. unfold kle. now rewrite lex_refl. Qed.

Lemma klt_kle (a b : bytes) : klt a b -> kle a b.
Proof. unfold klt, kle. congruence. Qed.

Lemma klt_not_kle (a b : bytes) : klt a b -> kle b a -> False.
Proof.
  unfold klt, kle. rewrite (lex_antisym a b). intros ->. simpl. congruence.
Qed.

Lemma kle_cases (a b : bytes) : kle a b -> a = b \/ klt a b.
Proof.
  unfold kle, klt. destruct (lex a b) eqn:E; try congruence; auto.
  left. now apply lex_eq.
Qed.

Lemma kle_klt_trans (a b d : bytes) : kle a b -> klt b d -> klt a d.
Proof.
  intros [->|H]%kle_cases H2; [exact H2|]. eapply lex_lt_trans; eauto.
Qed.

Lemma klt_kle_trans (a b d : bytes) : klt a b -> kle b d -> klt a d.
Proof.
  intros H [<-|H2]%kle_cases; [exact H|]. eapply lex_lt_trans; eauto.
Qed.

Lemma kle_trans (a b d : bytes) : kle a b -> kle b d -> kle a d.
Proof.
  intros H [<-|H2]%kle_cases; [exact H|].
  apply klt_kle. eapply kle_klt_trans; eauto.
Qed.

Lemma kle_antisym (a b : bytes) : kle a b -> kle b a -> a = b.
Proof.
  intros [->|H]%kle_cases H2; [reflexivity|].
  exfalso. eapply klt_not_kle; eauto.
Qed.

Lemma klt_or_kle (a b : bytes) : klt a b \/ kle b a.
Proof.
  destruct (Compare a b <? 0) eqn:E.
  - left. now apply Compare_lt_true.
  - right. now apply Compare_lt_false.
Qed.

Lemma klt_neq (a b : bytes) : klt a b -> a <> b.
Proof. intros H ->. unfold klt in H. now rewrite lex_refl in H. Qed.

Lemma klt_nonempty (a b : bytes) : klt a b -> b <> [].
Proof. intros H ->. now apply (lex_nil_r a). Qed.

Lemma kle_nil (a : bytes) : kle [] a.
Proof. unfold kle. destruct a; simpl; congruence. Qed.

Lemma Equal_false (a b : bytes) : a <> b -> Equal a b = false.
Proof.
  intros H. destruct (Equal a b) eqn:E; [|reflexivity].
  now apply Equal_eq in E.
Qed.

Lemma maxKey_l (a b : bytes) : kle b a -> maxKey a b = a.
Proof.
  intros H. unfold maxKey. apply Compare_lt_false in H. now rewrite H.
Qed.

Lemma maxKey_r (a b : bytes) : kle a b -> maxKey a b = b.
Proof.
  intros H. unfold maxKey. destruct (Compare a b <? 0) eqn:E; [reflexivity|].
  apply Compare_lt_false in E. now apply kle_antisym.
Qed.

Lemma maxKey_ge_l (a b : bytes) : kle a (maxKey a b).
Proof.
  unfold maxKey. destruct (Compare a b <? 0) eqn:E.
  - apply klt_kle. now apply Compare_lt_true.
  - apply kle_refl.
Qed.

Lemma maxKey_ge_r (a b : bytes) : kle b (maxKey a b).
Proof.
  unfold maxKey. destruct (Compare a b <? 0) eqn:E.
  - apply kle_refl.
  - now apply Compare_lt_false.
Qed.

Lemma clampRule_le (e x : bytes) : kle (clampRule e x) e.
Proof.
  unfold clampRule, minKey. destruct x as [|y x]; [apply kle_refl|].
  destruct (Compare e (y :: x) <=? 0) eqn:E; [apply kle_refl|].
  apply klt_kle. now apply Compare_le_false.
Qed.

Lemma clampRule_le_end (e x : bytes) : x <> [] -> kle (clampRule e x) x.
Proof.
  unfold clampRule, minKey. destruct x as [|y x]; [congruence|]. intros _.
  destruct (Compare e (y :: x) <=? 0) eqn:E; [|apply kle_refl].
  now apply Compare_le_true.
Qed.

Lemma clampRule_shard (e x : bytes) : x <> [] -> klt x e -> clampRule e x = x.
Proof.
  unfold clampRule, minKey. destruct x as [|y x]; [congruence|]. intros _ H.
  apply Compare_le_false in H. now rewrite H.
Qed.

Lemma clampRule_range (e x : bytes) : x = [] \/ kle e x -> clampRule e x = e.
Proof.
  unfold clampRule, minKey. destruct x as [|y x]; [reflexivity|].
  intros [H|H]; [discriminate|]. apply Compare_le_true in H. now rewrite H.
Qed.

(* ================================================================== *)
(** ** Layouts *)

Lemma tilesb_cons (from : bytes) (l : KeyLocation) (rest : list KeyLocation) :
  tilesb from (l :: rest) = true ->
  StartKey l = from
  /\ match rest with
     | [] => EndKey l = []
     | _ :: _ => klt from (EndKey l) /\ tilesb (EndKey l) rest = true
     end.
Proof.
  cbn [tilesb]. intros [H1 H2]%andb_true_iff. apply Equal_eq in H1.
  split; [exact H1|]. destruct rest as [|l' rest].
  - now apply len_zero.
  - apply andb_true_iff in H2 as [H2 H3]. now apply Compare_lt_true in H2.
Qed.

Lemma tilesb_starts (rest : list KeyLocation) :
  forall x, tilesb x rest = true ->
            forall p, In p rest -> kle x (StartKey p).
Proof.
  induction rest as [|l rest IH]; intros x H p Hin; [destruct Hin|].
  apply tilesb_cons in H as [Hs H]. destruct Hin as [<-|Hin].
  - rewrite Hs. apply kle_refl.
  - destruct rest as [|l' rest]; [destruct Hin|]. destruct H as [Hlt H].
    eapply kle_trans; [apply klt_kle, Hlt|]. now apply (IH (EndKey l)).
Qed.

Lemma Contains_iff (l : KeyLocation) (k : bytes) :
  Contains l k = true
  <-> kle (StartKey l) k /\ (klt k (EndKey l) \/ EndKey l = []).
Proof.
  unfold Contains.
  rewrite andb_true_iff, orb_true_iff, Compare_le_true, Compare_lt_true,
    len_zero.
  reflexivity.
Qed.

Lemma ends_before_not_Contains (p : KeyLocation) (k : bytes) :
  EndKey p <> [] -> kle (EndKey p) k -> Contains p k = false.
Proof.
  intros Hn Hle. destruct (Contains p k) eqn:E; [|reflexivity].
  apply Contains_iff in E as [_ [H|H]]; [|contradiction].
  exfalso. eapply klt_not_kle; eauto.
Qed.

Lemma locateIn_at (pre : list KeyLocation) (l : KeyLocation)
      (rest : list KeyLocation) (k : bytes) :
  ends_before pre k -> Contains l k = true ->
  locateIn (pre ++ l :: rest) k = inr l.
Proof.
  unfold locateIn. induction pre as [|p pre IH]; intros Hb Hc; simpl.
  - now rewrite Hc.
  - destruct (Hb p (or_introl eq_refl)) as [Hn Hle].
    rewrite (ends_before_not_Contains p k Hn Hle).
    apply IH; [|exact Hc]. intros q Hq. apply Hb. now right.
Qed.

Lemma ends_before_snoc (pre : list KeyLocation) (l : KeyLocation)
      (k k' : bytes) :
  ends_before pre k -> kle k k' -> EndKey l <> [] -> kle (EndKey l) k' ->
  ends_before (pre ++ [l]) k'.
Proof.
  intros Hb Hk Hn Hl p Hin. apply in_app_or in Hin as [Hin|[<-|[]]].
  - destruct (Hb p Hin) as [H1 H2]. split; [exact H1|].
    eapply kle_trans; eauto.
  - now split.
Qed.

(** In a tiling every key from its start on has its location, after
    locations that end before the key. *)
Lemma tiling_locate (layout : list KeyLocation) :
  forall (from k : bytes),
    tilesb from layout = true -> kle from k ->
    exists pre l rest,
      layout = pre ++ l :: rest
      /\ ends_before pre k
      /\ Contains l k = true
      /\ tilesb (StartKey l) (l :: rest) = true.
Proof.
  induction layout as [|l rest IH]; intros from k Ht Hk; [discriminate|].
  pose proof (tilesb_cons _ _ _ Ht) as [Hs H].
  assert (ends_before [] k) as Hnil by (intros p []).
  destruct rest as [|l' rest].
  - exists [], l, []. split; [reflexivity|]. split; [exact Hnil|].
    split; [|now rewrite Hs]. apply Contains_iff. rewrite Hs. auto.
  - destruct H as [Hlt H]. destruct (klt_or_kle k (EndKey l)) as [Hin|Hout].
    + exists [], l, (l' :: rest). split; [reflexivity|]. split; [exact Hnil|].
      split; [|now rewrite Hs]. apply Contains_iff. rewrite Hs. auto.
    + destruct (IH (EndKey l) k H Hout)
        as (pre & l0 & rest0 & E & Hb & Hc & Ht0).
      exists (l :: pre), l0, rest0. rewrite E.
      split; [reflexivity|]. split; [|now split].
      intros p [<-|Hp]; [|now apply Hb].
      split; [|exact Hout]. eapply klt_nonempty; eauto.
Qed.

Lemma filter_none {A : Type} (f : A -> bool) (l : list A) :
  (forall x, In x l -> f x = false) -> filter f l = [].
Proof.
  induction l as [|x l IH]; intros H; [reflexivity|]. simpl.
  rewrite (H x (or_introl eq_refl)). apply IH. intros y Hy. apply H. now right.
Qed.

(** A range that ends at or before a key meets no location from there. *)
Lemma intersects_above (s e : bytes) (p : KeyLocation) :
  kle e (maxKey s (StartKey p)) -> intersects s e p = false.
Proof.
  intros H. unfold intersects. apply Compare_lt_false.
  eapply kle_trans; [apply clampRule_le|exact H].
Qed.

(** A location that ends at or before the start of the range does not
    meet it. *)
Lemma intersects_below (s e : bytes) (p : KeyLocation) :
  EndKey p <> [] -> kle (EndKey p) s -> intersects s e p = false.
Proof.
  intros Hn H. unfold intersects. apply Compare_lt_false.
  eapply kle_trans; [apply clampRule_le_end, Hn|].
  eapply kle_trans; [exact H|apply maxKey_ge_l].
Qed.

Lemma map_filter_ext {A B : Type} (f g : A -> bool) (F G : A -> B)
      (l : list A) :
  (forall x, In x l -> f x = g x /\ F x = G x) ->
  map F (filter f l) = map G (filter g l).
Proof.
  induction l as [|x l IH]; intros H; [reflexivity|]. simpl.
  destruct (H x (or_introl eq_refl)) as [<- HF].
  assert (map F (filter f l) = map G (filter g l)) as E.
  { apply IH. intros y Hy. apply H. now right. }
  destruct (f x); simpl; congruence.
Qed.

Lemma filter_before (s e : bytes) (pre : list KeyLocation) :
  ends_before pre s -> filter (intersects s e) pre = [].
Proof.
  intros Hb. apply filter_none. intros p Hp. destruct (Hb p Hp).
  now apply intersects_below.
Qed.

(** The last location of a walk: the range ends in it. *)
Lemma coverage_last (s e : bytes) (pre : list KeyLocation) (l : KeyLocation)
      (rest : list KeyLocation) :
  ends_before pre s -> kle (StartKey l) s -> klt s e ->
  clampRule e (EndKey l) = e ->
  (forall p, In p rest -> kle e (StartKey p)) ->
  map (subRequest s e) (filter (intersects s e) (pre ++ l :: rest))
  = [(RawDeleteRangeRequest s e, Region l)].
Proof.
  intros Hb Hs Hlt Hc Hrest.
  rewrite filter_app, (filter_before s e pre Hb). simpl.
  unfold intersects at 1. rewrite (maxKey_l _ _ Hs), Hc.
  apply Compare_lt_true in Hlt. rewrite Hlt. simpl.
  unfold subRequest at 1. rewrite (maxKey_l _ _ Hs), Hc.
  rewrite filter_none; [reflexivity|].
  intros p Hp. apply intersects_above.
  eapply kle_trans; [apply (Hrest p Hp)|apply maxKey_ge_r].
Qed.

(** A location of a walk that ends inside the range: the rest of the
    range, from the location's end, is covered by the same requests. *)
Lemma coverage_step (s e : bytes) (pre : list KeyLocation) (l : KeyLocation)
      (rest : list KeyLocation) :
  ends_before pre s -> kle (StartKey l) s -> klt s (EndKey l) ->
  klt (EndKey l) e ->
  (forall p, In p rest -> kle (EndKey l) (StartKey p)) ->
  map (subRequest s e) (filter (intersects s e) (pre ++ l :: rest))
  = (RawDeleteRangeRequest s (EndKey l), Region l)
      :: map (subRequest (EndKey l) e)
             (filter (intersects (EndKey l) e) (pre ++ l :: rest)).
Proof.
  intros Hb Hs Hin Hlt Hrest.
  pose proof (klt_nonempty _ _ Hin) as Hn.
  rewrite !filter_app, (filter_before s e pre Hb).
  rewrite (filter_before (EndKey l) e pre).
  2:{ intros p Hp. destruct (Hb p Hp) as [H1 H2]. split; [exact H1|].
      eapply kle_trans; [exact H2|now apply klt_kle]. }
  simpl.
  unfold intersects at 1.
  rewrite (maxKey_l _ _ Hs), (clampRule_shard _ _ Hn Hlt).
  pose proof Hin as Hin'. apply Compare_lt_true in Hin'. rewrite Hin'.
  rewrite (intersects_below (EndKey l) e l Hn (kle_refl _)).
  simpl. unfold subRequest at 1.
  rewrite (maxKey_l _ _ Hs), (clampRule_shard _ _ Hn Hlt).
  f_equal. apply map_filter_ext. intros p Hp.
  pose proof (Hrest p Hp) as Hx.
  assert (kle s (StartKey p)) as Hsp.
  { eapply kle_trans; [apply klt_kle, Hin|exact Hx]. }
  unfold intersects, subRequest.
  now rewrite (maxKey_r _ _ Hsp), (maxKey_r _ _ Hx).
Qed.

Lemma DeleteRange_done (c : Cluster) (fuel : nat) (e : bytes) (h : Log) :
  DeleteRange c fuel e e h = (Some None, h).
Proof.
  assert (Equal e e = true) as E by now apply Equal_eq.
  destruct fuel; cbn [DeleteRange]; now rewrite E.
Qed.

Section Coverage.

Variable c : Cluster.
Variable layout : list KeyLocation.
Hypothesis Hloc : locates c layout.
Hypothesis Hdel : deletes c.

(** On such a cluster one call of [sendDeleteRangeReq] is one locate and
    one request, clamped to the location found. *)
Lemma sendDeleteRangeReq_clean (fuel : nat) (s e : bytes) (h : Log)
      (l : KeyLocation) :
  locateIn layout s = inr l ->
  exists resp cmdResp,
    sendDeleteRangeReq c (S fuel) s e h
    = (Some (inr (resp, actualEndKey l e)), h ++ [EvNewBackoffer;
                  EvLocateKey s (inr l);
                  EvSendReq (RawDeleteRangeRequest s (actualEndKey l e))
                            (Region l) readTimeoutShort (inr resp)])
    /\ RawDeleteRange resp = Some cmdResp
    /\ RawDeleteRange_Error cmdResp = ""%string.
Proof.
  intros E. unfold sendDeleteRangeReq. cbn [sendDeleteRangeReq_loop].
  step_loop. rewrite Hloc, E.
  destruct (Hdel ((h ++ [EvNewBackoffer]) ++ [EvLocateKey s (inr l)])
                 s (actualEndKey l e) (Region l) readTimeoutShort)
    as (resp & cmdResp & Es & G & B & Er).
  rewrite Es, G. exists resp, cmdResp. rewrite app_snoc3. auto.
Qed.

(** The walk of [DeleteRange] from a key inside location [l], over [l]
    and the locations after it. *)
Lemma DeleteRange_walk (e : bytes) (rest : list KeyLocation) :
  forall (pre : list KeyLocation) (l : KeyLocation) (s : bytes) (h : Log)
         (fuel : nat),
    layout = pre ++ l :: rest ->
    ends_before pre s ->
    Contains l s = true ->
    tilesb (StartKey l) (l :: rest) = true ->
    klt s e ->
    (List.length rest < fuel)%nat ->
    exists t,
      DeleteRange c fuel s e h = (Some None, h ++ t)
      /\ requests t = map (subRequest s e) (filter (intersects s e) layout)
      /\ chained s e (map fst (requests t)).
Proof.
  induction rest as [|l' rest IH]; intros pre l s h fuel EL Hb Hc Ht Hlt Hf;
    (destruct fuel as [|fuel]; [simpl in Hf; lia|]);
    cbn [DeleteRange]; rewrite (Equal_false _ _ (klt_neq _ _ Hlt));
    unfold bind at 1;
    destruct (sendDeleteRangeReq_clean fuel s e h l)
      as (resp & cmdResp & E & B & Er);
    try (rewrite EL; now apply locateIn_at);
    rewrite E, B, Er; cbn [negb String.eqb]; cbn iota;
    rewrite actualEndKey_clampRule;
    apply Contains_iff in Hc as [Hs Hin];
    apply tilesb_cons in Ht as [_ Ht].
  - (* the last location of the layout *)
    rewrite Ht. cbn [clampRule]. rewrite DeleteRange_done.
    eexists; split; [reflexivity|]. cbn [requests map fst].
    rewrite EL, coverage_last; auto.
    + repeat split; auto.
    + now rewrite Ht.
    + intros p [].
  - destruct Ht as [Hne Ht]. pose proof (klt_nonempty _ _ Hne) as Hn.
    destruct Hin as [Hin|Hin]; [|contradiction].
    destruct (klt_or_kle (EndKey l) e) as [Hmore|Hlast].
    + (* the range goes on after this location *)
      rewrite (clampRule_shard _ _ Hn Hmore).
      pose proof (tilesb_cons _ _ _ Ht) as [Hs' Ht'].
      destruct (IH (pre ++ [l]) l' (EndKey l)
                   (h ++ [EvNewBackoffer;
                          EvLocateKey s (inr l);
                          EvSendReq (RawDeleteRangeRequest s (EndKey l))
                                    (Region l) readTimeoutShort (inr resp)])
                   fuel)
        as (t & Et & Hreq & Hch).
      * now rewrite <- app_assoc.
      * apply (ends_before_snoc pre l s); auto using kle_refl, klt_kle.
      * apply Contains_iff. rewrite Hs'. split; [apply kle_refl|].
        destruct rest; [now right|left; apply Ht'].
      * now rewrite Hs'.
      * exact Hmore.
      * simpl in Hf. lia.
      * rewrite Et, <- app_assoc. eexists; split; [reflexivity|].
        cbn [app requests]. rewrite Hreq. split.
        -- rewrite EL. symmetry. apply coverage_step; auto.
           intros p Hp. now apply (tilesb_starts _ _ Ht).
        -- cbn [map fst chained]. rewrite <- Hreq. auto.
    + (* the range ends in this location *)
      rewrite (clampRule_range e (EndKey l) (or_intror Hlast)).
      rewrite DeleteRange_done.
      eexists; split; [reflexivity|]. cbn [requests map fst].
      rewrite EL, coverage_last; auto.
      * repeat split; auto.
      * now apply clampRule_range; right.
      * intros p Hp. eapply kle_trans; [exact Hlast|].
        now apply (tilesb_starts _ _ Ht).
Qed.

End Coverage.

(** C2. Let the locator answer from a layout that tiles the keys, and
    let every raw delete-range request be answered without error.  For a
    range with [startKey <= endKey], [DeleteRange] returns nil, and the
    requests it sent are, in the order of the layout, one for each
    location that meets the range and no other, each for exactly the part
    of the range inside that location (from the larger start to the
    smaller end) and sent to that location's region.  They go from
    [startKey] to [endKey] without gap or overlap, so that the cursor
    after the last one is [endKey]. *)
Theorem DeleteRange_covers (c : Cluster) (layout : list KeyLocation)
        (startKey endKey : bytes) (h : Log) (fuel : nat) :
  tilesb [] layout = true ->
  locates c layout ->
  deletes c ->
  Compare startKey endKey <= 0 ->
  (List.length layout <= fuel)%nat ->
  exists t,
    DeleteRange c fuel startKey endKey h = (Some None, h ++ t)
    /\ requests t
       = map (subRequest startKey endKey)
             (filter (intersects startKey endKey) layout)
    /\ chained startKey endKey (map fst (requests t)).
Proof.
  intros Ht Hloc Hdel Hle Hf.
  apply Z.leb_le, Compare_le_true, kle_cases in Hle as [<-|Hlt].
  - exists []. rewrite app_nil_r, DeleteRange_done.
    split; [reflexivity|]. split; [|reflexivity].
    rewrite filter_none; [reflexivity|].
    intros p _. apply intersects_above, maxKey_ge_l.
  - destruct (tiling_locate layout [] startKey Ht (kle_nil _))
      as (pre & l & rest & EL & Hb & Hc & Htl).
    apply (DeleteRange_walk c layout Hloc Hdel endKey rest pre l); auto.
    rewrite EL, length_app in Hf. simpl in Hf. lia.
Qed.

Lemma sim_locates (layout : list KeyLocation) (data : list KvPair)
      (msg : string) (misses budget : nat) (cancelAfter : option nat) :
  locates (sim layout data msg misses budget cancelAfter) layout.
Proof. intros h k. reflexivity. Qed.

Lemma sim_deletes (layout : list KeyLocation) (data : list KvPair)
      (budget : nat) (cancelAfter : option nat) :
  deletes (sim layout data "" 0 budget cancelAfter).
Proof.
  intros h s e region timeout. simpl.
  exists (serve layout data "" (RawDeleteRangeRequest s e) region).
  eexists. repeat split.
Qed.

Lemma DeleteRange_covers_witness :
  exists t,
    DeleteRange (sim threeRegions someData "" 0 0 None) 3
                (key "a") (key "d") []
    = (Some None, [] ++ t)
    /\ requests t
       = map (subRequest (key "a") (key "d"))
             (filter (intersects (key "a") (key "d")) threeRegions)
    /\ chained (key "a") (key "d") (map fst (requests t)).
Proof.
  apply (DeleteRange_covers (sim threeRegions someData "" 0 0 None)
                            threeRegions (key "a") (key "d") [] 3).
  - reflexivity.
  - apply sim_locates.
  - apply sim_deletes.
  - vm_compute. discriminate.
  - simpl. lia.
Defined.

(** The requests of the range ["a", "d") on the three regions, and of
    the range ["a", "b"), which ends where the first region ends. *)
Example DeleteRange_three_regions :
  let r := DeleteRange (sim threeRegions someData "" 0 0 None) 3
                       (key "a") (key "d") [] in
  fst r = Some None
  /\ requests (snd r)
     = [(RawDeleteRangeRequest (key "a") (key "b"), 1);
        (RawDeleteRangeRequest (key "b") (key "c"), 2);
        (RawDeleteRangeRequest (key "c") (key "d"), 3)].
Proof. split; reflexivity. Qed.

Example DeleteRange_on_boundary :
  let r := DeleteRange (sim threeRegions someData "" 0 0 None) 3
                       (key "a") (key "b") [] in
  fst r = Some None
  /\ requests (snd r) = [(RawDeleteRangeRequest (key "a") (key "b"), 1)]
  /\ filter (intersects (key "a") (key "b")) threeRegions
     = [mkLoc 1 (key "") (key "b")].
Proof. repeat split. Qed.

(* ================================================================== *)
(** ** Scan *)

Lemma appendPairs_spec (kvs : list KvPair) :
  forall keys values,
    appendPairs (keys, values) kvs
    = (keys ++ map Key kvs, values ++ map Value kvs).
Proof.
  unfold appendPairs. induction kvs as [|p kvs IH]; intros keys values; simpl.
  - now rewrite !app_nil_r.
  - rewrite IH. now rewrite <- !app_assoc.
Qed.

Lemma StronglySorted_app (a b : list bytes) :
  StronglySorted klt a -> StronglySorted klt b ->
  (forall x y, In x a -> In y b -> klt x y) ->
  StronglySorted klt (a ++ b).
Proof.
  induction a as [|x a IH]; intros Ha Hb H; [exact Hb|]. simpl.
  inversion Ha as [|x' a' Ha' Hx]; subst. constructor.
  - apply IH; auto. intros u v Hu Hv. apply H; [now right|exact Hv].
  - apply Forall_app. split; [exact Hx|].
    apply Forall_forall. intros y Hy. apply H; [now left|exact Hy].
Qed.

Lemma lastLocated_app (t1 t2 : Log) (acc : option KeyLocation) :
  lastLocated (t1 ++ t2) acc = lastLocated t2 (lastLocated t1 acc).
Proof.
  revert acc; induction t1 as [|ev t1 IH]; intros acc; [reflexivity|].
  destruct ev as [|k [err|l]| |]; simpl; apply IH.
Qed.

Lemma lastLocated_some (t : Log) (l : KeyLocation) :
  lastLocated t None = Some l ->
  forall acc, lastLocated t acc = Some l.
Proof.
  induction t as [|ev t IH]; [discriminate|].
  destruct ev as [|k [err|l']| |]; simpl; auto.
Qed.

Lemma attempts_lastLocated (k : bytes) (req : Request) (t : Log)
      (r : error + Response * KeyLocation) :
  attempts k req t r ->
  forall resp loc acc, r = inr (resp, loc) -> lastLocated t acc = Some loc.
Proof.
  induction 1; intros resp' loc' acc E; try discriminate.
  - inversion E; subst. reflexivity.
  - simpl. eauto.
Qed.

(** A served response is the cluster's answer to the request, sent to
    the region of a location that the cluster gave for the key. *)
Lemma sendReq_loop_served (c : Cluster) (k : bytes) (req : Request)
      (fuel : nat) :
  forall (h h' : Log) (resp : Response) (loc : KeyLocation),
    sendReq_loop c fuel k req h = (Some (inr (resp, loc)), h') ->
    exists h1 h2,
      on_LocateKey c h1 k = inr loc
      /\ on_SendReq c h2 req (Region loc) readTimeoutShort = inr resp
      /\ GetRegionError resp = inr None.
Proof.
  induction fuel as [|fuel IH]; intros h h' resp loc; [discriminate|].
  cbn [sendReq_loop]. step_loop.
  destruct (on_LocateKey c h k) as [err|loc0] eqn:L; [discriminate|].
  destruct (on_SendReq c _ req (Region loc0) readTimeoutShort)
    as [err|resp0] eqn:S; [discriminate|].
  destruct (GetRegionError resp0) as [err|[regionErr|]] eqn:G;
    [discriminate| |].
  - destruct (on_Backoff c _ BoRegionMiss regionErr) as [err|];
      [discriminate|].
    apply IH.
  - intros H; inversion H; subst. eauto.
Qed.

(** A dispatcher call on a cluster whose backoffers give up by their
    [n]-th signal returns, given fuel above [n]. *)
Lemma sendReq_returns (c : Cluster) (n fuel : nat) (k : bytes)
      (req : Request) (h : Log) :
  exhaustsBy c n -> (n < fuel)%nat ->
  exists r t,
    sendReq c fuel k req h = (Some r, h ++ EvNewBackoffer :: t)
    /\ attempts k req t r
    /\ forall resp loc,
         r = inr (resp, loc) ->
         exists h1 h2,
           on_LocateKey c h1 k = inr loc
           /\ on_SendReq c h2 req (Region loc) readTimeoutShort = inr resp
           /\ GetRegionError resp = inr None.
Proof.
  intros Hc Hf. unfold sendReq. step_loop.
  destruct (sendReq_loop_returns c n k req fuel Hc (h ++ [EvNewBackoffer]))
    as (r & h' & E).
  { rewrite signals_app. simpl. lia. }
  rewrite E. pose proof E as E'.
  apply sendReq_loop_attempts in E' as (t & -> & Ht).
  exists r, t. rewrite <- app_assoc. split; [reflexivity|].
  split; [exact Ht|]. intros resp loc ->.
  now apply sendReq_loop_served in E.
Qed.

Lemma len_app {A : Type} (a b : list A) : len (a ++ b) = len a + len b.
Proof. unfold len. rewrite length_app. lia. Qed.

Lemma len_map {A B : Type} (f : A -> B) (a : list A) : len (map f a) = len a.
Proof. unfold len. now rewrite length_map. Qed.

Lemma len_nonneg {A : Type} (a : list A) : 0 <= len a.
Proof. unfold len. lia. Qed.

Lemma uint32_small (z : Z) : 0 <= z <= MaxRawKVScanLimit -> uint32 z = z.
Proof.
  unfold uint32, MaxRawKVScanLimit. intros H. apply Z.mod_small.
  change (2 ^ 32) with 4294967296. lia.
Qed.

Lemma uint32_nonneg (z : Z) : 0 <= uint32 z.
Proof. unfold uint32. apply Z.mod_pos_bound. reflexivity. Qed.

Lemma scanResult_prefix (limit : Z) (t1 t : Log)
      (r : list bytes * list bytes * option error) :
  scanResult limit t r -> scanResult limit (t1 ++ t) r.
Proof.
  destruct r as [[ks vs] [err|]]; simpl; [auto|].
  intros (H1 & H2 & H3 & [H4|(l & H4 & H5)]); repeat split; auto.
  right. exists l. split; [|exact H5].
  rewrite lastLocated_app. now apply lastLocated_some.
Qed.

Section ScanOrder.

Variable c : Cluster.
Variable layout : list KeyLocation.
Variable n : nat.
Variable limit : Z.
Hypothesis Hloc : locates c layout.
Hypothesis Hscan : scans c layout.
Hypothesis Hbo : exhaustsBy c n.
Hypothesis Hmax : limit <= MaxRawKVScanLimit.

(** A dispatcher call whose first request is answered without region
    error is one locate and one request. *)
Lemma sendReq_clean (fuel : nat) (k : bytes) (req : Request) (h : Log)
      (l : KeyLocation) (resp : Response) :
  locateIn layout k = inr l ->
  on_SendReq c (h ++ [EvNewBackoffer; EvLocateKey k (inr l)]) req (Region l)
             readTimeoutShort = inr resp ->
  GetRegionError resp = inr None ->
  sendReq c (S fuel) k req h
  = (Some (inr (resp, l)),
     h ++ [EvNewBackoffer;
           EvLocateKey k (inr l);
           EvSendReq req (Region l) readTimeoutShort (inr resp)]).
Proof.
  intros L S G. unfold sendReq. cbn [sendReq_loop]. step_loop.
  rewrite Hloc, L, app_snoc2, S, G. now rewrite <- app_assoc.
Qed.

(** One scan request of the walk, for a key of location [l]: the
    dispatcher returns; a response it serves comes from [l] and holds
    pairs of [l] from the key on, in order, within the limit asked. *)
Lemma Scan_dispatch (fuel : nat) (s : bytes) (lim : Z) (h : Log)
      (l : KeyLocation) :
  In l layout -> locateIn layout s = inr l -> 0 <= lim -> (n <= fuel)%nat ->
  exists r t,
    sendReq c (S fuel) s (RawScanRequest s lim) h
    = (Some r, h ++ EvNewBackoffer :: t)
    /\ match r with
       | inl _ => ~ answersScans c
       | inr (resp, loc) =>
           loc = l
           /\ lastLocated (EvNewBackoffer :: t) None = Some l
           /\ match RawScan resp with
              | None => ~ answersScans c
              | Some cmdResp =>
                  StronglySorted klt (map Key (Kvs cmdResp))
                  /\ (forall p, In p (Kvs cmdResp) ->
                                kle s (Key p)
                                /\ (klt (Key p) (EndKey l) \/ EndKey l = []))
                  /\ len (Kvs cmdResp) <= lim
              end
       end.
Proof.
  intros Hin L Hlim Hf.
  destruct (sendReq_returns c n (S fuel) s (RawScanRequest s lim) h Hbo)
    as (r & t & E & Hat & Hserved); [lia|].
  exists r, t. split; [exact E|].
  assert (answersScans c ->
          exists resp cmdResp,
            r = inr (resp, l) /\ RawScan resp = Some cmdResp) as Hclean.
  { intros Ha.
    destruct (Ha (h ++ [EvNewBackoffer; EvLocateKey s (inr l)]) s lim
                 (Region l) readTimeoutShort)
      as (resp & cmdResp & S & G & B).
    rewrite (sendReq_clean fuel s _ h l resp L S G) in E.
    inversion E; subst. eauto. }
  destruct r as [err|[resp loc]].
  - intros Ha. destruct (Hclean Ha) as (resp & cmdResp & H & _).
    discriminate H.
  - destruct (Hserved resp loc eq_refl) as (h1 & h2 & L1 & S2 & G).
    assert (loc = l) as -> by (rewrite Hloc, L in L1; now inversion L1).
    split; [reflexivity|]. split.
    { simpl. apply (attempts_lastLocated _ _ _ _ Hat resp l). reflexivity. }
    destruct (RawScan resp) as [cmdResp|] eqn:B.
    + exact (Hscan h2 s lim (Region l) readTimeoutShort resp cmdResp l
                   Hlim S2 G B Hin eq_refl).
    + intros Ha. destruct (Hclean Ha) as (resp' & cmdResp & H & B').
      inversion H; subst. congruence.
Qed.

(** The walk of [Scan] from a key inside location [l], with the keys
    gathered so far all below that key. *)
Lemma Scan_loop_ordered (rest : list KeyLocation) :
  forall (pre : list KeyLocation) (l : KeyLocation) (s : bytes)
         (keys values : list bytes) (h : Log) (fuel : nat),
    layout = pre ++ l :: rest ->
    ends_before pre s ->
    Contains l s = true ->
    tilesb (StartKey l) (l :: rest) = true ->
    StronglySorted klt keys ->
    (forall k, In k keys -> klt k s) ->
    List.length values = List.length keys ->
    len keys <= Z.max 0 limit ->
    (List.length rest + n < fuel)%nat ->
    exists r t,
      Scan_loop c fuel limit s keys values h = (Some r, h ++ t)
      /\ scanResult limit t r
      /\ (answersScans c -> snd r = None).
Proof.
  induction rest as [|l' rest IH];
    intros pre l s keys values h fuel EL Hb Hc Ht Hso Hlow Hlen Hcnt Hf;
    (destruct fuel as [|fuel]; [lia|]);
    cbn [Scan_loop];
    (destruct (Z.ltb_spec (len keys) limit) as [Hlt|Hge]; cbn [negb];
     [|exists (keys, values, None), [];
       rewrite app_nil_r; split; [reflexivity|];
       simpl; repeat split; auto]);
    unfold bind at 1;
    (assert (In l layout) as Hin
        by (rewrite EL; apply in_or_app; right; now left));
    (assert (locateIn layout s = inr l) as L
        by (rewrite EL; now apply locateIn_at));
    (destruct (Scan_dispatch fuel s (uint32 (limit - len keys)) h l
                             Hin L (uint32_nonneg _))
      as (r0 & t1 & E & Hr0); [lia|]);
    rewrite E;
    (destruct r0 as [err|[resp loc]];
     [exists ([], [], Some (Trace err)), (EvNewBackoffer :: t1);
      split; [reflexivity|]; split; [now simpl|];
      intros Ha; now elim Hr0|]);
    destruct Hr0 as (-> & Hlast & Hr0);
    (destruct (RawScan resp) as [cmdResp|];
     [|exists ([], [], Some (Trace ErrBodyMissing)), (EvNewBackoffer :: t1);
       split; [reflexivity|]; split; [now simpl|];
       intros Ha; now elim Hr0]);
    destruct Hr0 as (Hs1 & Hs2 & Hs3);
    rewrite uint32_small in Hs3 by (pose proof (len_nonneg keys); lia);
    rewrite appendPairs_spec; cbn [fst snd];
    apply Contains_iff in Hc as [Hstart Hend];
    apply tilesb_cons in Ht as [_ Ht];
    (assert (StronglySorted klt (keys ++ map Key (Kvs cmdResp))) as Hso'
        by (apply StronglySorted_app; auto;
            intros x y Hx Hy; apply in_map_iff in Hy as (p & <- & Hp);
            eapply klt_kle_trans; [apply Hlow, Hx|apply Hs2, Hp]));
    (assert (len (keys ++ map Key (Kvs cmdResp)) <= Z.max 0 limit) as Hcnt'
        by (rewrite len_app, len_map; lia));
    (assert (List.length (values ++ map Value (Kvs cmdResp))
             = List.length (keys ++ map Key (Kvs cmdResp))) as Hlen'
        by (rewrite !length_app, !length_map; lia)).
  - (* the last location: its end is empty *)
    rewrite Ht. cbn [len List.length Z.of_nat Z.eqb].
    eexists _, (EvNewBackoffer :: t1). split; [reflexivity|].
    split; [|reflexivity]. repeat split; auto. right. now exists l.
  - destruct Ht as [Hne Ht]. pose proof (klt_nonempty _ _ Hne) as Hn.
    destruct Hend as [Hend|Hend]; [|contradiction].
    destruct (len (EndKey l) =? 0) eqn:E0;
      [apply len_zero in E0; contradiction|].
    pose proof (tilesb_cons _ _ _ Ht) as [Hs' Ht'].
    destruct (IH (pre ++ [l]) l' (EndKey l)
                 (keys ++ map Key (Kvs cmdResp))
                 (values ++ map Value (Kvs cmdResp))
                 (h ++ EvNewBackoffer :: t1) fuel)
      as (r & t & Er & Hr & Hok); auto.
    + now rewrite <- app_assoc.
    + apply (ends_before_snoc pre l s); auto using kle_refl, klt_kle.
    + apply Contains_iff. rewrite Hs'. split; [apply kle_refl|].
      destruct rest; [now right|left; apply Ht'].
    + now rewrite Hs'.
    + intros k Hk. apply in_app_or in Hk as [Hk|Hk].
      * eapply lex_lt_trans; [apply Hlow, Hk|exact Hend].
      * apply in_map_iff in Hk as (p & <- & Hp).
        destruct (Hs2 p Hp) as [_ [H|H]]; [exact H|contradiction].
    + simpl in Hf. lia.
    + exists r, ((EvNewBackoffer :: t1) ++ t). rewrite Er, <- app_assoc.
      split; [reflexivity|]. split; [|exact Hok].
      now apply scanResult_prefix.
Qed.

End ScanOrder.


Lemma In_firstn {A : Type} (m : nat) (l : list A) (x : A) :
  In x (firstn m l) -> In x l.
Proof.
  intros H. rewrite <- (firstn_skipn m l). apply in_or_app. now left.
Qed.

Lemma StronglySorted_filter_keys (f : KvPair -> bool) (data : list KvPair) :
  StronglySorted klt (map Key data) ->
  StronglySorted klt (map Key (filter f data)).
Proof.
  induction data as [|p data IH]; intros H; [constructor|].
  simpl in H. inversion H as [|x xs Hs Hall]; subst. simpl.
  destruct (f p); [|now apply IH]. simpl. constructor; [now apply IH|].
  rewrite Forall_forall in *. intros k Hk. apply Hall.
  apply in_map_iff in Hk as (q & <- & Hq). apply in_map.
  now apply filter_In in Hq as [Hq _].
Qed.

Lemma StronglySorted_firstn_keys (m : nat) (data : list KvPair) :
  StronglySorted klt (map Key data) ->
  StronglySorted klt (map Key (firstn m data)).
Proof.
  revert data; induction m as [|m IH]; intros [|p data] H; try constructor.
  - simpl in H. inversion H; subst. now apply IH.
  - simpl in H. inversion H as [|x xs Hs Hall]; subst.
    rewrite Forall_forall in *. intros k Hk. apply Hall.
    apply in_map_iff in Hk as (q & <- & Hq). apply in_map.
    revert Hq. apply In_firstn.
Qed.

(** The simulated store scans as a store does, when its data is in key
    order and its regions have distinct identifiers. *)
Lemma sim_scans (layout : list KeyLocation) (data : list KvPair)
      (msg : string) (misses budget : nat) (cancelAfter : option nat) :
  StronglySorted klt (map Key data) ->
  (forall l l', In l layout -> In l' layout -> Region l = Region l' ->
                l = l') ->
  scans (sim layout data msg misses budget cancelAfter) layout.
Proof.
  intros Hd Hu h start lim region timeout resp cmdResp l Hl S G B Hin Hr.
  simpl in S. destruct (_ <? misses)%nat.
  { inversion S; subst resp. discriminate G. }
  inversion S; subst resp. simpl in B. inversion B; subst cmdResp.
  simpl. unfold scanRegion. split; [|split].
  - now apply StronglySorted_firstn_keys, StronglySorted_filter_keys.
  - intros p Hp. apply In_firstn, filter_In in Hp as [_ Hp].
    apply andb_true_iff in Hp as [H1 H2]. apply Compare_le_true in H1.
    split; [exact H1|].
    apply existsb_exists in H2 as (l' & Hin' & H2).
    apply andb_true_iff in H2 as [H2 H3]. apply Z.eqb_eq in H2.
    assert (l' = l) as -> by (apply Hu; auto; congruence).
    now apply Contains_iff in H3 as [_ H3].
  - pose proof (firstn_le_length (Z.to_nat lim)
                  (filter (fun p => (Compare start (Key p) <=? 0)
                                    && existsb (fun l0 => (Region l0 =? region)
                                                          && Contains l0 (Key p))
                                               layout) data)) as H.
    unfold len. lia.
Qed.

Lemma threeRegions_distinct (l l' : KeyLocation) :
  In l threeRegions -> In l' threeRegions -> Region l = Region l' -> l = l'.
Proof.
  intros [<-|[<-|[<-|[]]]] [<-|[<-|[<-|[]]]]; simpl; intros H;
    try reflexivity; discriminate H.
Qed.

Lemma someData_sorted : StronglySorted klt (map Key someData).
Proof. repeat constructor. Qed.


(** Three pairs from "a" on, with a region miss on the way: two from the
    first region, one from the second. *)
Example Scan_three_pairs :
  fst (Scan (sim threeRegions someData "" 1 2 None) 5 (key "a") 3 [])
  = Some ([key "a"; key "ab"; key "b"], [key "1"; key "2"; key "3"], None).
Proof. reflexivity. Qed.

(** All pairs from "ab" on: the scan stops at the region without end. *)
Example Scan_to_the_end :
  fst (Scan (sim threeRegions someData "" 0 0 None) 5 (key "ab") 10 [])
  = Some ([key "ab"; key "b"; key "d"], [key "2"; key "3"; key "4"], None).
Proof. reflexivity. Qed.

(* ================================================================== *)
(** * Further properties of the two files *)

(** ** Kinds of events in a log *)

Section Kinds.

Variable P : Event -> Prop.

Lemma neverIn_nil : neverIn P [].
Proof. intros ev []. Qed.

Lemma neverIn_cons (ev : Event) (t : Log) :
  ~ P ev -> neverIn P t -> neverIn P (ev :: t).
Proof. intros H Ht ev' [<-|Hin]; [exact H|now apply Ht]. Qed.

Lemma neverIn_app (t1 t2 : Log) :
  neverIn P t1 -> neverIn P t2 -> neverIn P (t1 ++ t2).
Proof.
  intros H1 H2 ev Hin. apply in_app_or in Hin as [Hin|Hin]; auto.
Qed.

Lemma neverIn_weaken (Q : Event -> Prop) (t : Log) :
  (forall ev, P ev -> Q ev) -> neverIn Q t -> neverIn P t.
Proof. intros HPQ Ht ev Hin HP. apply (Ht ev Hin). now apply HPQ. Qed.

Lemma onlyLast_never (t : Log) (ok : Prop) : neverIn P t -> onlyLast P t ok.
Proof.
  intros H t1 ev t2 -> HP. exfalso. apply (H ev); [|exact HP].
  apply in_or_app. right. now left.
Qed.

Lemma onlyLast_last (t0 : Log) (ev0 : Event) (ok : Prop) :
  neverIn P t0 -> (P ev0 -> ok) -> onlyLast P (t0 ++ [ev0]) ok.
Proof.
  intros H0 Hok t1 ev t2 E HP. destruct t2 as [|y t2].
  - apply app_inj_tail in E as [_ <-]. split; [reflexivity|now apply Hok].
  - exfalso.
    destruct (exists_last (l := y :: t2)) as (t2' & z & E2); [discriminate|].
    rewrite E2 in E.
    change (t1 ++ ev :: t2' ++ [z]) with (t1 ++ (ev :: t2') ++ [z]) in E.
    rewrite app_assoc in E. apply app_inj_tail in E as [-> _].
    apply (H0 ev); [|exact HP]. apply in_or_app. right. now left.
Qed.

Lemma onlyLast_app (l1 l2 : Log) (ok : Prop) :
  neverIn P l1 -> onlyLast P l2 ok -> onlyLast P (l1 ++ l2) ok.
Proof.
  intros H1 H2 t1. revert l1 H1.
  induction t1 as [|x t1 IH]; intros l1 H1 ev t2 E HP.
  - destruct l1 as [|y l1].
    + simpl in E. now apply (H2 [] ev t2).
    + simpl in E. inversion E; subst. exfalso.
      apply (H1 ev); [now left|exact HP].
  - destruct l1 as [|y l1].
    + simpl in E. now apply (H2 (x :: t1) ev t2).
    + simpl in E. inversion E; subst.
      apply (IH l1) with (ev := ev); [|assumption..].
      intros ev' Hin. apply H1. now right.
Qed.

End Kinds.

Lemma bodyless_served (ev : Event) : bodyless ev -> servedEv ev.
Proof.
  destruct ev as [| |req region timeout [err|resp]|]; simpl; tauto.
Qed.

Lemma unserved_attempt (k : bytes) (l : error + KeyLocation) (req : Request)
      (region : RegionVerID) (timeout : Timeout) (resp : Response)
      (tail : Log) :
  GetRegionError resp <> inr None -> neverIn servedEv tail ->
  neverIn servedEv (EvLocateKey k l :: EvSendReq req region timeout (inr resp)
                                :: tail).
Proof.
  intros G Ht. apply neverIn_cons; [now simpl|].
  apply neverIn_cons; [exact G|exact Ht].
Qed.

Lemma unserved_backoff (typ : backoffType) (msg : string) (r : option error) :
  neverIn servedEv [EvBackoff typ msg r].
Proof. apply neverIn_cons; [now simpl|apply neverIn_nil]. Qed.

(** In any run of the loop of [sendReq], cut short or not, a response
    without region error arrives at most once: it is the last event, and
    it is the response returned, with the location of its region. *)
Lemma sendReq_loop_served_last (c : Cluster) (k : bytes) (req : Request)
      (fuel : nat) :
  forall (h h' : Log) (o : option (error + Response * KeyLocation)),
    sendReq_loop c fuel k req h = (o, h') ->
    exists t,
      h' = h ++ t
      /\ match o with
         | Some (inr (resp, loc)) =>
             exists t0,
               t = t0 ++ [EvSendReq req (Region loc) readTimeoutShort
                                    (inr resp)]
               /\ neverIn servedEv t0
               /\ GetRegionError resp = inr None
         | _ => neverIn servedEv t
         end.
Proof.
  induction fuel as [|fuel IH]; intros h h' o.
  { intros H; inversion H; subst. exists [].
    split; [now rewrite app_nil_r|apply neverIn_nil]. }
  cbn [sendReq_loop]. step_loop.
  destruct (on_LocateKey c h k) as [err|loc].
  { intros H; inversion H; subst. eexists; split; [reflexivity|].
    apply neverIn_cons; [now simpl|apply neverIn_nil]. }
  destruct (on_SendReq c _ req (Region loc) readTimeoutShort) as [err|resp].
  { intros H; inversion H; subst. rewrite app_snoc2.
    eexists; split; [reflexivity|].
    apply neverIn_cons; [now simpl|].
    apply neverIn_cons; [now simpl|apply neverIn_nil]. }
  destruct (GetRegionError resp) as [err|[regionErr|]] eqn:G.
  - intros H; inversion H; subst. rewrite app_snoc2.
    eexists; split; [reflexivity|].
    apply unserved_attempt; [congruence|apply neverIn_nil].
  - destruct (on_Backoff c _ BoRegionMiss regionErr) as [err|].
    + intros H; inversion H; subst. rewrite app_snoc3.
      eexists; split; [reflexivity|].
      apply unserved_attempt; [congruence|apply unserved_backoff].
    + intros H. apply IH in H as (t & -> & Ht).
      rewrite app_snoc3, <- app_assoc.
      eexists; split; [reflexivity|].
      assert (neverIn servedEv
                [EvLocateKey k (inr loc);
                 EvSendReq req (Region loc) readTimeoutShort (inr resp);
                 EvBackoff BoRegionMiss regionErr None]) as H3
          by (apply unserved_attempt; [congruence|apply unserved_backoff]).
      destruct o as [[err|[resp' loc']]|].
      * now apply (neverIn_app _ [_; _; _] t).
      * destruct Ht as (t0 & -> & H0 & G').
        exists ([EvLocateKey k (inr loc);
                 EvSendReq req (Region loc) readTimeoutShort (inr resp);
                 EvBackoff BoRegionMiss regionErr None] ++ t0).
        split; [reflexivity|]. split; [now apply neverIn_app|exact G'].
      * now apply (neverIn_app _ [_; _; _] t).
  - intros H; inversion H; subst. rewrite app_snoc2.
    eexists; split; [reflexivity|].
    exists [EvLocateKey k (inr loc)]. split; [reflexivity|].
    split; [|exact G]. apply neverIn_cons; [now simpl|apply neverIn_nil].
Qed.

Lemma sendReq_served_last (c : Cluster) (fuel : nat) (k : bytes)
      (req : Request) (h h' : Log)
      (o : option (error + Response * KeyLocation)) :
  sendReq c fuel k req h = (o, h') ->
  exists t,
    h' = h ++ t
    /\ match o with
       | Some (inr (resp, loc)) =>
           exists t0,
             t = t0 ++ [EvSendReq req (Region loc) readTimeoutShort (inr resp)]
             /\ neverIn servedEv t0
             /\ GetRegionError resp = inr None
       | _ => neverIn servedEv t
       end.
Proof.
  unfold sendReq. step_loop. intros H.
  apply sendReq_loop_served_last in H as (t & -> & Ht).
  exists (EvNewBackoffer :: t). split; [now rewrite <- app_assoc|].
  assert (~ servedEv EvNewBackoffer) as Hn by now simpl.
  destruct o as [[err|[resp loc]]|].
  - now apply neverIn_cons.
  - destruct Ht as (t0 & -> & H0 & G). exists (EvNewBackoffer :: t0).
    split; [reflexivity|]. split; [now apply neverIn_cons|exact G].
  - now apply neverIn_cons.
Qed.

(** The same for [sendDeleteRangeReq]: the response served answers the
    request for the range up to the end key returned. *)
Lemma sendDeleteRangeReq_loop_served_last (c : Cluster)
      (startKey endKey : bytes) (fuel : nat) :
  forall (h h' : Log) (o : option (error + Response * bytes)),
    sendDeleteRangeReq_loop c fuel startKey endKey h = (o, h') ->
    exists t,
      h' = h ++ t
      /\ match o with
         | Some (inr (resp, actualEnd)) =>
             exists t0 loc,
               t = t0 ++ [EvSendReq (RawDeleteRangeRequest startKey actualEnd)
                                    (Region loc) readTimeoutShort (inr resp)]
               /\ neverIn servedEv t0
               /\ GetRegionError resp = inr None
         | _ => neverIn servedEv t
         end.
Proof.
  induction fuel as [|fuel IH]; intros h h' o.
  { intros H; inversion H; subst. exists [].
    split; [now rewrite app_nil_r|apply neverIn_nil]. }
  cbn [sendDeleteRangeReq_loop]. step_loop.
  destruct (on_LocateKey c h startKey) as [err|loc].
  { intros H; inversion H; subst. eexists; split; [reflexivity|].
    apply neverIn_cons; [now simpl|apply neverIn_nil]. }
  destruct (on_SendReq c _ _ (Region loc) readTimeoutShort) as [err|resp].
  { intros H; inversion H; subst. rewrite app_snoc2.
    eexists; split; [reflexivity|].
    apply neverIn_cons; [now simpl|].
    apply neverIn_cons; [now simpl|apply neverIn_nil]. }
  destruct (GetRegionError resp) as [err|[regionErr|]] eqn:G.
  - intros H; inversion H; subst. rewrite app_snoc2.
    eexists; split; [reflexivity|].
    apply unserved_attempt; [congruence|apply neverIn_nil].
  - destruct (on_Backoff c _ BoRegionMiss regionErr) as [err|].
    + intros H; inversion H; subst. rewrite app_snoc3.
      eexists; split; [reflexivity|].
      apply unserved_attempt; [congruence|apply unserved_backoff].
    + intros H. apply IH in H as (t & -> & Ht).
      rewrite app_snoc3, <- app_assoc.
      eexists; split; [reflexivity|].
      assert (neverIn servedEv
                [EvLocateKey startKey (inr loc);
                 EvSendReq (RawDeleteRangeRequest startKey
                                                  (actualEndKey loc endKey))
                           (Region loc) readTimeoutShort (inr resp);
                 EvBackoff BoRegionMiss regionErr None]) as H3
          by (apply unserved_attempt; [congruence|apply unserved_backoff]).
      destruct o as [[err|[resp' actualEnd]]|].
      * now apply (neverIn_app _ [_; _; _] t).
      * destruct Ht as (t0 & loc' & -> & H0 & G').
        exists ([EvLocateKey startKey (inr loc);
                 EvSendReq (RawDeleteRangeRequest startKey
                                                  (actualEndKey loc endKey))
                           (Region loc) readTimeoutShort (inr resp);
                 EvBackoff BoRegionMiss regionErr None] ++ t0), loc'.
        split; [reflexivity|]. split; [now apply neverIn_app|exact G'].
      * now apply (neverIn_app _ [_; _; _] t).
  - intros H; inversion H; subst. rewrite app_snoc2.
    eexists; split; [reflexivity|].
    exists [EvLocateKey startKey (inr loc)], loc. split; [reflexivity|].
    split; [|exact G]. apply neverIn_cons; [now simpl|apply neverIn_nil].
Qed.

Lemma sendDeleteRangeReq_served_last (c : Cluster) (fuel : nat)
      (startKey endKey : bytes) (h h' : Log)
      (o : option (error + Response * bytes)) :
  sendDeleteRangeReq c fuel startKey endKey h = (o, h') ->
  exists t,
    h' = h ++ t
    /\ match o with
       | Some (inr (resp, actualEnd)) =>
           exists t0 loc,
             t = t0 ++ [EvSendReq (RawDeleteRangeRequest startKey actualEnd)
                                  (Region loc) readTimeoutShort (inr resp)]
             /\ neverIn servedEv t0
             /\ GetRegionError resp = inr None
       | _ => neverIn servedEv t
       end.
Proof.
  unfold sendDeleteRangeReq. step_loop. intros H.
  apply sendDeleteRangeReq_loop_served_last in H as (t & -> & Ht).
  exists (EvNewBackoffer :: t). split; [now rewrite <- app_assoc|].
  assert (~ servedEv EvNewBackoffer) as Hn by now simpl.
  destruct o as [[err|[resp actualEnd]]|].
  - now apply neverIn_cons.
  - destruct Ht as (t0 & loc & -> & H0 & G). exists (EvNewBackoffer :: t0), loc.
    split; [reflexivity|]. split; [now apply neverIn_cons|exact G].
  - now apply neverIn_cons.
Qed.

(* ================================================================== *)
(** ** A response without its body *)

Lemma unserved_bodyless (t : Log) : neverIn servedEv t -> neverIn bodyless t.
Proof. apply neverIn_weaken, bodyless_served. Qed.

Lemma Get_bodyless (c : Cluster) (fuel : nat) (k : bytes) (h h' : Log)
      (o : option (option bytes * option error)) :
  Get c fuel k h = (o, h') ->
  exists t, h' = h ++ t
            /\ onlyLast bodyless t (o = Some (None, Some ErrBodyMissing)).
Proof.
  unfold Get, bind at 1.
  destruct (sendReq c fuel k (RawGetRequest k) h) as [d h1] eqn:D.
  apply sendReq_served_last in D as (t & -> & Ht).
  destruct d as [[err|[resp loc]]|].
  - intros H; inv_ret H. exists t. split; [reflexivity|].
    now apply onlyLast_never, unserved_bodyless.
  - destruct Ht as (t0 & -> & H0 & G). intros H.
    assert (h' = h ++ t0 ++ [EvSendReq (RawGetRequest k) (Region loc)
                                       readTimeoutShort (inr resp)]) as ->.
    { destruct (RawGet resp) as [cmdResp|]; [|now inv_ret H].
      destruct (negb _); [now inv_ret H|].
      destruct (len _ =? 0); now inv_ret H. }
    eexists; split; [reflexivity|].
    apply onlyLast_last; [now apply unserved_bodyless|].
    intros (_ & B). simpl in B.
    destruct (RawGet resp) as [cmdResp|]; [discriminate|]. now inv_ret H.
  - intros H; inversion H; subst. exists t. split; [reflexivity|].
    now apply onlyLast_never, unserved_bodyless.
Qed.

Lemma Put_bodyless (c : Cluster) (fuel : nat) (k value : bytes) (h h' : Log)
      (o : option (option error)) :
  Put c fuel k value h = (o, h') ->
  exists t, h' = h ++ t
            /\ onlyLast bodyless t (o = Some (Some ErrBodyMissing)).
Proof.
  unfold Put. destruct (len value =? 0).
  { intros H; inv_ret H. exists []. split; [now rewrite app_nil_r|].
    apply onlyLast_never, neverIn_nil. }
  unfold bind at 1.
  destruct (sendReq c fuel k (RawPutRequest k value) h) as [d h1] eqn:D.
  apply sendReq_served_last in D as (t & -> & Ht).
  destruct d as [[err|[resp loc]]|].
  - intros H; inv_ret H. exists t. split; [reflexivity|].
    now apply onlyLast_never, unserved_bodyless.
  - destruct Ht as (t0 & -> & H0 & G). intros H.
    assert (h' = h ++ t0 ++ [EvSendReq (RawPutRequest k value) (Region loc)
                                       readTimeoutShort (inr resp)]) as ->.
    { destruct (RawPut resp) as [cmdResp|]; [|now inv_ret H].
      destruct (negb _); now inv_ret H. }
    eexists; split; [reflexivity|].
    apply onlyLast_last; [now apply unserved_bodyless|].
    intros (_ & B). simpl in B.
    destruct (RawPut resp) as [cmdResp|]; [discriminate|]. now inv_ret H.
  - intros H; inversion H; subst. exists t. split; [reflexivity|].
    now apply onlyLast_never, unserved_bodyless.
Qed.

Lemma Delete_bodyless (c : Cluster) (fuel : nat) (k : bytes) (h h' : Log)
      (o : option (option error)) :
  Delete c fuel k h = (o, h') ->
  exists t, h' = h ++ t
            /\ onlyLast bodyless t (o = Some (Some ErrBodyMissing)).
Proof.
  unfold Delete, bind at 1.
  destruct (sendReq c fuel k (RawDeleteRequest k) h) as [d h1] eqn:D.
  apply sendReq_served_last in D as (t & -> & Ht).
  destruct d as [[err|[resp loc]]|].
  - intros H; inv_ret H. exists t. split; [reflexivity|].
    now apply onlyLast_never, unserved_bodyless.
  - destruct Ht as (t0 & -> & H0 & G). intros H.
    assert (h' = h ++ t0 ++ [EvSendReq (RawDeleteRequest k) (Region loc)
                                       readTimeoutShort (inr resp)]) as ->.
    { destruct (RawDelete resp) as [cmdResp|]; [|now inv_ret H].
      destruct (negb _); now inv_ret H. }
    eexists; split; [reflexivity|].
    apply onlyLast_last; [now apply unserved_bodyless|].
    intros (_ & B). simpl in B.
    destruct (RawDelete resp) as [cmdResp|]; [discriminate|]. now inv_ret H.
  - intros H; inversion H; subst. exists t. split; [reflexivity|].
    now apply onlyLast_never, unserved_bodyless.
Qed.

Lemma Scan_loop_bodyless (c : Cluster) (limit : Z) (fuel : nat) :
  forall (startKey : bytes) (keys values : list bytes) (h h' : Log)
         (o : option (list bytes * list bytes * option error)),
    Scan_loop c fuel limit startKey keys values h = (o, h') ->
    exists t, h' = h ++ t
              /\ onlyLast bodyless t
                          (o = Some ([], [], Some ErrBodyMissing)).
Proof.
  assert (forall (h : Log) (ok : Prop),
             exists t : Log, h = h ++ t /\ onlyLast bodyless t ok) as Hstop.
  { intros h ok. exists []. split; [now rewrite app_nil_r|].
    apply onlyLast_never, neverIn_nil. }
  induction fuel as [|fuel IH]; intros startKey keys values h h' o;
    cbn [Scan_loop]; destruct (negb (len keys <? limit));
    try (intros H; inv_ret H; now apply Hstop).
  unfold bind at 1.
  destruct (sendReq c (S fuel) startKey _ h) as [d h1] eqn:D.
  apply sendReq_served_last in D as (t & -> & Ht).
  destruct d as [[err|[resp loc]]|].
  { intros H; inv_ret H. exists t. split; [reflexivity|].
    now apply onlyLast_never, unserved_bodyless. }
  2:{ intros H; inversion H; subst. exists t. split; [reflexivity|].
      now apply onlyLast_never, unserved_bodyless. }
  destruct Ht as (t0 & -> & H0 & G).
  destruct (RawScan resp) as [cmdResp|] eqn:B.
  2:{ intros H; inv_ret H. eexists; split; [reflexivity|].
      apply onlyLast_last; [now apply unserved_bodyless|]. reflexivity. }
  assert (neverIn bodyless
            (t0 ++ [EvSendReq (RawScanRequest startKey
                                              (uint32 (limit - len keys)))
                              (Region loc) readTimeoutShort (inr resp)]))
    as Hq.
  { apply neverIn_app; [now apply unserved_bodyless|].
    apply neverIn_cons; [|apply neverIn_nil].
    intros (_ & B'). simpl in B'. now rewrite B in B'. }
  destruct (len (EndKey loc) =? 0).
  - intros H; inv_ret H. eexists; split; [reflexivity|].
    now apply onlyLast_never.
  - intros H. apply IH in H as (t' & -> & Ht').
    rewrite <- app_assoc. eexists; split; [reflexivity|].
    now apply onlyLast_app.
Qed.

Lemma Scan_bodyless (c : Cluster) (fuel : nat) (startKey : bytes) (limit : Z)
      (h h' : Log) (o : option (list bytes * list bytes * option error)) :
  Scan c fuel startKey limit h = (o, h') ->
  exists t, h' = h ++ t
            /\ onlyLast bodyless t
                        (o = Some ([], [], Some ErrBodyMissing)).
Proof.
  unfold Scan. destruct (limit >? MaxRawKVScanLimit).
  - intros H; inv_ret H. exists []. split; [now rewrite app_nil_r|].
    apply onlyLast_never, neverIn_nil.
  - apply Scan_loop_bodyless.
Qed.

Lemma DeleteRange_bodyless (c : Cluster) (endKey : bytes) (fuel : nat) :
  forall (startKey : bytes) (h h' : Log) (o : option (option error)),
    DeleteRange c fuel startKey endKey h = (o, h') ->
    exists t, h' = h ++ t
              /\ onlyLast bodyless t (o = Some (Some ErrBodyMissing)).
Proof.
  assert (forall (h : Log) (ok : Prop),
             exists t : Log, h = h ++ t /\ onlyLast bodyless t ok) as Hstop.
  { intros h ok. exists []. split; [now rewrite app_nil_r|].
    apply onlyLast_never, neverIn_nil. }
  induction fuel as [|fuel IH]; intros startKey h h' o;
    cbn [DeleteRange]; destruct (Equal startKey endKey);
    try (intros H; inv_ret H; now apply Hstop).
  unfold bind at 1.
  destruct (sendDeleteRangeReq c (S fuel) startKey endKey h)
    as [d h1] eqn:D.
  apply sendDeleteRangeReq_served_last in D as (t & -> & Ht).
  destruct d as [[err|[resp actualEnd]]|].
  { intros H; inv_ret H. exists t. split; [reflexivity|].
    now apply onlyLast_never, unserved_bodyless. }
  2:{ intros H; inversion H; subst. exists t. split; [reflexivity|].
      now apply onlyLast_never, unserved_bodyless. }
  destruct Ht as (t0 & loc & -> & H0 & G).
  destruct (RawDeleteRange resp) as [cmdResp|] eqn:B.
  2:{ intros H; inv_ret H. eexists; split; [reflexivity|].
      apply onlyLast_last; [now apply unserved_bodyless|]. reflexivity. }
  assert (neverIn bodyless
            (t0 ++ [EvSendReq (RawDeleteRangeRequest startKey actualEnd)
                              (Region loc) readTimeoutShort (inr resp)]))
    as Hq.
  { apply neverIn_app; [now apply unserved_bodyless|].
    apply neverIn_cons; [|apply neverIn_nil].
    intros (_ & B'). simpl in B'. now rewrite B in B'. }
  destruct (negb (RawDeleteRange_Error cmdResp =? "")%string).
  - intros H; inv_ret H. eexists; split; [reflexivity|].
    now apply onlyLast_never.
  - intros H. apply IH in H as (t' & -> & Ht').
    rewrite <- app_assoc. eexists; split; [reflexivity|].
    now apply onlyLast_app.
Qed.

Lemma Execute_loop_bodyless (c : Cluster) (rangeEndKey : bytes) (fuel : nat) :
  forall (t : DeleteRangeTask) (startKey : bytes) (h h' : Log)
         (o : option (DeleteRangeTask * option error)),
    Execute_loop c fuel t startKey rangeEndKey h = (o, h') ->
    exists tr,
      h' = h ++ tr
      /\ onlyLast bodyless tr
                  (option_map snd o = Some (Some ErrBodyMissing)).
Proof.
  induction fuel as [|fuel IH]; intros t startKey h h' o.
  { intros H; inversion H; subst. exists []. split; [now rewrite app_nil_r|].
    apply onlyLast_never, neverIn_nil. }
  cbn [Execute_loop]. step_loop.
  destruct (on_Done c h).
  { intros H; inv_ret H. exists []. split; [now rewrite app_nil_r|].
    apply onlyLast_never, neverIn_nil. }
  destruct (on_LocateKey c h startKey) as [err|loc].
  { intros H; inv_ret H. eexists; split; [reflexivity|].
    apply onlyLast_never, neverIn_cons; [now simpl|apply neverIn_nil]. }
  set (req := DeleteRangeRequest startKey (taskEndKey loc rangeEndKey)).
  destruct (on_SendReq c _ req (Region loc) ReadTimeoutMedium)
    as [err|resp].
  { intros H; inv_ret H. rewrite app_snoc2. eexists; split; [reflexivity|].
    apply onlyLast_never, neverIn_cons; [now simpl|].
    apply neverIn_cons; [now simpl|apply neverIn_nil]. }
  destruct (GetRegionError resp) as [err|[regionErr|]] eqn:G.
  - intros H; inv_ret H. rewrite app_snoc2. eexists; split; [reflexivity|].
    apply onlyLast_never, unserved_bodyless, unserved_attempt;
      [congruence|apply neverIn_nil].
  - assert (forall e, neverIn bodyless
              [EvLocateKey startKey (inr loc);
               EvSendReq req (Region loc) ReadTimeoutMedium (inr resp);
               EvBackoff BoRegionMiss regionErr e]) as H3
        by (intros e; apply unserved_bodyless, unserved_attempt;
            [congruence|apply unserved_backoff]).
    destruct (on_Backoff c _ BoRegionMiss regionErr) as [err|].
    + intros H; inv_ret H. rewrite app_snoc3. eexists; split; [reflexivity|].
      apply onlyLast_never, H3.
    + intros H. apply IH in H as (tr & -> & Htr).
      rewrite app_snoc3, <- app_assoc. eexists; split; [reflexivity|].
      apply (onlyLast_app _ [_; _; _] tr); [apply H3|exact Htr].
  - destruct (DeleteRange_ resp) as [deleteRangeResp|] eqn:B.
    2:{ intros H; inv_ret H. rewrite app_snoc2.
        eexists; split; [reflexivity|].
        apply (onlyLast_last _ [_]);
          [apply neverIn_cons; [now simpl|apply neverIn_nil]|].
        reflexivity. }
    assert (neverIn bodyless
              [EvLocateKey startKey (inr loc);
               EvSendReq req (Region loc) ReadTimeoutMedium (inr resp)])
      as Hq.
    { apply neverIn_cons; [now simpl|].
      apply neverIn_cons; [|apply neverIn_nil].
      intros (_ & B'). unfold req in B'. simpl in B'. now rewrite B in B'. }
    destruct (negb (DeleteRange_Error deleteRangeResp =? "")%string).
    + intros H; inv_ret H. rewrite app_snoc2.
      eexists; split; [reflexivity|]. now apply onlyLast_never.
    + destruct (Equal (taskEndKey loc rangeEndKey) rangeEndKey).
      * intros H; inv_ret H. rewrite app_snoc2.
        eexists; split; [reflexivity|]. now apply onlyLast_never.
      * intros H. apply IH in H as (tr & -> & Htr).
        rewrite app_snoc2, <- app_assoc. eexists; split; [reflexivity|].
        now apply (onlyLast_app _ [_; _] tr).
Qed.

Lemma Execute_bodyless (c : Cluster) (fuel : nat) (t : DeleteRangeTask)
      (h h' : Log) (o : option (option error)) :
  Execute c fuel t h = (o, h') ->
  exists tr,
    h' = h ++ tr /\ onlyLast bodyless tr (o = Some (Some ErrBodyMissing)).
Proof.
  unfold Execute, bind.
  destruct (Execute_loop c fuel t (startKey t) (endKey t) h)
    as [[r0|] h0] eqn:E; intros H; inv_ret H;
    now apply Execute_loop_bodyless in E.
Qed.

Lemma onlyLast_at (P : Event -> Prop) (h t : Log) (ok : Prop) (t1 : Log)
      (ev : Event) (t2 : Log) :
  onlyLast P t ok -> h ++ t = h ++ t1 ++ ev :: t2 -> P ev -> t2 = [] /\ ok.
Proof. intros Hv E HP. apply app_inv_head in E. now apply (Hv t1 ev t2). Qed.

(** X1. Take any run of [Get], [Put], [Delete], [Scan], [DeleteRange] or
    of the task's [Execute], cut short by the fuel or not.  If its log
    holds a request answered, without region error, by a response that
    lacks the body for that request, this answer is the last event of the
    log (no retry, no further locate or request) and the run has returned
    [ErrBodyMissing]; [Get] returns it with a nil value and [Scan] with
    nil keys and values, whatever was gathered before. *)
Theorem missing_body_is_final (c : Cluster) (fuel : nat) (h h' t1 : Log)
        (ev : Event) (t2 : Log) :
  h' = h ++ t1 ++ ev :: t2 ->
  bodyless ev ->
  (forall k o, Get c fuel k h = (o, h') ->
               t2 = [] /\ o = Some (None, Some ErrBodyMissing))
  /\ (forall k value o, Put c fuel k value h = (o, h') ->
                        t2 = [] /\ o = Some (Some ErrBodyMissing))
  /\ (forall k o, Delete c fuel k h = (o, h') ->
                  t2 = [] /\ o = Some (Some ErrBodyMissing))
  /\ (forall startKey limit o,
         Scan c fuel startKey limit h = (o, h') ->
         t2 = [] /\ o = Some ([], [], Some ErrBodyMissing))
  /\ (forall startKey endKey o,
         DeleteRange c fuel startKey endKey h = (o, h') ->
         t2 = [] /\ o = Some (Some ErrBodyMissing))
  /\ (forall t o,
         Execute c fuel t h = (o, h') ->
         t2 = [] /\ o = Some (Some ErrBodyMissing)).
Proof.
  intros E Hb. repeat split.
  1,2: apply Get_bodyless in H as (t & E' & Hv); rewrite E in E';
       symmetry in E'; now destruct (onlyLast_at _ _ _ _ _ _ _ Hv E' Hb).
  1,2: apply Put_bodyless in H as (t & E' & Hv); rewrite E in E';
       symmetry in E'; now destruct (onlyLast_at _ _ _ _ _ _ _ Hv E' Hb).
  1,2: apply Delete_bodyless in H as (t & E' & Hv); rewrite E in E';
       symmetry in E'; now destruct (onlyLast_at _ _ _ _ _ _ _ Hv E' Hb).
  1,2: apply Scan_bodyless in H as (t & E' & Hv); rewrite E in E';
       symmetry in E'; now destruct (onlyLast_at _ _ _ _ _ _ _ Hv E' Hb).
  1,2: apply DeleteRange_bodyless in H as (t & E' & Hv); rewrite E in E';
       symmetry in E'; now destruct (onlyLast_at _ _ _ _ _ _ _ Hv E' Hb).
  1,2: apply Execute_bodyless in H as (t' & E' & Hv); rewrite E in E';
       symmetry in E'; now destruct (onlyLast_at _ _ _ _ _ _ _ Hv E' Hb).
Qed.

Lemma missing_body_is_final_witness :
  let c := bareCluster threeRegions in
  let a := mkLoc 1 (key "") (key "b") in
  let ev := EvSendReq (RawScanRequest (key "a") 2) 1 readTimeoutShort
                      (inr emptyResponse) in
  let t1 := [EvNewBackoffer; EvLocateKey (key "a") (inr a)] in
  bodyless ev
  /\ snd (Scan c 1 (key "a") 2 []) = [] ++ t1 ++ [ev]
  /\ (@nil Event = []
      /\ fst (Scan c 1 (key "a") 2 [])
         = Some ([], [], Some ErrBodyMissing)).
Proof.
  intros c a ev t1.
  assert (bodyless ev) as Hb by (split; reflexivity).
  split; [exact Hb|]. split; [reflexivity|].
  apply (proj1 (proj2 (proj2 (proj2
           (missing_body_is_final c 1 [] ([] ++ t1 ++ [ev]) t1 ev []
                                  eq_refl Hb))))
         (key "a") 2).
  reflexivity.
Defined.

(* ================================================================== *)
(** ** Where requests go *)

Lemma routed_app (t1 t2 : Log) :
  (forall q, routed q t2) -> forall p, routed p t1 -> routed p (t1 ++ t2).
Proof.
  intros H2. induction t1 as [|ev t1 IH]; intros p H1; simpl; [apply H2|].
  destruct H1 as [H H1]. split; [exact H|now apply IH].
Qed.

Lemma routed_attempt (k : bytes) (req : Request) (loc : KeyLocation)
      (timeout : Timeout) (r : error + Response) (tail : Log) :
  keyOf req = k ->
  (forall q, routed q tail) ->
  forall p, routed p (EvLocateKey k (inr loc)
                        :: EvSendReq req (Region loc) timeout r :: tail).
Proof.
  intros <- Ht p. simpl. split; [exact I|]. split; [eauto|apply Ht].
Qed.

Lemma routed_backoff (typ : backoffType) (msg : string) (r : option error)
      (tail : Log) :
  (forall q, routed q tail) -> forall q, routed q (EvBackoff typ msg r :: tail).
Proof. intros Ht q. simpl. split; [exact I|apply Ht]. Qed.

Lemma routed_nil : forall q, routed q [].
Proof. intros q. exact I. Qed.

(** The calls of the loop of [sendReq], in any run. *)
Lemma sendReq_loop_calls (c : Cluster) (k : bytes) (req : Request)
      (fuel : nat) :
  keyOf req = k ->
  forall h : Log,
    exists t,
      snd (sendReq_loop c fuel k req h) = h ++ t
      /\ Forall (ownCall k req) t
      /\ forall q, routed q t.
Proof.
  intros Hk. induction fuel as [|fuel IH]; intros h.
  { exists []. simpl. rewrite app_nil_r. auto using routed_nil. }
  cbn [sendReq_loop]. step_loop.
  destruct (on_LocateKey c h k) as [err|loc].
  { eexists. split; [reflexivity|]. split.
    - repeat constructor.
    - intros q. simpl. auto. }
  destruct (on_SendReq c _ req (Region loc) readTimeoutShort) as [err|resp].
  { rewrite app_snoc2. eexists. split; [reflexivity|]. split.
    - repeat constructor.
    - apply routed_attempt; auto using routed_nil. }
  destruct (GetRegionError resp) as [err|[regionErr|]].
  - rewrite app_snoc2. eexists. split; [reflexivity|]. split.
    + repeat constructor.
    + apply routed_attempt; auto using routed_nil.
  - destruct (on_Backoff c _ BoRegionMiss regionErr) as [err|].
    + rewrite app_snoc3. eexists. split; [reflexivity|]. split.
      * repeat constructor.
      * apply routed_attempt; auto using routed_backoff, routed_nil.
    + rewrite app_snoc3.
      destruct (IH (h ++ [EvLocateKey k (inr loc);
                          EvSendReq req (Region loc) readTimeoutShort
                                    (inr resp);
                          EvBackoff BoRegionMiss regionErr None]))
        as (t & E & Ho & Hr).
      rewrite E, <- app_assoc. eexists. split; [reflexivity|]. split.
      * simpl. repeat constructor. exact Ho.
      * simpl app. apply routed_attempt; auto using routed_backoff.
  - rewrite app_snoc2. eexists. split; [reflexivity|]. split.
    + repeat constructor.
    + apply routed_attempt; auto using routed_nil.
Qed.

Lemma sendReq_calls (c : Cluster) (fuel : nat) (k : bytes) (req : Request)
      (h : Log) :
  keyOf req = k ->
  exists t,
    snd (sendReq c fuel k req h) = h ++ EvNewBackoffer :: t
    /\ Forall (ownCall k req) t
    /\ forall q, routed q (EvNewBackoffer :: t).
Proof.
  intros Hk. unfold sendReq. step_loop.
  destruct (sendReq_loop_calls c k req fuel Hk (h ++ [EvNewBackoffer]))
    as (t & E & Ho & Hr).
  exists t. rewrite E, <- app_assoc. split; [reflexivity|].
  split; [exact Ho|]. intros q. simpl. split; [exact I|apply Hr].
Qed.

Lemma Get_log (c : Cluster) (fuel : nat) (k : bytes) (h : Log) :
  snd (Get c fuel k h) = snd (sendReq c fuel k (RawGetRequest k) h).
Proof.
  unfold Get, bind at 1.
  destruct (sendReq c fuel k (RawGetRequest k) h)
    as [[[err|[resp loc]]|] h']; simpl; try reflexivity.
  destruct (RawGet resp) as [cmdResp|]; [|reflexivity].
  destruct (negb _); [reflexivity|]. now destruct (len _ =? 0).
Qed.

Lemma Delete_log (c : Cluster) (fuel : nat) (k : bytes) (h : Log) :
  snd (Delete c fuel k h) = snd (sendReq c fuel k (RawDeleteRequest k) h).
Proof.
  unfold Delete, bind at 1.
  destruct (sendReq c fuel k (RawDeleteRequest k) h)
    as [[[err|[resp loc]]|] h']; simpl; try reflexivity.
  destruct (RawDelete resp) as [cmdResp|]; [|reflexivity].
  now destruct (negb _).
Qed.

Lemma Put_log (c : Cluster) (fuel : nat) (k value : bytes) (h : Log) :
  value <> [] ->
  snd (Put c fuel k value h)
  = snd (sendReq c fuel k (RawPutRequest k value) h).
Proof.
  intros Hv. unfold Put. destruct (len value =? 0) eqn:E.
  { apply len_zero in E. contradiction. }
  unfold bind at 1.
  destruct (sendReq c fuel k (RawPutRequest k value) h)
    as [[[err|[resp loc]]|] h']; simpl; try reflexivity.
  destruct (RawPut resp) as [cmdResp|]; [|reflexivity].
  now destruct (negb _).
Qed.

(** X2. In any run, [Get], [Delete] and [Put] of a non-empty value take
    exactly one new backoffer, first of all; after it they only locate
    their own key, send their own request (for [Put] with the key and
    the value given) with the short timeout, and signal region misses:
    no other key is looked up and no other request is sent. *)
Theorem single_key_calls (c : Cluster) (fuel : nat) (k value : bytes)
        (h : Log) :
  (exists t, snd (Get c fuel k h) = h ++ EvNewBackoffer :: t
             /\ Forall (ownCall k (RawGetRequest k)) t)
  /\ (exists t, snd (Delete c fuel k h) = h ++ EvNewBackoffer :: t
                /\ Forall (ownCall k (RawDeleteRequest k)) t)
  /\ (value <> [] ->
      exists t, snd (Put c fuel k value h) = h ++ EvNewBackoffer :: t
                /\ Forall (ownCall k (RawPutRequest k value)) t).
Proof.
  split; [|split].
  - rewrite Get_log.
    destruct (sendReq_calls c fuel k (RawGetRequest k) h eq_refl)
      as (t & E & Ho & _). eauto.
  - rewrite Delete_log.
    destruct (sendReq_calls c fuel k (RawDeleteRequest k) h eq_refl)
      as (t & E & Ho & _). eauto.
  - intros Hv. rewrite (Put_log c fuel k value h Hv).
    destruct (sendReq_calls c fuel k (RawPutRequest k value) h eq_refl)
      as (t & E & Ho & _). eauto.
Qed.

Lemma single_key_calls_witness :
  exists t,
    snd (Put (sim threeRegions someData "" 1 2 None) 3 (key "a") (key "v") [])
    = [] ++ EvNewBackoffer :: t
    /\ Forall (ownCall (key "a") (RawPutRequest (key "a") (key "v"))) t.
Proof.
  apply (single_key_calls (sim threeRegions someData "" 1 2 None) 3
                          (key "a") (key "v") []).
  discriminate.
Defined.

Lemma sendDeleteRangeReq_loop_routed (c : Cluster) (startKey endKey : bytes)
      (fuel : nat) :
  forall h : Log,
    exists t,
      snd (sendDeleteRangeReq_loop c fuel startKey endKey h) = h ++ t
      /\ forall q, routed q t.
Proof.
  induction fuel as [|fuel IH]; intros h.
  { exists []. simpl. rewrite app_nil_r. auto using routed_nil. }
  cbn [sendDeleteRangeReq_loop]. step_loop.
  destruct (on_LocateKey c h startKey) as [err|loc].
  { eexists. split; [reflexivity|]. intros q. simpl. auto. }
  destruct (on_SendReq c _ _ (Region loc) readTimeoutShort) as [err|resp].
  { rewrite app_snoc2. eexists. split; [reflexivity|].
    apply routed_attempt; auto using routed_nil. }
  destruct (GetRegionError resp) as [err|[regionErr|]].
  - rewrite app_snoc2. eexists. split; [reflexivity|].
    apply routed_attempt; auto using routed_nil.
  - destruct (on_Backoff c _ BoRegionMiss regionErr) as [err|].
    + rewrite app_snoc3. eexists. split; [reflexivity|].
      apply routed_attempt; auto using routed_backoff, routed_nil.
    + rewrite app_snoc3.
      destruct (IH (h ++ [EvLocateKey startKey (inr loc);
                          EvSendReq (RawDeleteRangeRequest
                                       startKey (actualEndKey loc endKey))
                                    (Region loc) readTimeoutShort (inr resp);
                          EvBackoff BoRegionMiss regionErr None]))
        as (t & E & Hr).
      rewrite E, <- app_assoc. eexists. split; [reflexivity|].
      simpl app. apply routed_attempt; auto using routed_backoff.
  - rewrite app_snoc2. eexists. split; [reflexivity|].
    apply routed_attempt; auto using routed_nil.
Qed.

Lemma sendDeleteRangeReq_routed (c : Cluster) (fuel : nat)
      (startKey endKey : bytes) (h : Log) :
  exists t,
    snd (sendDeleteRangeReq c fuel startKey endKey h) = h ++ t
    /\ forall q, routed q t.
Proof.
  unfold sendDeleteRangeReq. step_loop.
  destruct (sendDeleteRangeReq_loop_routed c startKey endKey fuel
                                           (h ++ [EvNewBackoffer]))
    as (t & E & Hr).
  exists (EvNewBackoffer :: t). rewrite E, <- app_assoc.
  split; [reflexivity|]. intros q. simpl. split; [exact I|apply Hr].
Qed.

Lemma Scan_loop_routed (c : Cluster) (limit : Z) (fuel : nat) :
  forall (startKey : bytes) (keys values : list bytes) (h : Log),
    exists t,
      snd (Scan_loop c fuel limit startKey keys values h) = h ++ t
      /\ forall q, routed q t.
Proof.
  assert (forall h : Log, exists t : Log, h = h ++ t /\ forall q, routed q t)
    as Hstop.
  { intros h. exists []. rewrite app_nil_r. auto using routed_nil. }
  induction fuel as [|fuel IH]; intros startKey keys values h;
    cbn [Scan_loop]; destruct (negb (len keys <? limit));
    try apply Hstop.
  unfold bind at 1.
  destruct (sendReq_calls c (S fuel) startKey
              (RawScanRequest startKey (uint32 (limit - len keys))) h eq_refl)
    as (t & E & _ & Hr).
  destruct (sendReq c (S fuel) startKey _ h) as [[[err|[resp loc]]|] h1];
    simpl in E; subst h1; try (simpl; eauto; fail).
  destruct (RawScan resp) as [cmdResp|]; [|simpl; eauto].
  destruct (len (EndKey loc) =? 0); [simpl; eauto|].
  destruct (IH (EndKey loc)
               (fst (appendPairs (keys, values) (Kvs cmdResp)))
               (snd (appendPairs (keys, values) (Kvs cmdResp)))
               (h ++ EvNewBackoffer :: t)) as (t' & E' & Hr').
  rewrite E', <- app_assoc. eexists. split; [reflexivity|].
  intros q. now apply routed_app.
Qed.

Lemma DeleteRange_routed (c : Cluster) (endKey : bytes) (fuel : nat) :
  forall (startKey : bytes) (h : Log),
    exists t,
      snd (DeleteRange c fuel startKey endKey h) = h ++ t
      /\ forall q, routed q t.
Proof.
  assert (forall h : Log, exists t : Log, h = h ++ t /\ forall q, routed q t)
    as Hstop.
  { intros h. exists []. rewrite app_nil_r. auto using routed_nil. }
  induction fuel as [|fuel IH]; intros startKey h;
    cbn [DeleteRange]; destruct (Equal startKey endKey);
    try apply Hstop.
  unfold bind at 1.
  destruct (sendDeleteRangeReq_routed c (S fuel) startKey endKey h)
    as (t & E & Hr).
  destruct (sendDeleteRangeReq c (S fuel) startKey endKey h)
    as [[[err|[resp actualEnd]]|] h1];
    simpl in E; subst h1; try (simpl; eauto; fail).
  destruct (RawDeleteRange resp) as [cmdResp|]; [|simpl; eauto].
  destruct (negb _); [simpl; eauto|].
  destruct (IH actualEnd (h ++ t)) as (t' & E' & Hr').
  rewrite E', <- app_assoc. eexists. split; [reflexivity|].
  intros q. now apply routed_app.
Qed.

Lemma Execute_loop_routed (c : Cluster) (rangeEndKey : bytes) (fuel : nat) :
  forall (t : DeleteRangeTask) (startKey : bytes) (h : Log),
    exists tr,
      snd (Execute_loop c fuel t startKey rangeEndKey h) = h ++ tr
      /\ forall q, routed q tr.
Proof.
  induction fuel as [|fuel IH]; intros t startKey h.
  { exists []. simpl. rewrite app_nil_r. auto using routed_nil. }
  cbn [Execute_loop]. step_loop.
  destruct (on_Done c h).
  { exists []. simpl. rewrite app_nil_r. auto using routed_nil. }
  destruct (on_LocateKey c h startKey) as [err|loc].
  { eexists. split; [reflexivity|]. intros q. simpl. auto. }
  destruct (on_SendReq c _ _ (Region loc) ReadTimeoutMedium) as [err|resp].
  { rewrite app_snoc2. eexists. split; [reflexivity|].
    apply routed_attempt; auto using routed_nil. }
  destruct (GetRegionError resp) as [err|[regionErr|]].
  - rewrite app_snoc2. eexists. split; [reflexivity|].
    apply routed_attempt; auto using routed_nil.
  - destruct (on_Backoff c _ BoRegionMiss regionErr) as [err|].
    + rewrite app_snoc3. eexists. split; [reflexivity|].
      apply routed_attempt; auto using routed_backoff, routed_nil.
    + rewrite app_snoc3.
      destruct (IH t startKey
                   (h ++ [EvLocateKey startKey (inr loc);
                          EvSendReq (DeleteRangeRequest
                                       startKey (taskEndKey loc rangeEndKey))
                                    (Region loc) ReadTimeoutMedium (inr resp);
                          EvBackoff BoRegionMiss regionErr None]))
        as (tr & E & Hr).
      rewrite E, <- app_assoc. eexists. split; [reflexivity|].
      simpl app. apply routed_attempt; auto using routed_backoff.
  - assert (forall q, routed q
              [EvLocateKey startKey (inr loc);
               EvSendReq (DeleteRangeRequest
                            startKey (taskEndKey loc rangeEndKey))
                         (Region loc) ReadTimeoutMedium (inr resp)]) as H2
        by (apply routed_attempt; auto using routed_nil).
    rewrite app_snoc2.
    destruct (DeleteRange_ resp) as [deleteRangeResp|]; [|simpl; eauto].
    destruct (negb _); [simpl; eauto|].
    destruct (Equal (taskEndKey loc rangeEndKey) rangeEndKey);
      [simpl; eauto|].
    destruct (IH (incr_regions t) (taskEndKey loc rangeEndKey)
                 (h ++ [EvLocateKey startKey (inr loc);
                        EvSendReq (DeleteRangeRequest
                                     startKey (taskEndKey loc rangeEndKey))
                                  (Region loc) ReadTimeoutMedium (inr resp)]))
      as (tr & E & Hr).
    rewrite E, <- app_assoc. eexists. split; [reflexivity|].
    intros q. now apply routed_app.
Qed.

Lemma Execute_log (c : Cluster) (fuel : nat) (t : DeleteRangeTask) (h : Log) :
  snd (Execute c fuel t h)
  = snd (Execute_loop c fuel t (startKey t) (endKey t) h).
Proof.
  unfold Execute, bind.
  now destruct (Execute_loop c fuel t (startKey t) (endKey t) h) as [[r|] h'].
Qed.

(** X3. In any run of any of the six operations, every request is sent
    right after a successful locate of the key the request is about (its
    key, or the start key of its range), and to the region of the location
    which that locate returned: no request goes to a region found for
    another key or by an earlier lookup. *)
Theorem requests_follow_locate (c : Cluster) (fuel : nat) (k value : bytes)
        (limit : Z) (upTo : bytes) (task : DeleteRangeTask) (h : Log) :
  (exists t, snd (Get c fuel k h) = h ++ t /\ routed None t)
  /\ (exists t, snd (Put c fuel k value h) = h ++ t /\ routed None t)
  /\ (exists t, snd (Delete c fuel k h) = h ++ t /\ routed None t)
  /\ (exists t, snd (Scan c fuel k limit h) = h ++ t /\ routed None t)
  /\ (exists t, snd (DeleteRange c fuel k upTo h) = h ++ t
                /\ routed None t)
  /\ (exists t, snd (Execute c fuel task h) = h ++ t /\ routed None t).
Proof.
  assert (exists t : Log, h = h ++ t /\ routed None t) as Hstop.
  { exists []. rewrite app_nil_r. now split. }
  repeat split.
  - rewrite Get_log.
    destruct (sendReq_calls c fuel k (RawGetRequest k) h eq_refl)
      as (t & E & _ & Hr). eauto.
  - destruct value as [|b value]; [exact Hstop|].
    rewrite Put_log by discriminate.
    destruct (sendReq_calls c fuel k (RawPutRequest k (b :: value)) h eq_refl)
      as (t & E & _ & Hr). eauto.
  - rewrite Delete_log.
    destruct (sendReq_calls c fuel k (RawDeleteRequest k) h eq_refl)
      as (t & E & _ & Hr). eauto.
  - unfold Scan. destruct (limit >? MaxRawKVScanLimit); [exact Hstop|].
    destruct (Scan_loop_routed c limit fuel k [] [] h) as (t & E & Hr). eauto.
  - destruct (DeleteRange_routed c upTo fuel k h) as (t & E & Hr). eauto.
  - rewrite Execute_log.
    destruct (Execute_loop_routed c (endKey task) fuel task
                                  (startKey task) h) as (t & E & Hr).
    eauto.
Qed.

(* ================================================================== *)
(** ** What [Scan] asks for and what it returns *)

Lemma gathered_cons (ev : Event) (t : Log) :
  gathered (ev :: t) = gathered [ev] ++ gathered t.
Proof.
  destruct ev as [| |req region timeout r|]; try reflexivity.
  destruct req; try reflexivity. destruct r as [err|resp]; try reflexivity.
  simpl.
  destruct (GetRegionError resp) as [err|[regionErr|]]; try reflexivity.
  destruct (RawScan resp); [|reflexivity]. now rewrite app_nil_r.
Qed.

Lemma gathered_app (t1 t2 : Log) :
  gathered (t1 ++ t2) = gathered t1 ++ gathered t2.
Proof.
  induction t1 as [|ev t1 IH]; [reflexivity|].
  change ((ev :: t1) ++ t2) with (ev :: (t1 ++ t2)).
  rewrite (gathered_cons ev (t1 ++ t2)), (gathered_cons ev t1), IH.
  now rewrite app_assoc.
Qed.

Lemma asksRemaining_quiet (limit got : Z) (ev : Event) (t : Log) :
  gathered [ev] = [] ->
  match ev with
  | EvSendReq req _ timeout _ =>
      timeout = readTimeoutShort
      /\ 0 < limit - got
      /\ exists s, req = RawScanRequest s (limit - got)
  | _ => True
  end ->
  asksRemaining limit got t -> asksRemaining limit got (ev :: t).
Proof.
  intros G Hev Ht. cbn [asksRemaining]. split; [exact Hev|].
  rewrite G. change (len (@nil KvPair)) with 0. now rewrite Z.add_0_r.
Qed.

Lemma asksRemaining_app (limit : Z) (t1 t2 : Log) :
  forall got,
    asksRemaining limit got t1 ->
    asksRemaining limit (got + len (gathered t1)) t2 ->
    asksRemaining limit got (t1 ++ t2).
Proof.
  induction t1 as [|ev t1 IH]; intros got H1 H2.
  - change (len (gathered [])) with 0 in H2. now rewrite Z.add_0_r in H2.
  - cbn [asksRemaining app] in *. destruct H1 as [Hev H1].
    split; [exact Hev|]. apply IH; [exact H1|].
    rewrite (gathered_cons ev t1), len_app, Z.add_assoc in H2. exact H2.
Qed.

(** One dispatcher call of [Scan]: its requests ask for what is left,
    and it brings the pairs of the response it returns, if any. *)
Lemma sendReq_loop_asks (c : Cluster) (limit got : Z) (s : bytes)
      (fuel : nat) :
  0 < limit - got ->
  forall (h h' : Log) (o : option (error + Response * KeyLocation)),
    sendReq_loop c fuel s (RawScanRequest s (limit - got)) h = (o, h') ->
    exists t,
      h' = h ++ t
      /\ asksRemaining limit got t
      /\ gathered t
         = match o with
           | Some (inr (resp, _)) =>
               match RawScan resp with
               | Some cmdResp => Kvs cmdResp
               | None => []
               end
           | _ => []
           end.
Proof.
  intros Hpos. induction fuel as [|fuel IH]; intros h h' o.
  { intros H; inversion H; subst. exists []. now rewrite app_nil_r. }
  cbn [sendReq_loop]. step_loop.
  assert (forall region r,
             match EvSendReq (RawScanRequest s (limit - got)) region
                             readTimeoutShort r with
             | EvSendReq req _ timeout _ =>
                 timeout = readTimeoutShort
                 /\ 0 < limit - got
                 /\ exists s0, req = RawScanRequest s0 (limit - got)
             | _ => True
             end) as Hsend by (intros; eauto).
  destruct (on_LocateKey c h s) as [err|loc].
  { intros H; inversion H; subst. eexists; split; [reflexivity|].
    split; [|reflexivity]. now apply asksRemaining_quiet. }
  destruct (on_SendReq c _ _ (Region loc) readTimeoutShort) as [err|resp].
  { intros H; inversion H; subst. rewrite app_snoc2.
    eexists; split; [reflexivity|]. split; [|reflexivity].
    apply asksRemaining_quiet; [reflexivity|exact I|].
    apply asksRemaining_quiet; [reflexivity|repeat split; eauto|exact I]. }
  destruct (GetRegionError resp) as [err|[regionErr|]] eqn:G.
  - intros H; inversion H; subst. rewrite app_snoc2.
    eexists; split; [reflexivity|].
    assert (gathered [EvSendReq (RawScanRequest s (limit - got)) (Region loc)
                                readTimeoutShort (inr resp)] = []) as E
        by (simpl; now rewrite G).
    split.
    + apply asksRemaining_quiet; [reflexivity|exact I|].
      apply asksRemaining_quiet; [exact E|repeat split; eauto|exact I].
    + simpl. now rewrite G.
  - assert (gathered [EvSendReq (RawScanRequest s (limit - got)) (Region loc)
                                readTimeoutShort (inr resp)] = []) as E
        by (simpl; now rewrite G).
    destruct (on_Backoff c _ BoRegionMiss regionErr) as [err|].
    + intros H; inversion H; subst. rewrite app_snoc3.
      eexists; split; [reflexivity|]. split.
      * apply asksRemaining_quiet; [reflexivity|exact I|].
        apply asksRemaining_quiet; [exact E|repeat split; eauto|].
        now apply asksRemaining_quiet.
      * simpl. now rewrite G.
    + intros H. apply IH in H as (t & -> & Ht & Hg).
      rewrite app_snoc3, <- app_assoc.
      eexists; split; [reflexivity|]. split.
      * simpl app. apply asksRemaining_quiet; [reflexivity|exact I|].
        apply asksRemaining_quiet; [exact E|repeat split; eauto|].
        now apply asksRemaining_quiet.
      * rewrite gathered_app, Hg. simpl. now rewrite G.
  - intros H; inversion H; subst. rewrite app_snoc2.
    eexists; split; [reflexivity|]. split.
    + apply asksRemaining_quiet; [reflexivity|exact I|].
      cbn [asksRemaining]. split; [repeat split; eauto|exact I].
    + simpl. rewrite G. destruct (RawScan resp); [|reflexivity].
      now rewrite app_nil_r.
Qed.

Lemma sendReq_asks (c : Cluster) (limit got : Z) (s : bytes) (fuel : nat)
      (h h' : Log) (o : option (error + Response * KeyLocation)) :
  0 < limit - got ->
  sendReq c fuel s (RawScanRequest s (limit - got)) h = (o, h') ->
  exists t,
    h' = h ++ t
    /\ asksRemaining limit got t
    /\ gathered t
       = match o with
         | Some (inr (resp, _)) =>
             match RawScan resp with
             | Some cmdResp => Kvs cmdResp
             | None => []
             end
         | _ => []
         end.
Proof.
  intros Hpos. unfold sendReq. step_loop. intros H.
  apply (sendReq_loop_asks c limit got s fuel Hpos) in H as (t & -> & Ht & Hg).
  exists (EvNewBackoffer :: t). rewrite <- app_assoc.
  split; [reflexivity|]. split; [|exact Hg].
  now apply asksRemaining_quiet.
Qed.

(** The walk of [Scan]: what it asks for, and what it returns. *)
Lemma Scan_loop_gathers (c : Cluster) (limit : Z) (fuel : nat) :
  limit <= MaxRawKVScanLimit ->
  forall (startKey : bytes) (keys values : list bytes) (h h' : Log)
         (o : option (list bytes * list bytes * option error)),
    Scan_loop c fuel limit startKey keys values h = (o, h') ->
    exists t,
      h' = h ++ t
      /\ asksRemaining limit (len keys) t
      /\ match o with
         | Some (ks, vs, None) =>
             ks = keys ++ map Key (gathered t)
             /\ vs = values ++ map Value (gathered t)
         | Some (ks, vs, Some _) => ks = [] /\ vs = []
         | None => True
         end.
Proof.
  intros Hmax. induction fuel as [|fuel IH];
    intros startKey keys values h h' o; cbn [Scan_loop];
    (destruct (Z.ltb_spec (len keys) limit) as [Hlt|Hge]; cbn [negb];
     [|intros H; inv_ret H; exists []; simpl;
       now rewrite !app_nil_r]).
  { intros H; inversion H; subst. exists []. now rewrite app_nil_r. }
  unfold bind at 1.
  rewrite uint32_small by (pose proof (len_nonneg keys); lia).
  destruct (sendReq c (S fuel) startKey _ h) as [d h1] eqn:D.
  apply (sendReq_asks c limit (len keys) startKey) in D
    as (t & -> & Ht & Hg); [|lia].
  destruct d as [[err|[resp loc]]|].
  { intros H; inv_ret H. now exists t. }
  2:{ intros H; inversion H; subst. now exists t. }
  destruct (RawScan resp) as [cmdResp|].
  2:{ intros H; inv_ret H. now exists t. }
  rewrite appendPairs_spec. cbn [fst snd].
  destruct (len (EndKey loc) =? 0).
  - intros H; inv_ret H. exists t. rewrite Hg. auto.
  - intros H. apply IH in H as (t' & -> & Ht' & Ho).
    rewrite <- app_assoc. eexists; split; [reflexivity|]. split.
    + apply asksRemaining_app; [exact Ht|].
      rewrite Hg. now rewrite len_app, len_map in Ht'.
    + destruct o as [[[ks vs] [err|]]|]; auto.
      rewrite gathered_app, Hg, !map_app, !app_assoc. exact Ho.
Qed.

(** The walk of [Scan] over a tiling comes to an end: from a key inside
    location [l], with fuel for the locations that are left and for the
    signals of one backoffer, the loop returns. *)
Lemma Scan_loop_returns (c : Cluster) (layout : list KeyLocation) (n : nat)
      (limit : Z) (rest : list KeyLocation) :
  locates c layout ->
  exhaustsBy c n ->
  forall (pre : list KeyLocation) (l : KeyLocation) (s : bytes)
         (keys values : list bytes) (h : Log) (fuel : nat),
    layout = pre ++ l :: rest ->
    ends_before pre s ->
    Contains l s = true ->
    tilesb (StartKey l) (l :: rest) = true ->
    (List.length rest + n < fuel)%nat ->
    exists r h', Scan_loop c fuel limit s keys values h = (Some r, h').
Proof.
  intros Hloc Hbo.
  induction rest as [|l' rest IH];
    intros pre l s keys values h fuel EL Hb Hc Ht Hf;
    (destruct fuel as [|fuel]; [lia|]);
    cbn [Scan_loop];
    (destruct (negb (len keys <? limit)); [unfold ret; eauto|]);
    unfold bind at 1;
    (destruct (sendReq_returns c n (S fuel) s
                               (RawScanRequest s (uint32 (limit - len keys)))
                               h Hbo)
      as (r0 & t & E & _ & Hserved); [lia|]);
    rewrite E;
    (destruct r0 as [err|[resp loc]]; [unfold ret; eauto|]);
    (destruct (RawScan resp) as [cmdResp|]; [|unfold ret; eauto]);
    (destruct (len (EndKey loc) =? 0) eqn:El; [unfold ret; eauto|]);
    destruct (Hserved resp loc eq_refl) as (h1 & h2 & L1 & _);
    rewrite Hloc, EL, (locateIn_at pre l _ s Hb Hc) in L1;
    inversion L1; subst loc;
    apply tilesb_cons in Ht as [_ Ht].
  - (* the last location has no upper end *)
    rewrite Ht in El. discriminate.
  - destruct Ht as [Hne Ht]. pose proof (klt_nonempty _ _ Hne) as Hn.
    apply Contains_iff in Hc as [Hs Hin].
    destruct Hin as [Hin|Hin]; [|contradiction].
    pose proof (tilesb_cons _ _ _ Ht) as [Hs' Ht'].
    apply (IH (pre ++ [l]) l').
    + now rewrite <- app_assoc.
    + apply (ends_before_snoc pre l s); auto using kle_refl, klt_kle.
    + apply Contains_iff. rewrite Hs'. split; [apply kle_refl|].
      destruct rest; [now right|left; apply Ht'].
    + now rewrite Hs'.
    + simpl in Hf. lia.
Qed.

(** X4. [Scan] returns exactly what the store sent.  Whenever it returns:
    with a nil error, the keys and the values are those of the pairs of
    all scan responses received without region error, in the order of
    arrival, none dropped, repeated or cut off, so that there are as many
    values as keys; with an error, the keys and the values are nil,
    whatever was gathered.  And it does return: when the locator answers
    from a layout that tiles the keys and a backoffer gives up by its
    [n]-th signal, fuel for one turn per location and [n] signals gives a
    result, whatever the store answers. *)
Theorem Scan_returns_gathered (c : Cluster) (fuel : nat) (startKey : bytes)
        (limit : Z) (h : Log) :
  (forall (h' : Log) (ks vs : list bytes) (err : option error),
      Scan c fuel startKey limit h = (Some (ks, vs, err), h') ->
      exists t,
        h' = h ++ t
        /\ List.length ks = List.length vs
        /\ match err with
           | None => ks = map Key (gathered t) /\ vs = map Value (gathered t)
           | Some _ => ks = [] /\ vs = []
           end)
  /\ (forall (layout : list KeyLocation) (n : nat),
        tilesb [] layout = true ->
        locates c layout ->
        exhaustsBy c n ->
        (List.length layout + n <= fuel)%nat ->
        exists r h', Scan c fuel startKey limit h = (Some r, h')).
Proof.
  unfold Scan. split.
  - intros h' ks vs err.
    destruct (Z.gtb_spec limit MaxRawKVScanLimit) as [G|G].
    + intros H; inv_ret H. exists []. now rewrite app_nil_r.
    + intros H.
      apply Scan_loop_gathers in H as (t & -> & _ & Ho); [|exact G].
      exists t. split; [reflexivity|].
      destruct err as [e|]; destruct Ho as [-> ->]; simpl.
      * auto.
      * rewrite !length_map. auto.
  - intros layout n Ht Hloc Hbo Hf.
    destruct (limit >? MaxRawKVScanLimit); [unfold ret; eauto|].
    destruct (tiling_locate layout [] startKey Ht (kle_nil _))
      as (pre & l & rest & EL & Hb & Hc & Htl).
    apply (Scan_loop_returns c layout n limit rest Hloc Hbo pre l); auto.
    rewrite EL, length_app in Hf. simpl in Hf. lia.
Qed.

Lemma Scan_returns_gathered_witness :
  (exists t,
      snd (Scan (sim threeRegions someData "" 1 2 None) 5 (key "a") 3 [])
      = [] ++ t
      /\ List.length [key "a"; key "ab"; key "b"]
         = List.length [key "1"; key "2"; key "3"]
      /\ ([key "a"; key "ab"; key "b"] = map Key (gathered t)
          /\ [key "1"; key "2"; key "3"] = map Value (gathered t)))
  /\ (exists r h',
        Scan (sim threeRegions someData "" 1 2 None) 5 (key "a") 3 []
        = (Some r, h')).
Proof.
  split.
  - apply (proj1 (Scan_returns_gathered
                    (sim threeRegions someData "" 1 2 None) 5 (key "a") 3 [])
                 _ _ _ None).
    reflexivity.
  - apply (proj2 (Scan_returns_gathered
                    (sim threeRegions someData "" 1 2 None) 5 (key "a") 3 [])
                 threeRegions 2%nat).
    + reflexivity.
    + apply sim_locates.
    + apply sim_exhaustsBy.
    + simpl. lia.
Defined.

(** X5. In any run of [Scan], every request sent is a scan request with
    the short timeout whose limit is what is left of [limit] after the
    pairs that the responses so far have brought, and this is positive:
    [Scan] never asks for pairs once [limit] of them are there, and never
    for more than are missing. *)
Theorem Scan_asks_remaining (c : Cluster) (fuel : nat) (startKey : bytes)
        (limit : Z) (h : Log) :
  exists t,
    snd (Scan c fuel startKey limit h) = h ++ t
    /\ asksRemaining limit 0 t.
Proof.
  unfold Scan. destruct (Z.gtb_spec limit MaxRawKVScanLimit) as [G|G].
  - exists []. simpl. now rewrite app_nil_r.
  - destruct (Scan_loop c fuel limit startKey [] [] h) as [o h'] eqn:E.
    apply Scan_loop_gathers in E as (t & -> & Ht & _); [|exact G].
    exists t. now split.
Qed.

(* ================================================================== *)
(** ** The ranges of the delete-range requests *)

Lemma actualEndKey_le (loc : KeyLocation) (e : bytes) :
  kle (actualEndKey loc e) e.
Proof. rewrite actualEndKey_clampRule. apply clampRule_le. Qed.

Lemma actualEndKey_after (loc : KeyLocation) (cur e : bytes) :
  Contains loc cur = true -> klt cur e -> klt cur (actualEndKey loc e).
Proof.
  intros Hc Hlt. rewrite actualEndKey_clampRule.
  apply Contains_iff in Hc as [_ Hc]. unfold clampRule, minKey.
  destruct (EndKey loc) as [|x xs]; [exact Hlt|].
  destruct Hc as [Hc|Hc]; [|discriminate].
  now destruct (Compare e (x :: xs) <=? 0).
Qed.

Lemma taskEndKey_bounds (loc : KeyLocation) (cur e : bytes) :
  Contains loc cur = true -> kle cur e ->
  kle cur (taskEndKey loc e) /\ kle (taskEndKey loc e) e.
Proof.
  intros Hc Hle. unfold taskEndKey.
  destruct (Contains loc e) eqn:He; [split; [exact Hle|apply kle_refl]|].
  apply Contains_iff in Hc as [Hs Hc].
  assert (EndKey loc <> [] /\ kle (EndKey loc) e) as [Hn Hend].
  { unfold Contains in He. apply andb_false_iff in He as [He|He].
    - apply Compare_le_false in He. exfalso.
      eapply klt_not_kle; [exact He|]. eapply kle_trans; eauto.
    - apply orb_false_iff in He as [H1 H2]. apply Compare_lt_false in H1.
      split; [|exact H1]. intros E. apply len_zero in E. congruence. }
  destruct Hc as [Hc|Hc]; [|contradiction].
  split; [now apply klt_kle|exact Hend].
Qed.

Ltac trail H :=
  repeat first [ apply Forall_nil
               | apply Forall_cons; [first [exact I | apply H; assumption
                                            | apply H] |] ].

(** One call of [sendDeleteRangeReq] from the cursor [cur]. *)
Lemma sendDeleteRangeReq_loop_within (c : Cluster) (cur e : bytes)
      (fuel : nat) :
  forall (h h' : Log) (o : option (error + Response * bytes)),
    sendDeleteRangeReq_loop c fuel cur e h = (o, h') ->
    exists t,
      h' = h ++ t
      /\ Forall (endsWithin e) t
      /\ match o with
         | Some (inr (_, actualEnd)) => kle actualEnd e
         | _ => True
         end
      /\ (soundLocator c -> klt cur e ->
          Forall (rawWithin cur e) t
          /\ match o with
             | Some (inr (_, actualEnd)) => klt cur actualEnd
             | _ => True
             end).
Proof.
  induction fuel as [|fuel IH]; intros h h' o.
  { intros H; inversion H; subst. exists []. rewrite app_nil_r.
    repeat split; auto. }
  cbn [sendDeleteRangeReq_loop]. step_loop.
  destruct (on_LocateKey c h cur) as [err|loc] eqn:L.
  { intros H; inversion H; subst. eexists; split; [reflexivity|].
    split; [trail I|]. split; [exact I|]. intros _ _.
    split; [trail I|exact I]. }
  assert (forall r, endsWithin e
                      (EvSendReq (RawDeleteRangeRequest cur (actualEndKey loc e))
                                 (Region loc) readTimeoutShort r)) as He.
  { intros r. split; [reflexivity|].
    exists cur, (actualEndKey loc e). split; [reflexivity|].
    apply actualEndKey_le. }
  assert (soundLocator c -> klt cur e ->
          forall r, rawWithin cur e
                      (EvSendReq (RawDeleteRangeRequest cur (actualEndKey loc e))
                                 (Region loc) readTimeoutShort r)) as Hw.
  { intros Hs Hlt r. exists cur, (actualEndKey loc e).
    split; [reflexivity|]. split; [apply kle_refl|].
    split; [|apply actualEndKey_le].
    apply actualEndKey_after; [|exact Hlt]. exact (Hs h cur loc L). }
  destruct (on_SendReq c _ _ (Region loc) readTimeoutShort) as [err|resp].
  { intros H; inversion H; subst. rewrite app_snoc2.
    eexists; split; [reflexivity|].
    split; [trail He|]. split; [exact I|].
    intros Hs Hlt. split; [trail Hw|exact I]. }
  destruct (GetRegionError resp) as [err|[regionErr|]].
  - intros H; inversion H; subst. rewrite app_snoc2.
    eexists; split; [reflexivity|].
    split; [trail He|]. split; [exact I|].
    intros Hs Hlt. split; [trail Hw|exact I].
  - destruct (on_Backoff c _ BoRegionMiss regionErr) as [err|].
    + intros H; inversion H; subst. rewrite app_snoc3.
      eexists; split; [reflexivity|].
      split; [trail He|]. split; [exact I|].
      intros Hs Hlt. split; [trail Hw|exact I].
    + intros H. apply IH in H as (t & -> & Ht & Ho & Hsound).
      rewrite app_snoc3, <- app_assoc.
      eexists; split; [reflexivity|]. simpl app.
      split; [trail He; exact Ht|].
      split; [exact Ho|].
      intros Hs Hlt. destruct (Hsound Hs Hlt) as [Ht' Ho'].
      split; [|exact Ho']. trail Hw. exact Ht'.
  - intros H; inversion H; subst. rewrite app_snoc2.
    eexists; split; [reflexivity|].
    split; [trail He|].
    split; [apply actualEndKey_le|].
    intros Hs Hlt. split; [trail Hw|].
    apply actualEndKey_after; [|exact Hlt]. exact (Hs h cur loc L).
Qed.

Lemma rawWithin_from (lo cur e : bytes) (ev : Event) :
  kle lo cur -> rawWithin cur e ev -> rawWithin lo e ev.
Proof.
  intros Hlo. destruct ev as [| |req region timeout r|]; simpl; auto.
  intros (a & b & -> & H1 & H2 & H3). exists a, b.
  repeat split; auto. eapply kle_trans; eauto.
Qed.

Lemma DeleteRange_requests (c : Cluster) (lo e : bytes) (fuel : nat) :
  forall (cur : bytes) (h : Log),
    exists t,
      snd (DeleteRange c fuel cur e h) = h ++ t
      /\ Forall (endsWithin e) t
      /\ (soundLocator c -> kle lo cur -> kle cur e ->
          Forall (rawWithin lo e) t).
Proof.
  assert (forall h : Log,
             exists t : Log,
               h = h ++ t /\ Forall (endsWithin e) t
               /\ (soundLocator c -> Forall (rawWithin lo e) t)) as Hstop.
  { intros h. exists []. rewrite app_nil_r. auto. }
  induction fuel as [|fuel IH]; intros cur h; cbn [DeleteRange];
    destruct (Equal cur e) eqn:Eq;
    try (destruct (Hstop h) as (t & E & H1 & H2); exists t; simpl;
         repeat split; auto; fail).
  unfold bind at 1.
  destruct (sendDeleteRangeReq c (S fuel) cur e h) as [d h1] eqn:D.
  unfold sendDeleteRangeReq in D. revert D. step_loop. intros D.
  apply sendDeleteRangeReq_loop_within in D as (t & -> & Ht & Ho & Hsound).
  assert (soundLocator c -> kle lo cur -> kle cur e ->
          Forall (rawWithin lo e) (EvNewBackoffer :: t)
          /\ match d with
             | Some (inr (_, actualEnd)) => kle lo actualEnd
             | _ => True
             end) as Hw.
  { intros Hs Hlo Hle.
    assert (klt cur e) as Hlt.
    { apply kle_cases in Hle as [->|Hlt]; [|exact Hlt].
      rewrite (proj2 (Equal_eq e e) eq_refl) in Eq. discriminate. }
    destruct (Hsound Hs Hlt) as [Ht' Ho']. split.
    - constructor; [exact I|].
      eapply Forall_impl; [|exact Ht']. intros ev. now apply rawWithin_from.
    - destruct d as [[err|[resp actualEnd]]|]; auto.
      eapply kle_trans; [exact Hlo|now apply klt_kle]. }
  assert (Forall (endsWithin e) (EvNewBackoffer :: t)) as Ht1
      by (constructor; [exact I|exact Ht]).
  rewrite <- app_assoc. simpl app.
  destruct d as [[err|[resp actualEnd]]|];
    try solve [eexists; split; [reflexivity|]; split; [exact Ht1|];
               intros Hs Hlo Hle; destruct (Hw Hs Hlo Hle); assumption].
  destruct (RawDeleteRange resp) as [cmdResp|].
  2:{ eexists; split; [reflexivity|]. split; [exact Ht1|].
      intros Hs Hlo Hle. now destruct (Hw Hs Hlo Hle). }
  destruct (negb _).
  { eexists; split; [reflexivity|]. split; [exact Ht1|].
    intros Hs Hlo Hle. now destruct (Hw Hs Hlo Hle). }
  destruct (IH actualEnd (h ++ EvNewBackoffer :: t)) as (t' & E' & Ht' & Hw').
  rewrite E', <- app_assoc. eexists; split; [reflexivity|].
  split; [apply Forall_app; now split|].
  intros Hs Hlo Hle. destruct (Hw Hs Hlo Hle) as [H1 H2].
  apply Forall_app. split; [exact H1|]. now apply Hw'.
Qed.

Lemma locateIn_sound (layout : list KeyLocation) (k : bytes)
      (loc : KeyLocation) :
  locateIn layout k = inr loc -> Contains loc k = true.
Proof.
  unfold locateIn.
  destruct (find (fun l => Contains l k) layout) as [l|] eqn:F;
    [|discriminate].
  intros H; inversion H; subst. now apply find_some in F as [_ F].
Qed.

Lemma sim_sound (layout : list KeyLocation) (data : list KvPair)
      (msg : string) (misses budget : nat) (cancelAfter : option nat) :
  soundLocator (sim layout data msg misses budget cancelAfter).
Proof. intros h k loc. apply locateIn_sound. Qed.

(** X6. In any run of [DeleteRange], on any cluster, every request sent
    is a raw delete-range request with the short timeout whose range ends
    at or before [endKey]: nothing beyond the range is ever asked to be
    deleted.  If moreover the locator only returns locations that contain
    the key asked for and [startKey <= endKey], every request is for a
    range that is not empty and lies inside [[startKey, endKey]]. *)
Theorem DeleteRange_stays_in_range (c : Cluster) (fuel : nat)
        (startKey endKey : bytes) (h : Log) :
  exists t,
    snd (DeleteRange c fuel startKey endKey h) = h ++ t
    /\ Forall (endsWithin endKey) t
    /\ (soundLocator c -> kle startKey endKey ->
        Forall (rawWithin startKey endKey) t).
Proof.
  destruct (DeleteRange_requests c startKey endKey fuel startKey h)
    as (t & E & H1 & H2).
  exists t. repeat split; auto. intros Hs Hle.
  apply H2; auto using kle_refl.
Qed.

Lemma DeleteRange_stays_in_range_witness :
  exists t,
    snd (DeleteRange (sim threeRegions someData "" 1 2 None) 4
                     (key "a") (key "d") [])
    = [] ++ t
    /\ Forall (endsWithin (key "d")) t
    /\ Forall (rawWithin (key "a") (key "d")) t.
Proof.
  destruct (DeleteRange_stays_in_range
              (sim threeRegions someData "" 1 2 None) 4
              (key "a") (key "d") []) as (t & E & H1 & H2).
  exists t. split; [exact E|]. split; [exact H1|].
  apply H2; [apply sim_sound|]. vm_compute. discriminate.
Defined.

(* ================================================================== *)
(** ** The retry rule of [sendDeleteRangeReq] *)

Lemma sendDeleteRangeReq_loop_attempts (c : Cluster) (startKey endKey : bytes)
      (fuel : nat) :
  forall (h h' : Log) (r : error + Response * bytes),
    sendDeleteRangeReq_loop c fuel startKey endKey h = (Some r, h') ->
    exists t, h' = h ++ t /\ rangeAttempts startKey endKey t r.
Proof.
  induction fuel as [|fuel IH]; intros h h' r; [discriminate|].
  cbn [sendDeleteRangeReq_loop]. step_loop.
  destruct (on_LocateKey c h startKey) as [err|loc].
  { intros H; inversion H; subst. eexists; split; [reflexivity|constructor]. }
  destruct (on_SendReq c _ _ (Region loc) readTimeoutShort) as [err|resp].
  { intros H; inversion H; subst. rewrite app_snoc2.
    eexists; split; [reflexivity|constructor]. }
  destruct (GetRegionError resp) as [err|[regionErr|]] eqn:G.
  { intros H; inversion H; subst. rewrite app_snoc2.
    eexists; split; [reflexivity|now constructor]. }
  - destruct (on_Backoff c _ BoRegionMiss regionErr) as [err|].
    + intros H; inversion H; subst. rewrite app_snoc3.
      eexists; split; [reflexivity|now constructor].
    + intros H. apply IH in H. destruct H as (t & -> & Ht).
      rewrite app_snoc3, <- app_assoc.
      eexists; split; [reflexivity|]. simpl. now apply range_retried.
  - intros H; inversion H; subst. rewrite app_snoc2.
    eexists; split; [reflexivity|now constructor].
Qed.

Lemma sendDeleteRangeReq_loop_returns (c : Cluster) (n : nat)
      (startKey endKey : bytes) (fuel : nat) :
  exhaustsBy c n ->
  forall h : Log,
    (signals h 0 <= n < signals h 0 + fuel)%nat ->
    exists r h', sendDeleteRangeReq_loop c fuel startKey endKey h
                 = (Some r, h').
Proof.
  intros Hc. induction fuel as [|fuel IH]; intros h Hn; [lia|].
  cbn [sendDeleteRangeReq_loop]. step_loop.
  destruct (on_LocateKey c h startKey) as [err|loc]; [eauto|].
  destruct (on_SendReq c _ _ (Region loc) readTimeoutShort)
    as [err|resp]; [eauto|].
  destruct (GetRegionError resp) as [err|[regionErr|]]; [eauto| |eauto].
  destruct (on_Backoff c _ BoRegionMiss regionErr) as [err|] eqn:B; [eauto|].
  apply IH. rewrite app_snoc3, signals_app. simpl.
  assert (signals h 0 < n)%nat; [|lia].
  destruct (Nat.lt_ge_cases (signals h 0) n) as [L|G]; [exact L|].
  exfalso. revert B. apply Hc. rewrite app_snoc2, signals_app. simpl. lia.
Qed.

(** X7. [sendDeleteRangeReq] follows the retry rule of [sendReq] with a
    request that is rebuilt at every attempt: for a backoffer that gives
    up by its [n]-th signal and fuel above [n], the call returns, and its
    log, after the new backoffer, is a sequence of attempts, each of which
    locates [startKey] afresh and sends, with the short timeout, the raw
    delete-range request from [startKey] to the end clamped to the
    location that this very attempt found; a region error is signalled to
    the backoffer and followed by a new attempt exactly when the
    backoffer allows it; the end key returned is the end of the request
    that was served. *)
Theorem sendDeleteRangeReq_retry (c : Cluster) (n fuel : nat)
        (startKey endKey : bytes) (h : Log) :
  exhaustsBy c n ->
  (n < fuel)%nat ->
  exists (t : Log) (r : error + Response * bytes),
    sendDeleteRangeReq c fuel startKey endKey h
    = (Some r, h ++ EvNewBackoffer :: t)
    /\ rangeAttempts startKey endKey t r.
Proof.
  intros Hc Hf. unfold sendDeleteRangeReq. step_loop.
  destruct (sendDeleteRangeReq_loop_returns
              c n startKey endKey fuel Hc (h ++ [EvNewBackoffer]))
    as (r & h' & E).
  { rewrite signals_app. simpl. lia. }
  rewrite E. apply sendDeleteRangeReq_loop_attempts in E.
  destruct E as (t & -> & Ht).
  exists t, r. now rewrite <- app_assoc.
Qed.

Lemma sendDeleteRangeReq_retry_witness :
  exists (t : Log) (r : error + Response * bytes),
    sendDeleteRangeReq (sim threeRegions someData "" 2 1 None) 2
                       (key "a") (key "d") []
    = (Some r, [] ++ EvNewBackoffer :: t)
    /\ rangeAttempts (key "a") (key "d") t r.
Proof.
  apply (sendDeleteRangeReq_retry
           (sim threeRegions someData "" 2 1 None) 1 2
           (key "a") (key "d") []).
  - apply sim_exhaustsBy.
  - lia.
Defined.

(** When the region found grows between two attempts, the second request
    is clamped to the new end, and that end is returned. *)
Example sendDeleteRangeReq_reclamps :
  sendDeleteRangeReq growingCluster 2 (key "a") (key "d") []
  = (Some (inr (serve threeRegions [] ""
                      (RawDeleteRangeRequest (key "a") (key "c")) 1,
                key "c")),
     [ EvNewBackoffer;
       EvLocateKey (key "a") (inr (mkLoc 1 (key "") (key "b")));
       EvSendReq (RawDeleteRangeRequest (key "a") (key "b")) 1
                 readTimeoutShort (inr regionMiss);
       EvBackoff BoRegionMiss "epoch not match" None;
       EvLocateKey (key "a") (inr (mkLoc 1 (key "") (key "c")));
       EvSendReq (RawDeleteRangeRequest (key "a") (key "c")) 1
                 readTimeoutShort
                 (inr (serve threeRegions [] ""
                             (RawDeleteRangeRequest (key "a") (key "c")) 1)) ]).
Proof. reflexivity. Qed.

(* ================================================================== *)
(** ** The calls of the task *)

Lemma Execute_loop_calls (c : Cluster) (lo e : bytes) (fuel : nat) :
  forall (t : DeleteRangeTask) (cur : bytes) (h : Log),
    exists tr,
      snd (Execute_loop c fuel t cur e h) = h ++ tr
      /\ Forall taskCall tr
      /\ (soundLocator c -> kle lo cur -> kle cur e ->
          Forall (taskWithin lo e) tr).
Proof.
  induction fuel as [|fuel IH]; intros t cur h.
  { exists []. simpl. rewrite app_nil_r. repeat split; intros; constructor. }
  cbn [Execute_loop]. step_loop.
  destruct (on_Done c h).
  { exists []. simpl. rewrite app_nil_r. repeat split; intros; constructor. }
  destruct (on_LocateKey c h cur) as [err|loc] eqn:L.
  { eexists. split; [reflexivity|]. split; [trail I|intros; trail I]. }
  assert (forall r, taskCall
                      (EvSendReq (DeleteRangeRequest cur (taskEndKey loc e))
                                 (Region loc) ReadTimeoutMedium r)) as He.
  { intros r. split; [reflexivity|]. now exists cur, (taskEndKey loc e). }
  assert (soundLocator c -> kle lo cur -> kle cur e ->
          kle cur (taskEndKey loc e) /\ kle (taskEndKey loc e) e) as Hb.
  { intros Hs Hlo Hle. apply taskEndKey_bounds; [|exact Hle].
    exact (Hs h cur loc L). }
  assert (soundLocator c -> kle lo cur -> kle cur e ->
          forall r, taskWithin lo e
                      (EvSendReq (DeleteRangeRequest cur (taskEndKey loc e))
                                 (Region loc) ReadTimeoutMedium r)) as Hw.
  { intros Hs Hlo Hle r. destruct (Hb Hs Hlo Hle) as [H1 H2].
    split; [reflexivity|]. exists cur, (taskEndKey loc e). auto. }
  destruct (on_SendReq c _ _ (Region loc) ReadTimeoutMedium) as [err|resp].
  { rewrite app_snoc2. eexists. split; [reflexivity|].
    split; [trail He|intros Hs Hlo Hle; trail Hw]. }
  destruct (GetRegionError resp) as [err|[regionErr|]].
  - rewrite app_snoc2. eexists. split; [reflexivity|].
    split; [trail He|intros Hs Hlo Hle; trail Hw].
  - destruct (on_Backoff c _ BoRegionMiss regionErr) as [err|].
    + rewrite app_snoc3. eexists. split; [reflexivity|].
      split; [trail He|intros Hs Hlo Hle; trail Hw].
    + rewrite app_snoc3.
      match goal with
      | |- context [Execute_loop c fuel ?t' ?k e ?h0] =>
          destruct (IH t' k h0) as (tr & E & H1 & H2)
      end.
      rewrite E, <- app_assoc. eexists. split; [reflexivity|]. simpl app.
      split; [trail He; exact H1|].
      intros Hs Hlo Hle. trail Hw. now apply H2.
  - rewrite app_snoc2.
    destruct (DeleteRange_ resp) as [deleteRangeResp|].
    2:{ eexists. split; [reflexivity|].
        split; [trail He|intros Hs Hlo Hle; trail Hw]. }
    destruct (negb _).
    { eexists. split; [reflexivity|].
      split; [trail He|intros Hs Hlo Hle; trail Hw]. }
    destruct (Equal (taskEndKey loc e) e).
    { eexists. split; [reflexivity|].
      split; [trail He|intros Hs Hlo Hle; trail Hw]. }
    match goal with
    | |- context [Execute_loop c fuel ?t' ?k e ?h0] =>
        destruct (IH t' k h0) as (tr & E & H1 & H2)
    end.
    rewrite E, <- app_assoc. eexists. split; [reflexivity|]. simpl app.
    split; [trail He; exact H1|].
    intros Hs Hlo Hle. trail Hw. destruct (Hb Hs Hlo Hle) as [H3 H4].
    apply H2; auto. eapply kle_trans; eauto.
Qed.

(** X8. In any run of the task's [Execute], on any cluster, the task
    takes no new backoffer (every wait is charged to the one it was given)
    and every request sent is a delete-range request with the medium
    timeout.  If moreover the locator only returns locations that contain
    the key asked for and [startKey <= endKey], every request is for a
    range inside [[startKey, endKey]]. *)
Theorem Execute_stays_in_range (c : Cluster) (fuel : nat)
        (task : DeleteRangeTask) (h : Log) :
  exists tr,
    snd (Execute c fuel task h) = h ++ tr
    /\ Forall taskCall tr
    /\ (soundLocator c -> kle (startKey task) (endKey task) ->
        Forall (taskWithin (startKey task) (endKey task)) tr).
Proof.
  rewrite Execute_log.
  destruct (Execute_loop_calls c (startKey task) (endKey task) fuel task
                               (startKey task) h) as (tr & E & H1 & H2).
  exists tr. repeat split; auto. intros Hs Hle.
  apply H2; auto using kle_refl.
Qed.

Lemma Execute_stays_in_range_witness :
  exists tr,
    snd (Execute (sim threeRegions someData "" 1 2 None) 4
                 (NewDeleteRangeTask (key "a") (key "d")) [])
    = [] ++ tr
    /\ Forall taskCall tr
    /\ Forall (taskWithin (key "a") (key "d")) tr.
Proof.
  destruct (Execute_stays_in_range
              (sim threeRegions someData "" 1 2 None) 4
              (NewDeleteRangeTask (key "a") (key "d")) [])
    as (tr & E & H1 & H2).
  exists tr. split; [exact E|]. split; [exact H1|].
  apply H2; [apply sim_sound|]. vm_compute. discriminate.
Defined.

(* ================================================================== *)
(** ** The task and its context *)

Lemma undone_quiet (c : Cluster) (h : Log) (ev : Event) (tr : Log) :
  match ev with EvLocateKey _ _ => False | _ => True end ->
  undone c (h ++ [ev]) tr -> undone c h (ev :: tr).
Proof. intros Hq Ht. split; [|exact Ht]. now destruct ev. Qed.

Lemma undone_attempt (c : Cluster) (h : Log) (k : bytes)
      (l : error + KeyLocation) (tr : Log) :
  on_Done c h = false ->
  undone c (h ++ [EvLocateKey k l]) tr -> undone c h (EvLocateKey k l :: tr).
Proof. intros D Ht. now split. Qed.

Lemma Execute_loop_undone (c : Cluster) (e : bytes) (fuel : nat) :
  forall (t : DeleteRangeTask) (cur : bytes) (h : Log),
    exists tr,
      snd (Execute_loop c fuel t cur e h) = h ++ tr /\ undone c h tr.
Proof.
  induction fuel as [|fuel IH]; intros t cur h.
  { exists []. simpl. now rewrite app_nil_r. }
  cbn [Execute_loop]. step_loop.
  destruct (on_Done c h) eqn:D.
  { exists []. simpl. now rewrite app_nil_r. }
  destruct (on_LocateKey c h cur) as [err|loc].
  { eexists. split; [reflexivity|]. now apply undone_attempt. }
  assert (forall r tr,
             undone c (h ++ [EvLocateKey cur (inr loc);
                             EvSendReq (DeleteRangeRequest
                                          cur (taskEndKey loc e))
                                       (Region loc) ReadTimeoutMedium r]) tr ->
             undone c h
                    (EvLocateKey cur (inr loc)
                     :: EvSendReq (DeleteRangeRequest cur (taskEndKey loc e))
                                  (Region loc) ReadTimeoutMedium r :: tr))
    as H2.
  { intros r tr Ht. apply undone_attempt; [exact D|].
    apply undone_quiet; [exact I|]. now rewrite app_snoc2. }
  assert (forall r regionErr b tr,
             undone c (h ++ [EvLocateKey cur (inr loc);
                             EvSendReq (DeleteRangeRequest
                                          cur (taskEndKey loc e))
                                       (Region loc) ReadTimeoutMedium r;
                             EvBackoff BoRegionMiss regionErr b]) tr ->
             undone c h
                    (EvLocateKey cur (inr loc)
                     :: EvSendReq (DeleteRangeRequest cur (taskEndKey loc e))
                                  (Region loc) ReadTimeoutMedium r
                     :: EvBackoff BoRegionMiss regionErr b :: tr))
    as H3.
  { intros r regionErr b tr Ht. apply H2.
    apply undone_quiet; [exact I|]. rewrite <- app_assoc. exact Ht. }
  destruct (on_SendReq c _ _ (Region loc) ReadTimeoutMedium) as [err|resp].
  { rewrite app_snoc2. eexists. split; [reflexivity|]. now apply H2. }
  destruct (GetRegionError resp) as [err|[regionErr|]].
  - rewrite app_snoc2. eexists. split; [reflexivity|]. now apply H2.
  - destruct (on_Backoff c _ BoRegionMiss regionErr) as [err|].
    + rewrite app_snoc3. eexists. split; [reflexivity|]. now apply H3.
    + rewrite app_snoc3.
      match goal with
      | |- context [Execute_loop c fuel ?t' ?k e ?h0] =>
          destruct (IH t' k h0) as (tr & E & Ht)
      end.
      rewrite E, <- app_assoc. eexists. split; [reflexivity|].
      simpl app. now apply H3.
  - rewrite app_snoc2.
    destruct (DeleteRange_ resp) as [deleteRangeResp|].
    2:{ eexists. split; [reflexivity|]. now apply H2. }
    destruct (negb _).
    { eexists. split; [reflexivity|]. now apply H2. }
    destruct (Equal (taskEndKey loc e) e).
    { eexists. split; [reflexivity|]. now apply H2. }
    match goal with
    | |- context [Execute_loop c fuel ?t' ?k e ?h0] =>
        destruct (IH t' k h0) as (tr & E & Ht)
    end.
    rewrite E, <- app_assoc. eexists. split; [reflexivity|].
    simpl app. now apply H2.
Qed.

Lemma undone_at (c : Cluster) (tr : Log) :
  forall (h t1 : Log) (k : bytes) (l : error + KeyLocation) (t2 : Log),
    undone c h tr -> tr = t1 ++ EvLocateKey k l :: t2 ->
    on_Done c (h ++ t1) = false.
Proof.
  induction tr as [|ev tr IH]; intros h t1 k l t2 Hu E.
  - now destruct t1.
  - destruct Hu as [H1 H2].
    destruct t1 as [|x t1]; simpl in E; inversion E; subst.
    + now rewrite app_nil_r.
    + change (h ++ x :: t1) with (h ++ [x] ++ t1). rewrite app_assoc.
      now apply (IH _ t1 k l t2).
Qed.

(** X9. The task looks at its context before every locate: in any run of
    [Execute], every call of the locator is made on a log at which the
    context is not done; once the context is done the task asks for no
    location any more. *)
Theorem Execute_checks_context (c : Cluster) (fuel : nat)
        (task : DeleteRangeTask) (h t1 : Log) (k : bytes)
        (l : error + KeyLocation) (t2 : Log) :
  snd (Execute c fuel task h) = h ++ t1 ++ EvLocateKey k l :: t2 ->
  on_Done c (h ++ t1) = false.
Proof.
  rewrite Execute_log.
  destruct (Execute_loop_undone c (endKey task) fuel task (startKey task) h)
    as (tr & E & Ht).
  rewrite E. intros E'. apply app_inv_head in E'.
  now apply (undone_at c tr h t1 k l t2).
Qed.

Lemma Execute_checks_context_witness :
  on_Done (sim threeRegions someData "" 0 0 (Some 2%nat))
          ([] ++ [EvLocateKey (key "a") (inr (mkLoc 1 (key "") (key "b")));
                  EvSendReq (DeleteRangeRequest (key "a") (key "b")) 1
                            ReadTimeoutMedium
                            (inr (serve threeRegions someData ""
                                        (DeleteRangeRequest
                                           (key "a") (key "b")) 1))])
  = false.
Proof.
  apply (Execute_checks_context
           (sim threeRegions someData "" 0 0 (Some 2%nat)) 4
           (NewDeleteRangeTask (key "a") (key "d")) []
           [EvLocateKey (key "a") (inr (mkLoc 1 (key "") (key "b")));
            EvSendReq (DeleteRangeRequest (key "a") (key "b")) 1
                      ReadTimeoutMedium
                      (inr (serve threeRegions someData ""
                                  (DeleteRangeRequest (key "a") (key "b")) 1))]
           (key "b") (inr (mkLoc 2 (key "b") (key "c")))
           [EvSendReq (DeleteRangeRequest (key "b") (key "c")) 2
                      ReadTimeoutMedium
                      (inr (serve threeRegions someData ""
                                  (DeleteRangeRequest (key "b") (key "c")) 2))]).
  reflexivity.
Defined.

(* ================================================================== *)
(** ** What has been deleted when a run ends *)

Lemma deletedRange_served (ev : Event) (r : bytes * bytes) :
  deletedRange ev = Some r -> servedEv ev.
Proof.
  destruct ev as [| |req region timeout [err|resp]|]; simpl;
    try discriminate; destruct req; try discriminate;
    destruct (GetRegionError resp) as [err|[regionErr|]];
    try discriminate; reflexivity.
Qed.

Lemma deletedRanges_unserved (t : Log) :
  neverIn servedEv t -> deletedRanges t = [].
Proof.
  induction t as [|ev t IH]; intros H; [reflexivity|]. simpl.
  destruct (deletedRange ev) as [r|] eqn:E.
  - exfalso. apply (H ev); [now left|]. now apply (deletedRange_served ev r).
  - apply IH. intros ev' Hin. apply H. now right.
Qed.

Lemma deletedRanges_app (t1 t2 : Log) :
  deletedRanges (t1 ++ t2) = deletedRanges t1 ++ deletedRanges t2.
Proof.
  induction t1 as [|ev t1 IH]; [reflexivity|]. simpl.
  rewrite IH. now destruct (deletedRange ev).
Qed.

Lemma DeleteRange_deleted (c : Cluster) (e : bytes) (fuel : nat) :
  forall (cur : bytes) (h h' : Log) (o : option (option error)),
    DeleteRange c fuel cur e h = (o, h') ->
    exists t cur',
      h' = h ++ t
      /\ linked cur cur' (deletedRanges t)
      /\ (o = Some None -> cur' = e).
Proof.
  induction fuel as [|fuel IH]; intros cur h h' o;
    cbn [DeleteRange]; destruct (Equal cur e) eqn:Eq;
    try (intros H; inv_ret H; exists [], cur; rewrite app_nil_r;
         split; [reflexivity|]; split; [reflexivity|];
         intros _; now apply Equal_eq).
  { intros H; inversion H; subst. exists [], cur. rewrite app_nil_r.
    split; [reflexivity|]. split; [reflexivity|discriminate]. }
  unfold bind at 1.
  destruct (sendDeleteRangeReq c (S fuel) cur e h) as [d h1] eqn:D.
  apply sendDeleteRangeReq_served_last in D as (t & -> & Ht).
  destruct d as [[err|[resp actualEnd]]|].
  { intros H; inv_ret H. exists t, cur. split; [reflexivity|].
    rewrite (deletedRanges_unserved t Ht).
    split; [reflexivity|discriminate]. }
  2:{ intros H; inversion H; subst. exists t, cur. split; [reflexivity|].
      rewrite (deletedRanges_unserved t Ht).
      split; [reflexivity|discriminate]. }
  destruct Ht as (t0 & loc & -> & H0 & G).
  destruct (RawDeleteRange resp) as [cmdResp|] eqn:B.
  2:{ intros H; inv_ret H. eexists _, cur. split; [reflexivity|].
      rewrite deletedRanges_app, (deletedRanges_unserved t0 H0).
      cbn [deletedRanges deletedRange app]. rewrite G, B.
      split; [reflexivity|discriminate]. }
  destruct (RawDeleteRange_Error cmdResp =? "")%string eqn:Er; cbn [negb].
  - intros H. apply IH in H as (t' & cur' & -> & Hl & Ho).
    rewrite <- app_assoc. eexists _, cur'. split; [reflexivity|].
    split; [|exact Ho].
    rewrite !deletedRanges_app, (deletedRanges_unserved t0 H0).
    cbn [deletedRanges deletedRange app]. rewrite G, B, Er.
    cbn [app linked]. now split.
  - intros H; inv_ret H. eexists _, cur. split; [reflexivity|].
    rewrite deletedRanges_app, (deletedRanges_unserved t0 H0).
    cbn [deletedRanges deletedRange app]. rewrite G, B, Er.
    split; [reflexivity|discriminate].
Qed.

(** A chain of ranges leaves no gap: every key from its start up to its
    end lies in one of them. *)
Lemma linked_covers (rs : list (bytes * bytes)) :
  forall from to x : bytes,
    linked from to rs -> kle from x -> klt x to -> Exists (inRange x) rs.
Proof.
  induction rs as [|[a b] rs IH]; intros from to x Hl Hfrom Hto; simpl in Hl.
  - subst. exfalso. eapply klt_not_kle; eauto.
  - destruct Hl as [-> Hl]. destruct (klt_or_kle x b) as [Hx|Hx].
    + apply Exists_cons_hd. now split.
    + apply Exists_cons_tl. now apply (IH b to x).
Qed.

(** A chain of ranges none of which is inverted goes upwards, and its
    ranges do not overlap. *)
Lemma linked_apart (rs : list (bytes * bytes)) :
  forall from to : bytes,
    linked from to rs ->
    Forall (fun r => kle (fst r) (snd r)) rs ->
    kle from to
    /\ Forall (fun r => kle from (fst r)) rs
    /\ StronglySorted apart rs.
Proof.
  induction rs as [|[a b] rs IH]; intros from to Hl Hle; simpl in Hl.
  - subst. split; [apply kle_refl|]. split; constructor.
  - destruct Hl as [-> Hl]. inversion Hle as [|r rs' Hab Hrs]; subst.
    simpl in Hab. destruct (IH b to Hl Hrs) as (Hbt & Hstarts & Hsorted).
    split; [eapply kle_trans; eauto|]. split.
    + constructor; [apply kle_refl|].
      eapply Forall_impl; [|exact Hstarts].
      intros r Hr. eapply kle_trans; eauto.
    + constructor; [exact Hsorted|exact Hstarts].
Qed.

Lemma rawWithin_ranges (lo hi : bytes) (t : Log) :
  Forall (rawWithin lo hi) t ->
  Forall (fun r => nonEmpty r /\ within lo hi r) (deletedRanges t).
Proof.
  induction 1 as [|ev t Hev Ht IH]; [constructor|].
  cbn [deletedRanges]. destruct (deletedRange ev) as [r|] eqn:E; [|exact IH].
  constructor; [|exact IH].
  destruct ev as [| |req region timeout [err|resp]|];
    try (simpl in E; destruct req; discriminate); try discriminate.
  destruct Hev as (a & b & -> & H1 & H2 & H3). simpl in E.
  destruct (GetRegionError resp) as [err|[regionErr|]]; try discriminate.
  destruct (RawDeleteRange resp) as [body|]; [|discriminate].
  destruct (RawDeleteRange_Error body =? "")%string; [|discriminate].
  inversion E; subst. now repeat split.
Qed.

Lemma taskWithin_ranges (lo hi : bytes) (t : Log) :
  Forall (taskWithin lo hi) t ->
  Forall (fun r => kle (fst r) (snd r) /\ within lo hi r) (deletedRanges t).
Proof.
  induction 1 as [|ev t Hev Ht IH]; [constructor|].
  cbn [deletedRanges]. destruct (deletedRange ev) as [r|] eqn:E; [|exact IH].
  constructor; [|exact IH].
  destruct ev as [| |req region timeout [err|resp]|];
    try (simpl in E; destruct req; discriminate); try discriminate.
  destruct Hev as (_ & a & b & -> & H1 & H2 & H3). simpl in E.
  destruct (GetRegionError resp) as [err|[regionErr|]]; try discriminate.
  destruct (DeleteRange_ resp) as [body|]; [|discriminate].
  destruct (DeleteRange_Error body =? "")%string; [|discriminate].
  inversion E; subst. now repeat split.
Qed.

(** X10. Whatever the cluster does, the ranges that the store confirmed
    during a run of [DeleteRange] (requests answered without region error
    by a body without error text) form a chain from [startKey], however
    the run ends: each starts exactly where the one before ended, so that
    every key from [startKey] up to the end of the chain lies in a
    confirmed range; and when [DeleteRange] returns nil the chain ends at
    [endKey]: nil is returned only once every key of the range has been
    confirmed.  A locator that is out of date can make confirmed ranges
    overlap; if the locator only returns locations that contain the key
    asked for and [startKey <= endKey], every confirmed range holds a
    key, lies inside [[startKey, endKey]], and ends at or before the
    start of each later one: no gap and no overlap. *)
Theorem DeleteRange_confirmed_ranges (c : Cluster) (fuel : nat)
        (startKey endKey : bytes) (h h' : Log) (o : option (option error)) :
  DeleteRange c fuel startKey endKey h = (o, h') ->
  exists t cur,
    h' = h ++ t
    /\ linked startKey cur (deletedRanges t)
    /\ (forall x, kle startKey x -> klt x cur ->
                  Exists (inRange x) (deletedRanges t))
    /\ (o = Some None -> cur = endKey)
    /\ (soundLocator c -> kle startKey endKey ->
        Forall nonEmpty (deletedRanges t)
        /\ Forall (within startKey endKey) (deletedRanges t)
        /\ StronglySorted apart (deletedRanges t)).
Proof.
  intros H.
  destruct (DeleteRange_requests c startKey endKey fuel startKey h)
    as (t2 & E2 & _ & Hw).
  rewrite H in E2. simpl in E2.
  apply DeleteRange_deleted in H as (t & cur & -> & Hl & Ho).
  apply app_inv_head in E2. subst t2.
  exists t, cur. split; [reflexivity|]. split; [exact Hl|].
  split; [intros x; now apply linked_covers|]. split; [exact Ho|].
  intros Hs Hle.
  pose proof (rawWithin_ranges _ _ _ (Hw Hs (kle_refl _) Hle)) as Hr.
  split; [eapply Forall_impl; [|exact Hr]; now intros r [H1 _]|].
  split; [eapply Forall_impl; [|exact Hr]; now intros r [_ H2]|].
  apply (linked_apart _ startKey cur Hl).
  eapply Forall_impl; [|exact Hr]. intros r [H1 _]. now apply klt_kle.
Qed.

Lemma DeleteRange_confirmed_ranges_witness :
  exists t cur,
    snd (DeleteRange (sim threeRegions someData "" 1 2 None) 4
                     (key "a") (key "d") [])
    = [] ++ t
    /\ linked (key "a") cur (deletedRanges t)
    /\ (forall x, kle (key "a") x -> klt x cur ->
                  Exists (inRange x) (deletedRanges t))
    /\ (fst (DeleteRange (sim threeRegions someData "" 1 2 None) 4
                         (key "a") (key "d") [])
        = Some None -> cur = key "d")
    /\ (Forall nonEmpty (deletedRanges t)
        /\ Forall (within (key "a") (key "d")) (deletedRanges t)
        /\ StronglySorted apart (deletedRanges t)).
Proof.
  destruct (DeleteRange_confirmed_ranges
              (sim threeRegions someData "" 1 2 None) 4 (key "a") (key "d")
              [] _ _ (surjective_pairing _))
    as (t & cur & E & Hl & Hc & Ho & Hs).
  exists t, cur. split; [exact E|]. split; [exact Hl|].
  split; [exact Hc|]. split; [exact Ho|].
  apply Hs; [apply sim_sound|]. vm_compute. discriminate.
Defined.

(** With the locator out of date, [DeleteRange] and the task return nil
    after confirmed ranges that form a chain from "a" to "d" and yet
    overlap: the second one is inverted. *)
Example stale_locator_overlap :
  let r := DeleteRange staleCluster 3 (key "a") (key "d") [] in
  let r' := Execute staleCluster 3 (NewDeleteRangeTask (key "a") (key "d")) []
  in
  fst r = Some None
  /\ deletedRanges (snd r)
     = [(key "a", key "c"); (key "c", key "b"); (key "b", key "d")]
  /\ fst r' = Some None
  /\ deletedRanges (snd r') = deletedRanges (snd r).
Proof. repeat split. Qed.

Lemma Execute_loop_deleted (c : Cluster) (e : bytes) (fuel : nat) :
  forall (t : DeleteRangeTask) (cur : bytes) (h h' : Log)
         (o : option (DeleteRangeTask * option error)),
    Execute_loop c fuel t cur e h = (o, h') ->
    exists tr cur',
      h' = h ++ tr
      /\ linked cur cur' (deletedRanges tr)
      /\ match o with
         | Some (t', err) =>
             regions t'
             = Nat.iter (List.length (deletedRanges tr)) int_incr (regions t)
             /\ startKey t' = startKey t
             /\ endKey t' = endKey t
             /\ ((canceled t' = true /\ err = None /\ on_Done c h' = true)
                 \/ (canceled t' = canceled t
                     /\ (err = None ->
                         cur' = e /\ deletedRanges tr <> [])))
         | None => True
         end.
Proof.
  induction fuel as [|fuel IH]; intros t cur h h' o.
  { intros H; inversion H; subst. exists [], cur. rewrite app_nil_r.
    now repeat split. }
  cbn [Execute_loop]. step_loop.
  destruct (on_Done c h) eqn:D.
  { intros H; inversion H; subst. exists [], cur. rewrite app_nil_r.
    split; [reflexivity|]. split; [reflexivity|]. simpl. repeat split.
    left. now repeat split. }
  destruct (on_LocateKey c h cur) as [err|loc].
  { intros H; inversion H; subst. eexists _, cur. split; [reflexivity|].
    split; [reflexivity|]. simpl. repeat split. right.
    split; [reflexivity|discriminate]. }
  destruct (on_SendReq c _ _ (Region loc) ReadTimeoutMedium) as [err|resp].
  { intros H; inversion H; subst. rewrite app_snoc2.
    eexists _, cur. split; [reflexivity|].
    split; [reflexivity|]. simpl. repeat split. right.
    split; [reflexivity|discriminate]. }
  destruct (GetRegionError resp) as [err|[regionErr|]] eqn:G.
  - intros H; inversion H; subst. rewrite app_snoc2.
    eexists _, cur. split; [reflexivity|].
    cbn [deletedRanges deletedRange]. rewrite G.
    split; [reflexivity|]. simpl. repeat split. right.
    split; [reflexivity|discriminate].
  - destruct (on_Backoff c _ BoRegionMiss regionErr) as [err|].
    + intros H; inversion H; subst. rewrite app_snoc3.
      eexists _, cur. split; [reflexivity|].
      cbn [deletedRanges deletedRange]. rewrite G.
      split; [reflexivity|]. simpl. repeat split. right.
      split; [reflexivity|discriminate].
    + intros H. apply IH in H as (tr & cur' & -> & Hl & Ho).
      eexists (_ :: _ :: _ :: tr), cur'.
      split; [rewrite app_snoc3, <- app_assoc; reflexivity|].
      cbn [deletedRanges deletedRange]. rewrite G. now split.
  - rewrite app_snoc2.
    destruct (DeleteRange_ resp) as [deleteRangeResp|] eqn:B.
    2:{ intros H; inversion H; subst. eexists _, cur. split; [reflexivity|].
        cbn [deletedRanges deletedRange]. rewrite G, B.
        split; [reflexivity|]. simpl. repeat split. right.
        split; [reflexivity|discriminate]. }
    destruct (DeleteRange_Error deleteRangeResp =? "")%string eqn:Er;
      cbn [negb].
    2:{ intros H; inversion H; subst. eexists _, cur. split; [reflexivity|].
        cbn [deletedRanges deletedRange]. rewrite G, B, Er.
        split; [reflexivity|]. simpl. repeat split. right.
        split; [reflexivity|discriminate]. }
    destruct (Equal (taskEndKey loc e) e) eqn:Eq.
    + intros H; inversion H; subst.
      eexists _, (taskEndKey loc e). split; [reflexivity|].
      cbn [deletedRanges deletedRange]. rewrite G, B, Er.
      split; [now split|]. simpl. repeat split. right.
      split; [reflexivity|]. intros _.
      split; [now apply Equal_eq|discriminate].
    + intros H. apply IH in H as (tr & cur' & -> & Hl & Ho).
      eexists (_ :: _ :: tr), cur'.
      split; [rewrite <- app_assoc; reflexivity|].
      cbn [deletedRanges deletedRange]. rewrite G, B, Er.
      split; [now split|].
      destruct o as [[t' err]|]; [|exact I].
      destruct Ho as (Hr & Hs & He & Hc).
      split; [|split; [exact Hs|split; [exact He|]]].
      * rewrite Hr. cbn [List.length]. now rewrite Nat.iter_succ_r.
      * destruct Hc as [Hc|[Hc Hn]]; [now left|right].
        split; [exact Hc|]. intros E.
        split; [now apply Hn|discriminate].
Qed.

(** X11. Whatever the cluster does, the ranges that the store confirmed
    during a run of the task's [Execute] form a chain from [startKey],
    however the run ends: each starts exactly where the one before ended,
    so that every key from [startKey] up to the end of the chain lies in
    a confirmed range.  When [Execute] returns nil, either the context is
    done at that moment, or at least one request was confirmed and the
    chain ends at [endKey]: short of a cancellation, nil means that every
    key of the range has been confirmed, and even an empty range costs
    one request.  A locator that is out of date can make confirmed ranges
    overlap; if the locator only returns locations that contain the key
    asked for and [startKey <= endKey], every confirmed range lies inside
    [[startKey, endKey]] and ends at or before the start of each later
    one: no gap and no overlap. *)
Theorem Execute_confirmed_ranges (c : Cluster) (fuel : nat)
        (task : DeleteRangeTask) (h h' : Log) (o : option (option error)) :
  Execute c fuel task h = (o, h') ->
  exists tr cur,
    h' = h ++ tr
    /\ linked (startKey task) cur (deletedRanges tr)
    /\ (forall x, kle (startKey task) x -> klt x cur ->
                  Exists (inRange x) (deletedRanges tr))
    /\ (o = Some None ->
        on_Done c h' = true
        \/ (cur = endKey task /\ deletedRanges tr <> []))
    /\ (soundLocator c -> kle (startKey task) (endKey task) ->
        Forall (within (startKey task) (endKey task)) (deletedRanges tr)
        /\ StronglySorted apart (deletedRanges tr)).
Proof.
  intros H.
  destruct (Execute_loop_calls c (startKey task) (endKey task) fuel task
                               (startKey task) h) as (t2 & E2 & _ & Hw).
  rewrite <- Execute_log, H in E2. simpl in E2.
  revert H. unfold Execute, bind.
  destruct (Execute_loop c fuel task (startKey task) (endKey task) h)
    as [r h1] eqn:E.
  apply Execute_loop_deleted in E as (tr & cur & -> & Hl & Ho).
  intros H.
  assert (h' = h ++ tr) as E'
      by (destruct r as [[t' err]|]; unfold ret in H; now inversion H).
  rewrite E' in E2. apply app_inv_head in E2. subst t2 h'.
  exists tr, cur. split; [reflexivity|]. split; [exact Hl|].
  split; [intros x; now apply linked_covers|]. split.
  - intros ->. destruct r as [[t' err]|]; [|discriminate].
    unfold ret in H. inversion H; subst.
    destruct Ho as (_ & _ & _ & [(_ & _ & D)|[_ Hn]]); [now left|right].
    now apply Hn.
  - intros Hs Hle.
    pose proof (taskWithin_ranges _ _ _ (Hw Hs (kle_refl _) Hle)) as Hr.
    split; [eapply Forall_impl; [|exact Hr]; now intros x [_ H2]|].
    apply (linked_apart _ (startKey task) cur Hl).
    eapply Forall_impl; [|exact Hr]. now intros x [H1 _].
Qed.

Lemma Execute_confirmed_ranges_witness :
  exists tr cur,
    snd (Execute (sim threeRegions someData "" 1 2 None) 4
                 (NewDeleteRangeTask (key "a") (key "d")) [])
    = [] ++ tr
    /\ linked (key "a") cur (deletedRanges tr)
    /\ (forall x, kle (key "a") x -> klt x cur ->
                  Exists (inRange x) (deletedRanges tr))
    /\ (fst (Execute (sim threeRegions someData "" 1 2 None) 4
                     (NewDeleteRangeTask (key "a") (key "d")) [])
        = Some None ->
        on_Done (sim threeRegions someData "" 1 2 None)
                (snd (Execute (sim threeRegions someData "" 1 2 None) 4
                              (NewDeleteRangeTask (key "a") (key "d")) []))
        = true
        \/ (cur = key "d" /\ deletedRanges tr <> []))
    /\ (Forall (within (key "a") (key "d")) (deletedRanges tr)
        /\ StronglySorted apart (deletedRanges tr)).
Proof.
  destruct (Execute_confirmed_ranges
              (sim threeRegions someData "" 1 2 None) 4
              (NewDeleteRangeTask (key "a") (key "d")) [] _ _
              (surjective_pairing _))
    as (tr & cur & E & Hl & Hc & Ho & Hs).
  exists tr, cur. split; [exact E|]. split; [exact Hl|].
  split; [exact Hc|]. split; [exact Ho|].
  apply Hs; [apply sim_sound|]. vm_compute. discriminate.
Defined.

(** X12. The receiver that [Execute] works on, its own copy of the task:
    when the loop ends, the copy's count of regions has been increased
    once for each request that the store confirmed, and by nothing else;
    its range is untouched; and it is marked as canceled only if it was
    so before, or if the context was done at the last check, in which
    case the error is nil. *)
Theorem Execute_counts_confirmed (c : Cluster) (fuel : nat)
        (task t' : DeleteRangeTask) (err : option error) (h h' : Log) :
  Execute_loop c fuel task (startKey task) (endKey task) h
  = (Some (t', err), h') ->
  exists tr,
    h' = h ++ tr
    /\ Regions t'
       = Nat.iter (List.length (deletedRanges tr)) int_incr (Regions task)
    /\ startKey t' = startKey task
    /\ endKey t' = endKey task
    /\ (IsCanceled t' = true ->
        IsCanceled task = true \/ (err = None /\ on_Done c h' = true)).
Proof.
  intros E.
  apply Execute_loop_deleted in E as (tr & cur & -> & _ & Hr & Hs & He & Hc).
  exists tr. unfold Regions, IsCanceled. repeat split; auto.
  intros Ht. destruct Hc as [(_ & H1 & H2)|[H1 _]]; [now right|left].
  now rewrite <- H1.
Qed.

Lemma Execute_counts_confirmed_witness :
  exists tr,
    snd (Execute_loop (sim threeRegions someData "" 1 2 (Some 3%nat)) 4
                      (NewDeleteRangeTask (key "a") (key "d"))
                      (key "a") (key "d") [])
    = [] ++ tr
    /\ Regions (mkTask 2 true (key "a") (key "d"))
       = Nat.iter (List.length (deletedRanges tr)) int_incr
                  (Regions (NewDeleteRangeTask (key "a") (key "d")))
    /\ startKey (mkTask 2 true (key "a") (key "d")) = key "a"
    /\ endKey (mkTask 2 true (key "a") (key "d")) = key "d"
    /\ (IsCanceled (mkTask 2 true (key "a") (key "d")) = true ->
        IsCanceled (NewDeleteRangeTask (key "a") (key "d")) = true
        \/ (@None error = None
            /\ on_Done (sim threeRegions someData "" 1 2 (Some 3%nat))
                       (snd (Execute_loop
                               (sim threeRegions someData "" 1 2 (Some 3%nat))
                               4 (NewDeleteRangeTask (key "a") (key "d"))
                               (key "a") (key "d") []))
               = true)).
Proof.
  apply (Execute_counts_confirmed
           (sim threeRegions someData "" 1 2 (Some 3%nat)) 4
           (NewDeleteRangeTask (key "a") (key "d"))
           (mkTask 2 true (key "a") (key "d")) None []).
  reflexivity.
Defined.

(* ================================================================== *)
(** ** The requests of the task on a tiling *)

Lemma taskEndKey_rule (loc : KeyLocation) (cur e : bytes) :
  Contains loc cur = true -> kle cur e ->
  taskEndKey loc e = clampRule e (EndKey loc).
Proof.
  intros Hc Hle. unfold taskEndKey.
  destruct (Contains loc e) eqn:He.
  - apply Contains_iff in He as [_ [He|He]].
    + symmetry. apply clampRule_range. right. now apply klt_kle.
    + symmetry. apply clampRule_range. now left.
  - apply Contains_iff in Hc as [Hs Hc].
    assert (EndKey loc <> [] /\ kle (EndKey loc) e) as [Hn Hend].
    { unfold Contains in He. apply andb_false_iff in He as [He|He].
      - apply Compare_le_false in He. exfalso.
        eapply klt_not_kle; [exact He|]. eapply kle_trans; eauto.
      - apply orb_false_iff in He as [H1 H2]. apply Compare_lt_false in H1.
        split; [|exact H1]. intros E. apply len_zero in E. congruence. }
    apply kle_cases in Hend as [E|Hlt].
    + rewrite <- E. symmetry. apply clampRule_range. right. apply kle_refl.
    + symmetry. now apply clampRule_shard.
Qed.

Lemma taskSubRequest_map (s e : bytes) (ls : list KeyLocation) :
  map (taskSubRequest s e) ls = map asTaskRequest (map (subRequest s e) ls).
Proof. rewrite map_map. now apply map_ext. Qed.

Section TaskCoverage.

Variable c : Cluster.
Variable layout : list KeyLocation.
Hypothesis Hloc : locates c layout.
Hypothesis Hdel : answersDeletes c.
Hypothesis Hctx : neverDone c.

(** On such a cluster one turn of the loop is one locate and one request,
    clamped to the location found and confirmed. *)
Lemma Execute_loop_clean (fuel : nat) (t : DeleteRangeTask) (s e : bytes)
      (h : Log) (l : KeyLocation) :
  locateIn layout s = inr l ->
  exists resp,
    Execute_loop c (S fuel) t s e h
    = (if Equal (taskEndKey l e) e
       then ret (incr_regions t, None)
       else Execute_loop c fuel (incr_regions t) (taskEndKey l e) e)
        (h ++ [EvLocateKey s (inr l);
               EvSendReq (DeleteRangeRequest s (taskEndKey l e))
                         (Region l) ReadTimeoutMedium (inr resp)]).
Proof.
  intros E. cbn [Execute_loop]. step_loop. rewrite Hctx, Hloc, E.
  destruct (Hdel (h ++ [EvLocateKey s (inr l)])
                 s (taskEndKey l e) (Region l) ReadTimeoutMedium)
    as (resp & body & Es & G & B & Er).
  rewrite Es, G, B, Er. exists resp. rewrite app_snoc2.
  cbn [negb String.eqb]. cbn iota.
  now destruct (Equal (taskEndKey l e) e).
Qed.

(** The walk of the task from a key inside location [l], over [l] and the
    locations after it. *)
Lemma Execute_walk (e : bytes) (rest : list KeyLocation) :
  forall (pre : list KeyLocation) (l : KeyLocation) (s : bytes) (h : Log)
         (fuel : nat) (t : DeleteRangeTask),
    layout = pre ++ l :: rest ->
    ends_before pre s ->
    Contains l s = true ->
    tilesb (StartKey l) (l :: rest) = true ->
    klt s e ->
    (List.length rest < fuel)%nat ->
    exists tr t',
      Execute_loop c fuel t s e h = (Some (t', None), h ++ tr)
      /\ requests tr
         = map (taskSubRequest s e) (filter (intersects s e) layout).
Proof.
  induction rest as [|l' rest IH]; intros pre l s h fuel t EL Hb Hc Ht Hlt Hf;
    (destruct fuel as [|fuel]; [simpl in Hf; lia|]);
    destruct (Execute_loop_clean fuel t s e h l) as (resp & E);
    try (rewrite EL; now apply locateIn_at);
    rewrite E; clear E;
    rewrite (taskEndKey_rule l s e Hc (klt_kle _ _ Hlt));
    apply Contains_iff in Hc as [Hs Hin];
    apply tilesb_cons in Ht as [_ Ht].
  - (* the last location of the layout *)
    rewrite Ht. cbn [clampRule]. rewrite (proj2 (Equal_eq e e) eq_refl).
    eexists _, _; split; [reflexivity|]. cbn [requests].
    rewrite EL, taskSubRequest_map, coverage_last; auto.
    + now rewrite Ht.
    + intros p [].
  - destruct Ht as [Hne Ht]. pose proof (klt_nonempty _ _ Hne) as Hn.
    destruct Hin as [Hin|Hin]; [|contradiction].
    destruct (klt_or_kle (EndKey l) e) as [Hmore|Hlast].
    + (* the range goes on after this location *)
      rewrite (clampRule_shard _ _ Hn Hmore).
      rewrite (Equal_false _ _ (klt_neq _ _ Hmore)).
      pose proof (tilesb_cons _ _ _ Ht) as [Hs' Ht'].
      destruct (IH (pre ++ [l]) l' (EndKey l)
                   (h ++ [EvLocateKey s (inr l);
                          EvSendReq (DeleteRangeRequest s (EndKey l))
                                    (Region l) ReadTimeoutMedium (inr resp)])
                   fuel (incr_regions t))
        as (tr & t' & Et & Hreq).
      * now rewrite <- app_assoc.
      * apply (ends_before_snoc pre l s); auto using kle_refl, klt_kle.
      * apply Contains_iff. rewrite Hs'. split; [apply kle_refl|].
        destruct rest; [now right|left; apply Ht'].
      * now rewrite Hs'.
      * exact Hmore.
      * simpl in Hf. lia.
      * rewrite Et, <- app_assoc. eexists _, t'; split; [reflexivity|].
        cbn [app requests]. rewrite Hreq, EL, !taskSubRequest_map.
        rewrite (coverage_step s e pre l (l' :: rest)); auto.
        intros p Hp. now apply (tilesb_starts _ _ Ht).
    + (* the range ends in this location *)
      rewrite (clampRule_range e (EndKey l) (or_intror Hlast)).
      rewrite (proj2 (Equal_eq e e) eq_refl).
      eexists _, _; split; [reflexivity|]. cbn [requests].
      rewrite EL, taskSubRequest_map, coverage_last; auto.
      * now apply clampRule_range; right.
      * intros p Hp. eapply kle_trans; [exact Hlast|].
        now apply (tilesb_starts _ _ Ht).
Qed.

End TaskCoverage.

Lemma sim_answersDeletes (layout : list KeyLocation) (data : list KvPair)
      (budget : nat) (cancelAfter : option nat) :
  answersDeletes (sim layout data "" 0 budget cancelAfter).
Proof.
  intros h s e region timeout. simpl.
  exists (serve layout data "" (DeleteRangeRequest s e) region).
  eexists. repeat split.
Qed.

(** X13. Let the locator answer from a layout that tiles the keys, let
    every delete-range request of the task be confirmed, and let the
    context never be done.  For a range with [startKey < endKey] and fuel
    for one turn per location, [Execute] returns nil, without a retry,
    and the requests it sent are, in the order of the layout, one for
    each location that meets the range and no other, each for exactly the
    part of the range inside that location (from the larger start to the
    smaller end) and sent to that location's region. *)
Theorem Execute_covers (c : Cluster) (layout : list KeyLocation)
        (task : DeleteRangeTask) (h : Log) (fuel : nat) :
  tilesb [] layout = true ->
  locates c layout ->
  answersDeletes c ->
  neverDone c ->
  klt (startKey task) (endKey task) ->
  (List.length layout <= fuel)%nat ->
  exists tr,
    Execute c fuel task h = (Some None, h ++ tr)
    /\ requests tr
       = map (taskSubRequest (startKey task) (endKey task))
             (filter (intersects (startKey task) (endKey task)) layout).
Proof.
  intros Ht Hloc Hdel Hctx Hlt Hf.
  destruct (tiling_locate layout [] (startKey task) Ht (kle_nil _))
    as (pre & l & rest & EL & Hb & Hc & Htl).
  destruct (Execute_walk c layout Hloc Hdel Hctx (endKey task) rest pre l
                         (startKey task) h fuel task)
    as (tr & t' & E & Hreq); auto.
  { rewrite EL, length_app in Hf. simpl in Hf. lia. }
  exists tr. unfold Execute, bind. rewrite E.
  split; [reflexivity|exact Hreq].
Qed.

Lemma Execute_covers_witness :
  exists tr,
    Execute (sim threeRegions someData "" 0 0 None) 3
            (NewDeleteRangeTask (key "a") (key "d")) []
    = (Some None, [] ++ tr)
    /\ requests tr
       = map (taskSubRequest (key "a") (key "d"))
             (filter (intersects (key "a") (key "d")) threeRegions).
Proof.
  apply (Execute_covers (sim threeRegions someData "" 0 0 None)
                        threeRegions
                        (NewDeleteRangeTask (key "a") (key "d")) [] 3).
  - reflexivity.
  - apply sim_locates.
  - apply sim_answersDeletes.
  - intros h. reflexivity.
  - reflexivity.
  - simpl. lia.
Defined.

(** The requests of the task for the range ["a", "d") on the three
    regions, and for the empty range at "a": one request all the same. *)
Example Execute_three_regions :
  let r := Execute (sim threeRegions someData "" 0 0 None) 3
                   (NewDeleteRangeTask (key "a") (key "d")) [] in
  fst r = Some None
  /\ requests (snd r)
     = [(DeleteRangeRequest (key "a") (key "b"), 1);
        (DeleteRangeRequest (key "b") (key "c"), 2);
        (DeleteRangeRequest (key "c") (key "d"), 3)].
Proof. split; reflexivity. Qed.

Example Execute_empty_range :
  let r := Execute (sim threeRegions someData "" 0 0 None) 3
                   (NewDeleteRangeTask (key "a") (key "a")) [] in
  fst r = Some None
  /\ requests (snd r) = [(DeleteRangeRequest (key "a") (key "a"), 1)]
  /\ snd (DeleteRange (sim threeRegions someData "" 0 0 None) 3
                      (key "a") (key "a") []) = [].
Proof. repeat split. Qed.

(* ================================================================== *)
(** ** A nil error and the last answer *)

Lemma confirmed_served (req : Request) (ev : Event) (resp : Response) :
  confirmed req ev resp -> servedEv ev.
Proof. now intros (region & timeout & -> & G & _). Qed.

Lemma not_longer {A : Type} (h t : list A) (x : A) : h <> h ++ t ++ [x].
Proof.
  intros E. apply (f_equal (@List.length A)) in E.
  rewrite !length_app in E. simpl in E. lia.
Qed.

(** What [sendReq] hands to its caller, against the end of the log. *)
Lemma sendReq_confirmed (c : Cluster) (fuel : nat) (k : bytes) (req : Request)
      (h h1 : Log) (d : option (error + Response * KeyLocation)) :
  sendReq c fuel k req h = (d, h1) ->
  match d with
  | Some (inr (resp, loc)) =>
      (exists t, h1 = h ++ t ++ [EvSendReq req (Region loc) readTimeoutShort
                                           (inr resp)])
      /\ GetRegionError resp = inr None
      /\ forall t ev resp',
           h1 = h ++ t ++ [ev] -> confirmed req ev resp' -> resp' = resp
  | _ =>
      forall t ev resp',
        h1 = h ++ t ++ [ev] -> confirmed req ev resp' -> False
  end.
Proof.
  intros D. apply sendReq_served_last in D as (t1 & -> & Ht).
  assert (forall t ev resp',
             neverIn servedEv t1 ->
             h ++ t1 = h ++ t ++ [ev] -> confirmed req ev resp' -> False)
    as Hno.
  { intros t ev resp' Hn E Hc. apply app_inv_head in E. subst t1.
    apply (Hn ev); [|now apply (confirmed_served req ev resp')].
    apply in_or_app. right. now left. }
  destruct d as [[err|[resp loc]]|]; eauto.
  destruct Ht as (t0 & -> & H0 & G). split; [now exists t0|].
  split; [exact G|]. intros t ev resp' E (region & timeout & -> & _).
  apply app_inv_head, app_inj_tail in E as [_ E]. now inversion E.
Qed.

Lemma Get_confirmed (c : Cluster) (fuel : nat) (k : bytes) (h : Log)
      (v : option bytes) :
  fst (Get c fuel k h) = Some (v, None)
  <-> exists t ev resp,
        snd (Get c fuel k h) = h ++ t ++ [ev]
        /\ confirmed (RawGetRequest k) ev resp
        /\ v = valueOf resp.
Proof.
  unfold Get, bind.
  destruct (sendReq c fuel k (RawGetRequest k) h) as [d h1] eqn:D.
  apply sendReq_confirmed in D.
  destruct d as [[err|[resp loc]]|];
    try (split; [discriminate|]; intros (t & ev & resp' & E & Hc & _);
         exfalso; exact (D t ev resp' E Hc)).
  destruct D as ((t0 & ->) & G & Hsame). unfold valueOf.
  destruct (RawGet resp) as [cmdResp|] eqn:B.
  2:{ split; [discriminate|].
      intros (t & ev & resp' & E & Hc & _). exfalso.
      pose proof (Hsame t ev resp' E Hc) as ->.
      destruct Hc as (_ & _ & _ & _ & Ha). simpl in Ha.
      rewrite B in Ha. discriminate. }
  destruct (RawGet_Error cmdResp =? "")%string eqn:Er; cbn [negb].
  2:{ split; [discriminate|].
      intros (t & ev & resp' & E & Hc & _). exfalso.
      pose proof (Hsame t ev resp' E Hc) as ->.
      destruct Hc as (_ & _ & _ & _ & Ha). simpl in Ha.
      rewrite B in Ha. inversion Ha as [Ha']. rewrite Ha' in Er.
      discriminate. }
  assert (confirmed (RawGetRequest k)
                    (EvSendReq (RawGetRequest k) (Region loc)
                               readTimeoutShort (inr resp)) resp) as Hc.
  { exists (Region loc), readTimeoutShort. repeat split; [exact G|].
    simpl. rewrite B. simpl. f_equal. now apply String.eqb_eq. }
  split.
  - intros H. eexists t0, _, resp. rewrite B.
    destruct (len (RawGet_Value cmdResp) =? 0); simpl in H; inversion H;
      (split; [reflexivity|]); now split.
  - intros (t & ev & resp' & E & Hc' & ->).
    assert (h ++ t0 ++ [EvSendReq (RawGetRequest k) (Region loc)
                                  readTimeoutShort (inr resp)]
            = h ++ t ++ [ev]) as E'.
    { rewrite <- E. now destruct (len (RawGet_Value cmdResp) =? 0). }
    pose proof (Hsame t ev resp' E' Hc') as ->. rewrite B.
    now destruct (len (RawGet_Value cmdResp) =? 0).
Qed.

Lemma Put_confirmed (c : Cluster) (fuel : nat) (k value : bytes) (h : Log) :
  fst (Put c fuel k value h) = Some None
  <-> exists t ev resp,
        snd (Put c fuel k value h) = h ++ t ++ [ev]
        /\ confirmed (RawPutRequest k value) ev resp.
Proof.
  unfold Put. destruct (len value =? 0).
  { split; [discriminate|]. intros (t & ev & resp & E & _).
    now apply not_longer in E. }
  unfold bind.
  destruct (sendReq c fuel k (RawPutRequest k value) h) as [d h1] eqn:D.
  apply sendReq_confirmed in D.
  destruct d as [[err|[resp loc]]|];
    try (split; [discriminate|]; intros (t & ev & resp' & E & Hc);
         exfalso; exact (D t ev resp' E Hc)).
  destruct D as ((t0 & ->) & G & Hsame).
  destruct (RawPut resp) as [cmdResp|] eqn:B.
  2:{ split; [discriminate|].
      intros (t & ev & resp' & E & Hc). exfalso.
      pose proof (Hsame t ev resp' E Hc) as ->.
      destruct Hc as (_ & _ & _ & _ & Ha). simpl in Ha.
      rewrite B in Ha. discriminate. }
  destruct (RawPut_Error cmdResp =? "")%string eqn:Er; cbn [negb].
  2:{ split; [discriminate|].
      intros (t & ev & resp' & E & Hc). exfalso.
      pose proof (Hsame t ev resp' E Hc) as ->.
      destruct Hc as (_ & _ & _ & _ & Ha). simpl in Ha.
      rewrite B in Ha. inversion Ha as [Ha']. rewrite Ha' in Er.
      discriminate. }
  split; [|reflexivity]. intros _. eexists t0, _, resp.
  split; [reflexivity|].
  exists (Region loc), readTimeoutShort. repeat split; [exact G|].
  simpl. rewrite B. simpl. f_equal. now apply String.eqb_eq.
Qed.

Lemma Delete_confirmed (c : Cluster) (fuel : nat) (k : bytes) (h : Log) :
  fst (Delete c fuel k h) = Some None
  <-> exists t ev resp,
        snd (Delete c fuel k h) = h ++ t ++ [ev]
        /\ confirmed (RawDeleteRequest k) ev resp.
Proof.
  unfold Delete, bind.
  destruct (sendReq c fuel k (RawDeleteRequest k) h) as [d h1] eqn:D.
  apply sendReq_confirmed in D.
  destruct d as [[err|[resp loc]]|];
    try (split; [discriminate|]; intros (t & ev & resp' & E & Hc);
         exfalso; exact (D t ev resp' E Hc)).
  destruct D as ((t0 & ->) & G & Hsame).
  destruct (RawDelete resp) as [cmdResp|] eqn:B.
  2:{ split; [discriminate|].
      intros (t & ev & resp' & E & Hc). exfalso.
      pose proof (Hsame t ev resp' E Hc) as ->.
      destruct Hc as (_ & _ & _ & _ & Ha). simpl in Ha.
      rewrite B in Ha. discriminate. }
  destruct (RawDelete_Error cmdResp =? "")%string eqn:Er; cbn [negb].
  2:{ split; [discriminate|].
      intros (t & ev & resp' & E & Hc). exfalso.
      pose proof (Hsame t ev resp' E Hc) as ->.
      destruct Hc as (_ & _ & _ & _ & Ha). simpl in Ha.
      rewrite B in Ha. inversion Ha as [Ha']. rewrite Ha' in Er.
      discriminate. }
  split; [|reflexivity]. intros _. eexists t0, _, resp.
  split; [reflexivity|].
  exists (Region loc), readTimeoutShort. repeat split; [exact G|].
  simpl. rewrite B. simpl. f_equal. now apply String.eqb_eq.
Qed.

(** X14. [Get], [Put] and [Delete] return a nil error exactly when the
    log of the run ends with the request of the call (for [Put], the key
    with the value given) answered without region error by a response
    whose body is present and carries no error text: a nil error always
    stands for a confirmation by the store of this very request, and such
    a confirmation is never turned into an error.  The value that [Get]
    returns with it is the value of that last response, nil when it is
    empty. *)
Theorem nil_error_iff_confirmed (c : Cluster) (fuel : nat) (k value : bytes)
        (h : Log) :
  (forall v : option bytes,
      fst (Get c fuel k h) = Some (v, None)
      <-> exists t ev resp,
            snd (Get c fuel k h) = h ++ t ++ [ev]
            /\ confirmed (RawGetRequest k) ev resp
            /\ v = valueOf resp)
  /\ (fst (Put c fuel k value h) = Some None
      <-> exists t ev resp,
            snd (Put c fuel k value h) = h ++ t ++ [ev]
            /\ confirmed (RawPutRequest k value) ev resp)
  /\ (fst (Delete c fuel k h) = Some None
      <-> exists t ev resp,
            snd (Delete c fuel k h) = h ++ t ++ [ev]
            /\ confirmed (RawDeleteRequest k) ev resp).
Proof.
  split; [intros v; apply Get_confirmed|].
  split; [apply Put_confirmed|apply Delete_confirmed].
Qed.

Lemma nil_error_iff_confirmed_witness :
  exists t ev resp,
    snd (Get (sim threeRegions someData "" 1 2 None) 3 (key "ab") [])
    = [] ++ t ++ [ev]
    /\ confirmed (RawGetRequest (key "ab")) ev resp
    /\ Some (key "2") = valueOf resp.
Proof.
  apply (proj1 (nil_error_iff_confirmed
                  (sim threeRegions someData "" 1 2 None) 3
                  (key "ab") (key "x") [])
               (Some (key "2"))).
  reflexivity.
Defined.
